(** * Jetson YOLO demo (model_deployment/app.py): telemetry, source opening
      and the frame-processing loop

    A shallow embedding of the parts of [app.py] that carry logic:
    - [TEGRAPATTERN] and the backtracking search [re.Pattern.search] applies
      to it (modules [Re] and [Tegra]), with the line format it is meant
      for stated apart (module [Format]);
    - [MetricsMonitor] with its [queue.Queue(maxsize=1)] (module [Monitor]);
    - [VideoReceiver.open_udp_ffmpeg] (module [Receiver]);
    - [InferenceLoop.run] / [_render_metrics] and the routes of [main]
      (modules [Loop] and [Main]).

    Conventions.  A Python [str] is a list of code points below 256 (Rocq's
    [ascii]); Python's [int] is [Z].  A finite [float] is the rational [Q]
    it denotes: the throttle test of the loop is computed as binary64
    computes it (module [Float]: conversion of an [int], division and
    subtraction, each rounded to nearest, ties to even), the throughput
    figure, which is only displayed to one decimal, is kept exact.
    Exceptions are explicit results. *)

From Stdlib Require Import List String Ascii Bool Arith ZArith QArith Lia Lqa.
From Stdlib Require Import Sorted Qminmax DecimalString Permutation.
From Stdlib Require Import Qround Qabs Qpower.
Import ListNotations.

Set Implicit Arguments.

(** ** Text helpers *)

Definition chars (s : string) : list ascii := list_ascii_of_string s.
Definition text (l : list ascii) : string := string_of_list_ascii l.

(** ** Regular expressions as [re] runs them

    Only the constructs [TEGRAPATTERN] uses: single characters and classes,
    a quantified class (greedy [k+], lazy [k*?] and [k+?]), named groups
    and concatenation, searched with [re.IGNORECASE]. *)
Module Re.

Definition code (c : ascii) : nat := nat_of_ascii c.

(** [str.lower] on code points below 256, as far as the letters of a
    pattern are concerned: A-Z go to a-z. *)
Definition lower (c : ascii) : ascii :=
  if (65 <=? code c) && (code c <=? 90) then ascii_of_nat (code c + 32) else c.

(** [\d] on a str pattern: the decimal digits (below 256, only 0-9). *)
Definition is_digit (c : ascii) : bool := (48 <=? code c) && (code c <=? 57).

(** [\s] on a str pattern: [str.isspace], which below 256 is
    TAB..CR, FS..US, SPACE, NEL and NBSP. *)
Definition is_space (c : ascii) : bool :=
  let n := code c in
  ((9 <=? n) && (n <=? 13)) || ((28 <=? n) && (n <=? 32))
  || (n =? 133) || (n =? 160).

Definition newline : ascii := ascii_of_nat 10.

Inductive cclass : Type :=
| CChar (c : ascii)          (* a literal, compared without case *)
| CSpace                     (* \s *)
| CDigit                     (* \d *)
| CAny                       (* .  (no DOTALL: anything but a newline) *)
| COr (a b : cclass).        (* [ab] *)

Fixpoint cmatch (k : cclass) (c : ascii) : bool :=
  match k with
  | CChar x => Ascii.eqb (lower x) (lower c)
  | CSpace => is_space c
  | CDigit => is_digit c
  | CAny => negb (Ascii.eqb c newline)
  | COr a b => cmatch a c || cmatch b c
  end.

Inductive regex : Type :=
| REmpty
| RChar (k : cclass)
| RRep (k : cclass) (min : nat) (lazy : bool)   (* k{min,} or k{min,}? *)
| RGroup (name : string) (r : regex)            (* (?P<name>r) *)
| RSeq (r1 r2 : regex).

Declare Scope re_scope.
Delimit Scope re_scope with re.
Bind Scope re_scope with regex.
Infix ";;" := RSeq (at level 61, right associativity) : re_scope.

Fixpoint lit_chars (l : list ascii) : regex :=
  match l with
  | [] => REmpty
  | c :: l' => RSeq (RChar (CChar c)) (lit_chars l')
  end.
Definition lit (s : string) : regex := lit_chars (chars s).

(** What [m.groupdict()] holds: group name and matched text, in the order
    of the groups in the pattern (no group of [TEGRAPATTERN] is nested or
    optional). *)
Definition groupdict := list (string * string).

Section Backtracking.
Variable A : Type.

(** Greedy [k{min,}]: take as many as possible, give back one at a time. *)
Fixpoint rep_greedy (k : cclass) (min : nat) (s : list ascii)
         (cont : list ascii -> option A) : option A :=
  let stop := if (min =? 0)%nat then cont s else None in
  match s with
  | c :: s' =>
      if cmatch k c then
        match rep_greedy k (pred min) s' cont with
        | Some r => Some r
        | None => stop
        end
      else stop
  | [] => stop
  end.

(** Lazy [k{min,}?]: try to go on first, take one more on failure. *)
Fixpoint rep_lazy (k : cclass) (min : nat) (s : list ascii)
         (cont : list ascii -> option A) : option A :=
  match (if (min =? 0)%nat then cont s else None) with
  | Some r => Some r
  | None =>
      match s with
      | c :: s' => if cmatch k c then rep_lazy k (pred min) s' cont else None
      | [] => None
      end
  end.

Fixpoint bt (r : regex) (s : list ascii) (g : groupdict)
         (cont : list ascii -> groupdict -> option A) : option A :=
  match r with
  | REmpty => cont s g
  | RChar k =>
      match s with
      | c :: s' => if cmatch k c then cont s' g else None
      | [] => None
      end
  | RRep k min lazy =>
      (if lazy then rep_lazy else rep_greedy) k min s (fun s' => cont s' g)
  | RGroup name r' =>
      bt r' s g (fun s' g' =>
        cont s' (g' ++ [(name, text (firstn (List.length s - List.length s') s))]))
  | RSeq r1 r2 => bt r1 s g (fun s1 g1 => bt r2 s1 g1 cont)
  end.
End Backtracking.

(** [match] anchored at the start of [s]. *)
Definition match_at (r : regex) (s : list ascii) : option groupdict :=
  bt r s [] (fun _ g => Some g).

(** [pattern.search]: the leftmost start position that matches. *)
Fixpoint search_chars (r : regex) (s : list ascii) : option groupdict :=
  match match_at r s with
  | Some g => Some g
  | None =>
      match s with
      | [] => None
      | _ :: s' => search_chars r s'
      end
  end.

Definition search (r : regex) (line : string) : option groupdict :=
  search_chars r (chars line).

(** The words a regex denotes, without reference to any search order. *)
Fixpoint lang (r : regex) (w : list ascii) : Prop :=
  match r with
  | REmpty => w = []
  | RChar k => exists c, w = [c] /\ cmatch k c = true
  | RRep k min _ => (min <= List.length w)%nat /\ forallb (cmatch k) w = true
  | RGroup _ r' => lang r' w
  | RSeq r1 r2 => exists w1 w2, w = (w1 ++ w2)%list /\ lang r1 w1 /\ lang r2 w2
  end.

(** Names of the groups of a regex, in pattern order. *)
Fixpoint group_names (r : regex) : list string :=
  match r with
  | RGroup n r' => (group_names r' ++ [n])%list
  | RSeq r1 r2 => (group_names r1 ++ group_names r2)%list
  | _ => []
  end.

(** Least length of a word of the regex. *)
Fixpoint min_len (r : regex) : nat :=
  match r with
  | REmpty => 0
  | RChar _ => 1
  | RRep _ min _ => min
  | RGroup _ r' => min_len r'
  | RSeq r1 r2 => min_len r1 + min_len r2
  end.

(** Every group of the regex spans at least one character. *)
Fixpoint groups_nonempty (r : regex) : bool :=
  match r with
  | RGroup _ r' => (0 <? min_len r')%nat && groups_nonempty r'
  | RSeq r1 r2 => groups_nonempty r1 && groups_nonempty r2
  | _ => true
  end.

End Re.

(** ** TEGRAPATTERN *)
Module Tegra.
Import Re.
Local Open Scope re_scope.
Local Open Scope string_scope.

Definition spaces1 : regex := RRep CSpace 1 false.          (* \s+  *)
Definition digits1 : regex := RRep CDigit 1 false.          (* \d+  *)
Definition gap : regex := RRep CAny 0 true.                 (* .*?  *)
Definition under_or_space : cclass := COr (CChar "_") (CChar " ").
Definition digit_or_dot : cclass := COr CDigit (CChar ".").

(** [RAM\s+(?P<ram_used>\d+)\/(?P<ram_total>\d+)MB] *)
Definition pat_ram : regex :=
  lit "RAM" ;; spaces1 ;; RGroup "ram_used" digits1 ;; lit "/" ;;
  RGroup "ram_total" digits1 ;; lit "MB".

(** [CPU\s+\[(?P<cpu>.+?)\]] *)
Definition pat_cpu : regex :=
  lit "CPU" ;; spaces1 ;; lit "[" ;; RGroup "cpu" (RRep CAny 1 true) ;; lit "]".

(** [EMC[_ ]FREQ\s+(?P<emc_pct>\d+)%@(?P<emc_mhz>\d+)], and the same for GR3D. *)
Definition pat_freq (label pct mhz : string) : regex :=
  lit label ;; RChar under_or_space ;; lit "FREQ" ;; spaces1 ;;
  RGroup pct digits1 ;; lit "%@" ;; RGroup mhz digits1.

(** [GPU@(?P<gpu_temp>[\d\.]+)C] *)
Definition pat_gpu : regex :=
  lit "GPU@" ;; RGroup "gpu_temp" (RRep digit_or_dot 1 false) ;; lit "C".

Definition TEGRAPATTERN : regex :=
  pat_ram ;; gap ;;
  pat_cpu ;; gap ;;
  pat_freq "EMC" "emc_pct" "emc_mhz" ;; gap ;;
  pat_freq "GR3D" "gr3d_pct" "gr3d_mhz" ;; gap ;;
  gap ;; pat_gpu.

(** [m = self._pattern.search(line)] followed by [m.groupdict()]. *)
Definition parse_line (line : string) : option groupdict :=
  search TEGRAPATTERN line.

Definition field_names : list string :=
  ["ram_used"; "ram_total"; "cpu"; "emc_pct"; "emc_mhz";
   "gr3d_pct"; "gr3d_mhz"; "gpu_temp"].

(** Two lines for examples: one as a Jetson Nano prints it, one in lower
    case with a space in the FREQ labels. *)
Definition stats_underscore : string :=
  "RAM 1794/3956MB (lfb 120x4MB) SWAP 0/1978MB (cached 0MB) CPU [2%@102,1%@102,0%@102,0%@102] EMC_FREQ 0%@204 GR3D_FREQ 0%@76 APE 25 PLL@33C CPU@35.5C PMIC@100C GPU@34C AO@41C thermal@34.75C".

Definition stats_space : string :=
  "ram  12/34mb cpu [off] Emc Freq 5%@1600 gr3d freq 99%@1300 gpu@41.5c".

Definition sample_underscore : groupdict :=
  [("ram_used", "1794"); ("ram_total", "3956");
   ("cpu", "2%@102,1%@102,0%@102,0%@102");
   ("emc_pct", "0"); ("emc_mhz", "204");
   ("gr3d_pct", "0"); ("gr3d_mhz", "76"); ("gpu_temp", "34")].

Definition sample_space : groupdict :=
  [("ram_used", "12"); ("ram_total", "34"); ("cpu", "off");
   ("emc_pct", "5"); ("emc_mhz", "1600");
   ("gr3d_pct", "99"); ("gr3d_mhz", "1300"); ("gpu_temp", "41.5")].

End Tegra.



(** ** The line format the parser is expected to accept

    Stated on its own, by the text of a line and not by a search: the five
    labelled sections in order, each with its values, and anything but a
    line break between them. *)
Module Format.
Import Re.
Local Open Scope list_scope.

(** [w] spells the label [l], in any letter case. *)
Definition label (l : string) (w : list ascii) : Prop :=
  map lower w = map lower (chars l).

(** One or more characters, all of one kind. *)
Definition some (p : ascii -> bool) (w : list ascii) : Prop :=
  (1 <= List.length w)%nat /\ forallb p w = true.

Definition not_newline (c : ascii) : bool := negb (Ascii.eqb c newline).
Definition no_newline (w : list ascii) : Prop := forallb not_newline w = true.

(** The two spellings of the separator in [EMC_FREQ] / [EMC FREQ]. *)
Definition separator (c : ascii) : bool := Ascii.eqb c "_" || Ascii.eqb c " ".

Definition temp_char (c : ascii) : bool := is_digit c || Ascii.eqb c ".".

(** [RAM <used>/<total>MB] *)
Definition ram_field (w : list ascii) : Prop :=
  exists a ws used b total c,
    w = a ++ ws ++ used ++ b ++ total ++ c
    /\ label "RAM" a /\ some is_space ws /\ some is_digit used
    /\ label "/" b /\ some is_digit total /\ label "MB" c.

(** [CPU [<cpu>]] *)
Definition cpu_field (w : list ascii) : Prop :=
  exists a ws b cpu c,
    w = a ++ ws ++ b ++ cpu ++ c
    /\ label "CPU" a /\ some is_space ws /\ label "[" b
    /\ some not_newline cpu /\ label "]" c.

(** [<name>_FREQ <pct>%@<mhz>] or [<name> FREQ <pct>%@<mhz>] *)
Definition freq_field (name : string) (w : list ascii) : Prop :=
  exists a s b ws pct c mhz,
    w = a ++ [s] ++ b ++ ws ++ pct ++ c ++ mhz
    /\ label name a /\ separator s = true /\ label "FREQ" b
    /\ some is_space ws /\ some is_digit pct /\ label "%@" c
    /\ some is_digit mhz.

(** [GPU@<temp>C] *)
Definition gpu_field (w : list ascii) : Prop :=
  exists a temp c,
    w = a ++ temp ++ c
    /\ label "GPU@" a /\ some temp_char temp /\ label "C" c.

(** The five sections in order, from somewhere in the text on. *)
Definition sections (w : list ascii) : Prop :=
  exists ram g1 cpu g2 emc g3 gr3d g4 gpu,
    w = ram ++ g1 ++ cpu ++ g2 ++ emc ++ g3 ++ gr3d ++ g4 ++ gpu
    /\ ram_field ram /\ no_newline g1
    /\ cpu_field cpu /\ no_newline g2
    /\ freq_field "EMC" emc /\ no_newline g3
    /\ freq_field "GR3D" gr3d /\ no_newline g4
    /\ gpu_field gpu.

Definition tegrastats_format (line : string) : Prop :=
  exists pre w post, chars line = pre ++ w ++ post /\ sections w.

(** The line has a section of the given kind somewhere. *)
Definition has_field (field : list ascii -> Prop) (line : string) : Prop :=
  exists pre w post, chars line = pre ++ w ++ post /\ field w.

(** Every field of the sample is there, with a text. *)
Definition populated (d : groupdict) : Prop :=
  map fst d = Tegra.field_names
  /\ Forall (fun kv => snd kv <> EmptyString) d.

End Format.


(** ** Exceptions *)

Inductive exc : Type :=
| Empty                      (* queue.Empty *)
| Full                       (* queue.Full *)
| ZeroDivisionError
| OverflowError
| Exception (what : string). (* any other Exception *)

Inductive exn (A : Type) : Type :=
| Ok (a : A)
| Raise (e : exc).
Arguments Ok {A} a.
Arguments Raise {A} e.

(** ** float

    IEEE-754 binary64 as Python's [float] uses it, on the rationals the
    finite floats denote: 53 significant bits, exponents down to the
    subnormal unit [2^-1074], round to nearest with ties to even, and
    overflow from [2^1024] on. *)
Module Float.
Local Open Scope Q_scope.

Definition pow2 (e : Z) : Q := 2 ^ e.

(** The floor of the binary logarithm of a positive rational. *)
Definition ilog2 (x : Q) : Z :=
  let k := (Z.log2 (Qnum x) - Z.log2 (Zpos (Qden x)))%Z in
  if Qle_bool (pow2 k) x then k else (k - 1)%Z.

(** The exponent of the unit in the last place at [x]. *)
Definition exponent (x : Q) : Z := Z.max (ilog2 (Qabs x) - 52) (-1074).

(** To the nearest integer, a tie to the even one. *)
Definition rne (x : Q) : Z :=
  let f := Qfloor x in
  match Qcompare (x - inject_Z f) (1 # 2) with
  | Lt => f
  | Gt => (f + 1)%Z
  | Eq => if Z.even f then f else (f + 1)%Z
  end.

(** To the nearest number with 53 significant bits, before overflow is
    looked at; [rnd] is the same as a fraction in lowest terms. *)
Definition raw (x : Q) : Q :=
  inject_Z (rne (x / pow2 (exponent x))) * pow2 (exponent x).
Definition rnd (x : Q) : Q := Qred (raw x).

(** A float that is not a NaN: the operations below are only applied to
    finite floats, where no NaN arises. *)
Inductive float : Type :=
| Finite (q : Q)
| Inf (negative : bool).

(** The float a real result is rounded to. *)
Definition round (x : Q) : float :=
  let y := rnd x in
  if Qle_bool (pow2 1024) (Qabs y) then Inf (negb (Qle_bool 0 y)) else Finite y.

(** [a - b] on finite floats *)
Definition sub (a b : Q) : float := round (a - b).

(** [a / b] on finite floats: [ZeroDivisionError] on a zero divisor. *)
Definition div (a b : Q) : exn float :=
  if Qeq_bool b 0 then Raise ZeroDivisionError else Ok (round (a / b)).

(** The conversion of an [int] operand: [OverflowError] ("int too large to
    convert to float") when the nearest float is not finite. *)
Definition of_int (n : Z) : exn Q :=
  match round (inject_Z n) with
  | Finite q => Ok q
  | Inf _ => Raise OverflowError
  end.

(** [a < b] *)
Definition lt (a b : float) : bool :=
  match a, b with
  | Finite x, Finite y => negb (Qle_bool y x)
  | Finite _, Inf negative => negb negative
  | Inf negative, Finite _ => negative
  | Inf n1, Inf n2 => n1 && negb n2
  end.

(** The rational is a finite float. *)
Definition is_float (x : Q) : bool :=
  match round x with
  | Finite y => Qeq_bool x y
  | Inf _ => false
  end.

(** The least positive [int] that does not convert. *)
Definition int_bound : Z := 2 ^ 1024 - 2 ^ 970.

(** What [1.0 / n] is for an [int] that converts. *)
Definition interval_of (n : Z) : Q := rnd (1 / rnd (inject_Z n)).


End Float.

(** ** MetricsMonitor *)
Module Monitor.
Import Re Tegra.
Local Open Scope string_scope.

(** [str.strip()]: whitespace removed at both ends. *)
Fixpoint lstrip (l : list ascii) : list ascii :=
  match l with
  | c :: l' => if is_space c then lstrip l' else l
  | [] => []
  end.
Definition strip (s : string) : string :=
  text (rev (lstrip (rev (lstrip (chars s))))).

(** [queue.Queue(maxsize=1)]: the items, oldest first. *)
Definition maxsize : nat := 1.
Definition pyqueue := list groupdict.

Definition get_nowait (q : pyqueue) : exn (groupdict * pyqueue) :=
  match q with
  | [] => Raise Empty
  | x :: q' => Ok (x, q')
  end.

Definition put_nowait (x : groupdict) (q : pyqueue) : exn pyqueue :=
  if (0 <? maxsize)%nat && (maxsize <=? List.length q)%nat
  then Raise Full
  else Ok (q ++ [x])%list.

(** The first half of a write in [_reader]:
      try: self._queue.get_nowait()
      except queue.Empty: pass *)
Definition evict (q : pyqueue) : pyqueue :=
  match get_nowait q with
  | Ok (_, q') => q'
  | Raise _ => q
  end.

(** A write in [_reader]: evict, then [put_nowait]. *)
Definition write (data : groupdict) (q : pyqueue) : exn pyqueue :=
  put_nowait data (evict q).

(** The read in [latest]: [get_nowait], [None] on [queue.Empty]. *)
Definition read (q : pyqueue) : option groupdict * pyqueue :=
  match get_nowait q with
  | Ok (x, q') => (Some x, q')
  | Raise _ => (None, q)
  end.

Record monitor : Type := {
  _queue : pyqueue;
  _proc : option string;      (* the Popen object, by the path it runs *)
  _thread : option nat;       (* the Thread object, by its number *)
  _last_raw : string
}.

(** [MetricsMonitor.__init__] *)
Definition init : monitor :=
  {| _queue := []; _proc := None; _thread := None; _last_raw := "" |}.

Definition set_queue (q : pyqueue) (m : monitor) : monitor :=
  {| _queue := q; _proc := _proc m; _thread := _thread m; _last_raw := _last_raw m |}.
Definition set_proc (p : option string) (m : monitor) : monitor :=
  {| _queue := _queue m; _proc := p; _thread := _thread m; _last_raw := _last_raw m |}.
Definition set_thread (t : option nat) (m : monitor) : monitor :=
  {| _queue := _queue m; _proc := _proc m; _thread := t; _last_raw := _last_raw m |}.
Definition set_last_raw (s : string) (m : monitor) : monitor :=
  {| _queue := _queue m; _proc := _proc m; _thread := _thread m; _last_raw := s |}.

(** What the reader thread finds on the machine. *)
Record host : Type := {
  which : string -> option string;       (* shutil.which *)
  path_exists : string -> bool;          (* os.path.exists *)
  popen : string -> exn (list string)    (* Popen([path, "--interval", "1000"]):
                                            the lines its stdout yields, or an
                                            exception *)
}.

(** [shutil.which("tegrastats") or "/usr/bin/tegrastats"] *)
Definition ts_path (h : host) : string :=
  match which h "tegrastats" with
  | Some p => if String.eqb p "" then "/usr/bin/tegrastats" else p
  | None => "/usr/bin/tegrastats"
  end.

(** The tool is absent when [os.path.exists(ts_path)] is false. *)
Definition tool_absent (h : host) : Prop := path_exists h (ts_path h) = false.

(** The body of [for line in self._proc.stdout]; the exception, if any,
    comes with the fields as they were when it was raised. *)
Definition reader_line (m : monitor) (line : string) : monitor * exn unit :=
  let m1 := set_last_raw (strip line) m in
  match parse_line line with
  | Some data =>
      let q1 := evict (_queue m1) in
      match put_nowait data q1 with
      | Ok q2 => (set_queue q2 m1, Ok tt)
      | Raise e => (set_queue q1 m1, Raise e)
      end
  | None => (m1, Ok tt)
  end.

Fixpoint reader_lines (m : monitor) (lines : list string) : monitor * exn unit :=
  match lines with
  | [] => (m, Ok tt)
  | line :: rest =>
      match reader_line m line with
      | (m', Ok _) => reader_lines m' rest
      | (m', Raise e) => (m', Raise e)
      end
  end.

(** [_reader] up to the loop: locate the tool and start it. *)
Definition reader_enter (h : host) (m : monitor) : monitor * exn (option (list string)) :=
  if negb (path_exists h (ts_path h)) then (m, Ok None)               (* return *)
  else
    match popen h (ts_path h) with
    | Raise e => (m, Raise e)
    | Ok lines => (set_proc (Some (ts_path h)) m, Ok (Some lines))
    end.

(** [_reader]: everything runs under [try: ... except Exception: pass]. *)
Definition _reader (h : host) (m : monitor) : monitor * exn unit :=
  let body :=
    match reader_enter h m with
    | (m1, Ok (Some lines)) => reader_lines m1 lines
    | (m1, Ok None) => (m1, Ok tt)
    | (m1, Raise e) => (m1, Raise e)
    end in
  match body with
  | (m', Raise _) => (m', Ok tt)
  | r => r
  end.

(** The reader as a thread: [_reader] one scheduling step at a time. *)
Inductive thread : Type :=
| Created                          (* started, [_reader] not yet entered *)
| Reading (lines : list string)    (* in the loop, these lines still to come *)
| Finished.

Definition thread_step (h : host) (t : thread) (m : monitor) : monitor * thread :=
  match t with
  | Created =>
      match reader_enter h m with
      | (m1, Ok (Some lines)) => (m1, Reading lines)
      | (m1, _) => (m1, Finished)
      end
  | Reading [] => (m, Finished)
  | Reading (line :: rest) =>
      match reader_line m line with
      | (m', Ok _) => (m', Reading rest)
      | (m', Raise _) => (m', Finished)
      end
  | Finished => (m, Finished)
  end.

(** A thread left to itself for [n] steps. *)
Fixpoint thread_run (h : host) (n : nat) (t : thread) (m : monitor)
  : monitor * thread :=
  match n with
  | O => (m, t)
  | S n' => let (m', t') := thread_step h t m in thread_run h n' t' m'
  end.

(** [Thread.is_alive()] *)
Definition is_alive (ths : list thread) (t : nat) : bool :=
  match nth_error ths t with
  | Some Finished => false
  | Some _ => true
  | None => false
  end.

(** [start]: the monitor and the threads of the process. *)
Definition start (m : monitor) (ths : list thread) : monitor * list thread :=
  if match _thread m with
     | None => true
     | Some t => negb (is_alive ths t)
     end
  then (set_thread (Some (List.length ths)) m, (ths ++ [Created])%list)
  else (m, ths).

(** [latest] *)
Definition latest (m : monitor) : (option groupdict * string) * monitor :=
  let (data, q) := read (_queue m) in
  ((data, _last_raw m), set_queue q m).

(** One scheduling step of thread [t]. *)
Definition step_thread (h : host) (t : nat) (m : monitor) (ths : list thread)
  : monitor * list thread :=
  match nth_error ths t with
  | Some th =>
      let (m', th') := thread_step h th m in
      (m', firstn t ths ++ th' :: skipn (S t) ths)%list
  | None => (m, ths)
  end.

Fixpoint schedule (h : host) (ts : list nat) (m : monitor) (ths : list thread)
  : monitor * list thread :=
  match ts with
  | [] => (m, ths)
  | t :: ts' => let (m', ths') := step_thread h t m ths in schedule h ts' m' ths'
  end.

(** The queues that can arise from [__init__] on. *)
Inductive reachable : pyqueue -> Prop :=
| reach_init : reachable []
| reach_evict q : reachable q -> reachable (evict q)
| reach_write q q' data : reachable q -> write data q = Ok q' -> reachable q'
| reach_read q : reachable q -> reachable (snd (read q)).

(** Reads that slip in between the two halves of a write. *)
Fixpoint reads (n : nat) (q : pyqueue) : pyqueue :=
  match n with
  | O => q
  | S n' => reads n' (snd (read q))
  end.

(** What the monitor can be asked or made to do, in any order: a step of
    one of the threads, a call of [start], a call of [latest]. *)
Inductive monitor_op : Type :=
| OpStep (t : nat)
| OpStart
| OpLatest.

(** The results of the [latest] calls of a sequence of operations. *)
Fixpoint run_ops (h : host) (ops : list monitor_op) (m : monitor)
  (ths : list thread) : list (option groupdict * string) :=
  match ops with
  | [] => []
  | OpStep t :: ops' =>
      let (m', ths') := step_thread h t m ths in run_ops h ops' m' ths'
  | OpStart :: ops' =>
      let (m', ths') := start m ths in run_ops h ops' m' ths'
  | OpLatest :: ops' =>
      let (r, m') := latest m in r :: run_ops h ops' m' ths
  end.

(** No thread is inside the reading loop. *)
Definition idle (t : thread) : bool :=
  match t with
  | Reading _ => false
  | _ => true
  end.

(** Nothing has been read from the tool: no sample, no raw line. *)
Definition blank (m : monitor) : bool :=
  (List.length (_queue m) =? 0)%nat && String.eqb (_last_raw m) "".

End Monitor.


(** ** The process state the video side works on *)

(** One successful [cap.read()] and what the clock, the predictor and the
    scheduler do while the loop handles it. *)
Record frame : Type := {
  pixels : nat;                (* the image *)
  arrival : Q;                 (* time.time() at [now = time.time()] *)
  t0 : Q;                      (* time.time() at [t0 = time.time()] *)
  t1 : Q;                      (* time.time() at [dt = time.time() - t0] *)
  prediction : option nat;     (* predict_annotated(frame): the annotated
                                  image, or None when it raises *)
  sched : list nat             (* threads that get a step while the loop is
                                  busy with this frame, before it renders *)
}.

Inductive source : Type :=
| File (path : string)         (* cv2.VideoCapture(path) *)
| Device (index : Z)           (* cv2.VideoCapture(index) *)
| Url (url : string).          (* cv2.VideoCapture(url, cv2.CAP_FFMPEG) *)

(** A [cv2.VideoCapture] object. *)
Record capture : Type := {
  cap_source : source;
  cap_opened : bool;           (* isOpened() *)
  cap_frames : list frame;     (* what read() has still to deliver *)
  cap_set_ok : bool;           (* whether set(prop, value) returns or raises *)
  cap_buffersize : option Z    (* CAP_PROP_BUFFERSIZE once set *)
}.

(** What OpenCV finds: whether a source opens (given the earlier attempts),
    the frames it will deliver, and whether the capture accepts [set]. *)
Record cv2 : Type := {
  cv_open : list source -> source -> option (list frame);
  cv_set_ok : source -> bool
}.

(** [st.session_state], the two keys of the UDP route. *)
Record session : Type := {
  udp_running : bool;
  udp_cap : option nat
}.

Record world : Type := {
  caps : list capture;                  (* VideoCapture objects; a handle is
                                           its index here *)
  attempts : list source;               (* sources asked for, oldest first *)
  monitor_cache : option Monitor.monitor;  (* st.cache_resource of
                                              get_metrics_monitor *)
  threads : list Monitor.thread;
  session_state : session
}.

Definition set_caps (c : list capture) (w : world) : world :=
  {| caps := c; attempts := attempts w; monitor_cache := monitor_cache w;
     threads := threads w; session_state := session_state w |}.
Definition set_attempts (a : list source) (w : world) : world :=
  {| caps := caps w; attempts := a; monitor_cache := monitor_cache w;
     threads := threads w; session_state := session_state w |}.
Definition set_monitor (m : option Monitor.monitor) (ths : list Monitor.thread)
  (w : world) : world :=
  {| caps := caps w; attempts := attempts w; monitor_cache := m;
     threads := ths; session_state := session_state w |}.
Definition set_session (s : session) (w : world) : world :=
  {| caps := caps w; attempts := attempts w; monitor_cache := monitor_cache w;
     threads := threads w; session_state := s |}.

(** What the run shows and calls, oldest first. *)
Inductive event : Type :=
| Predict (f : frame)                 (* predictor.predict_annotated(frame, conf) *)
| FpsWrite (fps : Q)                  (* fps_placeholder.write(f"Pipeline FPS: {fps:.1f}") *)
| Image (annotated : nat)             (* stframe.image(...) *)
| Metric (label value : string)       (* cN.metric(label, value) *)
| StWrite (s : string)                (* st.write *)
| StCaption (s : string)              (* st.caption *)
| CudaInfo (s : string)               (* cuda_placeholder.info *)
| StInfo (s : string)
| StError (s : string)
| StSuccess (s : string).

(** State, exceptions and output: a computation changes the world, shows
    events and returns or raises. *)
Definition M (A : Type) : Type := world -> exn A * world * list event.

Definition ret {A} (a : A) : M A := fun w => (Ok a, w, []).
Definition raise {A} (e : exc) : M A := fun w => (Raise e, w, []).
Definition bind {A B} (m : M A) (k : A -> M B) : M B :=
  fun w =>
    match m w with
    | (Ok a, w1, ev1) =>
        match k a w1 with
        | (r, w2, ev2) => (r, w2, (ev1 ++ ev2)%list)
        end
    | (Raise e, w1, ev1) => (Raise e, w1, ev1)
    end.
Definition emit (e : event) : M unit := fun w => (Ok tt, w, [e]).
Definition get : M world := fun w => (Ok w, w, []).
Definition modify (f : world -> world) : M unit := fun w => (Ok tt, f w, []).
Definition lift {A} (r : exn A) : M A :=
  match r with
  | Ok a => ret a
  | Raise e => raise e
  end.
(** [try: m except Exception: pass] *)
Definition try_pass (m : M unit) : M unit :=
  fun w =>
    match m w with
    | (Raise _, w1, ev) => (Ok tt, w1, ev)
    | r => r
    end.

Declare Scope monad_scope.
Delimit Scope monad_scope with monad.
Notation "x <- c1 ;; c2" := (bind c1 (fun x => c2))
  (at level 61, c1 at next level, right associativity) : monad_scope.
Notation "c1 ;; c2" := (bind c1 (fun _ => c2))
  (at level 61, right associativity) : monad_scope.

(** ** VideoCapture and VideoReceiver *)
Module Receiver.
Local Open Scope monad_scope.
Local Open Scope string_scope.

(** [str(port)] *)
Definition str (n : Z) : string := DecimalString.NilZero.string_of_int (Z.to_int n).

(** ["udp://@:{port}".format(port=port)] *)
Definition FFMPEG_URL_BIND_ANY (port : Z) : string := "udp://@:" ++ str port.

(** The second template, formatted. *)
Definition FFMPEG_URL_BIND_ALL (port : Z) : string :=
  "udp://0.0.0.0:" ++ str port
  ++ "?fifo_size=100000&overrun_nonfatal=1&buffer_size=0&timeout=500000".

(** The capture at handle [h] replaced by [f] of it. *)
Fixpoint update_cap (h : nat) (f : capture -> capture) (l : list capture)
  : list capture :=
  match l, h with
  | [], _ => []
  | c :: l', O => f c :: l'
  | c :: l', S h' => c :: update_cap h' f l'
  end.

(** A device index is handed to OpenCV as a C [int]. *)
Definition c_int (i : Z) : bool := ((- 2 ^ 31 <=? i) && (i <? 2 ^ 31))%Z.

(** The arguments [cv2.VideoCapture] can convert. *)
Definition accepted (src : source) : bool :=
  match src with
  | Device index => c_int index
  | _ => true
  end.

Section WithBackend.
Variable cv : cv2.

(** The object [cv2.VideoCapture(src)] builds: open with its frames, or not
    open. *)
Definition new_capture (log : list source) (src : source) : capture :=
  match cv_open cv log src with
  | Some fs => {| cap_source := src; cap_opened := true; cap_frames := fs;
                  cap_set_ok := cv_set_ok cv src; cap_buffersize := None |}
  | None => {| cap_source := src; cap_opened := false; cap_frames := [];
               cap_set_ok := cv_set_ok cv src; cap_buffersize := None |}
  end.

(** [cv2.VideoCapture(src)]: the new object is stored and the attempt
    noted.  A device index that the binding cannot pass on as a C [int]
    makes the call raise [cv2.error], before anything is built. *)
Definition VideoCapture (src : source) : M nat :=
  if accepted src then
    w <- get ;;
    modify (fun w => set_attempts (attempts w ++ [src])
                       (set_caps (caps w ++ [new_capture (attempts w) src]) w)) ;;
    ret (List.length (caps w))
  else raise (Exception "cv2.error").

Definition isOpened (h : nat) : M bool :=
  w <- get ;;
  ret match nth_error (caps w) h with
      | Some c => cap_opened c
      | None => false
      end.

Definition with_buffersize (v : Z) (c : capture) : capture :=
  {| cap_source := cap_source c; cap_opened := cap_opened c;
     cap_frames := cap_frames c; cap_set_ok := cap_set_ok c;
     cap_buffersize := Some v |}.

(** [cap.set(cv2.CAP_PROP_BUFFERSIZE, v)] *)
Definition set_buffersize (h : nat) (v : Z) : M unit :=
  w <- get ;;
  match nth_error (caps w) h with
  | Some c =>
      if cap_set_ok c
      then modify (set_caps (update_cap h (with_buffersize v) (caps w)))
      else raise (Exception "cap.set")
  | None => raise (Exception "cap.set")
  end.

Definition released (c : capture) : capture :=
  {| cap_source := cap_source c; cap_opened := false;
     cap_frames := []; cap_set_ok := cap_set_ok c;
     cap_buffersize := cap_buffersize c |}.

(** [cap.release()] *)
Definition release (h : nat) : M unit :=
  modify (fun w => set_caps (update_cap h released (caps w)) w).

(** [open_file], [open_webcam]: [cap if cap.isOpened() else None] *)
Definition open_file (path : string) : M (option nat) :=
  cap <- VideoCapture (File path) ;;
  ok <- isOpened cap ;;
  ret (if ok then Some cap else None).

Definition open_webcam (index : Z) : M (option nat) :=
  cap <- VideoCapture (Device index) ;;
  ok <- isOpened cap ;;
  ret (if ok then Some cap else None).

Definition _set_low_buffer (cap : nat) : M unit :=
  try_pass (set_buffersize cap 1).

Definition open_udp_ffmpeg (port : Z) : M (option nat * option string) :=
  let url1 := FFMPEG_URL_BIND_ANY port in
  cap <- VideoCapture (Url url1) ;;
  ok <- isOpened cap ;;
  if ok then
    _set_low_buffer cap ;;
    ret (Some cap, Some url1)
  else
    let url2 := FFMPEG_URL_BIND_ALL port in
    cap <- VideoCapture (Url url2) ;;
    ok <- isOpened cap ;;
    if ok then
      _set_low_buffer cap ;;
      ret (Some cap, Some url2)
    else
      ret (None, None).

(** The world after [cv2.VideoCapture(src)]. *)
Definition opened_world (src : source) (w : world) : world :=
  set_attempts (attempts w ++ [src])
    (set_caps (caps w ++ [new_capture (attempts w) src]) w).

(** The world after [_set_low_buffer] on the capture just built. *)
Definition low_buffer_world (src : source) (w : world) : world :=
  let c := new_capture (attempts w) src in
  if cap_set_ok c
  then set_caps (caps w ++ [with_buffersize 1 c]) (opened_world src w)
  else opened_world src w.

End WithBackend.

(** Whether the capture at a handle is open, if there is one. *)
Definition opened_at (w : world) (i : nat) : option bool :=
  option_map cap_opened (nth_error (caps w) i).

(** The URLs [open_udp_ffmpeg] tries for a port, in order. *)
Definition candidates (port : Z) : list source :=
  [Url (FFMPEG_URL_BIND_ANY port); Url (FFMPEG_URL_BIND_ALL port)].


Definition empty_world : world :=
  {| caps := []; attempts := []; monitor_cache := None; threads := [];
     session_state := {| udp_running := false; udp_cap := None |} |}.

End Receiver.

(** The parts of what a computation gives at a world. *)
Definition result_of {A} (r : exn A * world * list event) : exn A := fst (fst r).
Definition world_of {A} (r : exn A * world * list event) : world := snd (fst r).
Definition events_of {A} (r : exn A * world * list event) : list event := snd r.
(** Result and world, whatever was shown. *)
Definition outcome {A} (r : exn A * world * list event) : exn A * world := fst r.

(** ** InferenceLoop *)
Module Loop.
Import Monitor Receiver.
Local Open Scope monad_scope.
Local Open Scope string_scope.
Local Open Scope Q_scope.

(** Division for the throughput figure, exact: [ZeroDivisionError] on a
    zero divisor. *)
Definition fdiv (a b : Q) : exn Q :=
  if Qeq_bool b 0 then Raise ZeroDivisionError else Ok (a / b).

(** [a < b] on rationals *)
Definition Qltb (a b : Q) : bool := negb (Qle_bool b a).

(** [DeviceInfo]: the cached probe and the line [cuda_memory_summary]
    formats from the allocator's counters. *)
Record DeviceInfo : Type := {
  is_gpu : bool;
  torch : bool;                 (* self.torch is not None *)
  memory_line : string
}.

Definition cuda_memory_summary (d : DeviceInfo) : option string :=
  if negb (is_gpu d) || negb (torch d) then None else Some (memory_line d).

(** The fields of [InferenceLoop] and the arguments of [run]. *)
Record config : Type := {
  device : DeviceInfo;
  metrics : bool;               (* self.metrics is not None *)
  conf : Q;
  max_fps : Z;
  show_cuda_mem : bool
}.

Record loop_state : Type := {
  last_emit : Q;
  frame_count : Z
}.

(** [data.get(key, '?')] *)
Fixpoint dict_get (key : string) (d : Re.groupdict) : string :=
  match d with
  | [] => "?"
  | (k, v) :: d' => if String.eqb k key then v else dict_get key d'
  end.

Definition degree : string := String (ascii_of_nat 176) "".
Definition waiting_text : string := "Waiting for tegrastats...".

Section WithHost.
Variable h : host.
Variable cfg : config.

(** Steps of the reader threads, which run beside the loop. *)
Definition background (ts : list nat) : M unit :=
  modify (fun w =>
    match monitor_cache w with
    | Some m => let (m', ths') := schedule h ts m (threads w) in
                set_monitor (Some m') ths' w
    | None => w
    end).

(** [self.metrics.latest()] on the cached monitor *)
Definition metrics_latest : M (option Re.groupdict * string) :=
  w <- get ;;
  match monitor_cache w with
  | Some m =>
      let (r, m') := latest m in
      modify (set_monitor (Some m') (threads w)) ;;
      ret r
  | None => ret (None, "")
  end.

Definition _render_metrics : M unit :=
  r <- (if metrics cfg then metrics_latest else ret (None, "")) ;;
  let (data, last_raw) := r in
  match data with
  | Some ((_ :: _) as d) =>
      emit (Metric "GPU Util" (dict_get "gr3d_pct" d ++ "%")) ;;
      emit (Metric "GPU Clock" (dict_get "gr3d_mhz" d ++ " MHz")) ;;
      emit (Metric "RAM Used"
              (dict_get "ram_used" d ++ "/" ++ dict_get "ram_total" d ++ " MB")) ;;
      emit (Metric "EMC"
              (dict_get "emc_pct" d ++ "% @ " ++ dict_get "emc_mhz" d ++ " MHz")) ;;
      emit (Metric "GPU Temp" (dict_get "gpu_temp" d ++ " " ++ degree ++ "C"))
  | _ =>
      if negb (String.eqb last_raw "")
      then emit (StWrite ("tegrastats (raw): " ++ last_raw))
      else emit (StCaption waiting_text)
  end ;;
  if show_cuda_mem cfg then
    match cuda_memory_summary (device cfg) with
    | Some summary =>
        if negb (String.eqb summary "") then emit (CudaInfo summary) else ret tt
    | None => ret tt
    end
  else ret tt.

(** [predictor.predict_annotated(frame, conf=conf)] *)
Definition predict_annotated (f : frame) : M nat :=
  emit (Predict f) ;;
  match prediction f with
  | Some a => ret a
  | None => raise (Exception "predict")
  end.

Definition advanced (c : capture) : capture :=
  {| cap_source := cap_source c; cap_opened := cap_opened c;
     cap_frames := tl (cap_frames c); cap_set_ok := cap_set_ok c;
     cap_buffersize := cap_buffersize c |}.

(** [cap.read()] returned this frame: the capture moves on. *)
Definition advance (cap : nat) : M unit :=
  modify (fun w => set_caps (update_cap cap advanced (caps w)) w).

(** The world once [cap.read()] has delivered [f] and the threads have had
    their steps. *)
Definition read_world (cap : nat) (f : frame) (w : world) : world :=
  world_of ((advance cap ;; background (sched f))%monad w).

(** [1.0 / max(max_fps, 1)]: the [int] is converted, then divided by. *)
Definition throttle_interval : exn Float.float :=
  match Float.of_int (Z.max (max_fps cfg) 1) with
  | Ok divisor => Float.div 1 divisor
  | Raise e => Raise e
  end.

(** The body of [while True] after a successful read of [f]. *)
Definition iteration (cap : nat) (f : frame) (st : loop_state) : M loop_state :=
  advance cap ;;
  background (sched f) ;;
  let now := arrival f in
  interval <- lift throttle_interval ;;
  if Float.lt (Float.sub now (last_emit st)) interval then
    ret st                                                (* continue *)
  else
    let last_emit' := now in
    annotated <- predict_annotated f ;;
    let dt := t1 f - t0 f in
    let frame_count' := (frame_count st + 1)%Z in
    (if (frame_count' mod 5 =? 0)%Z then
       fps <- lift (fdiv 1 (Qmax dt (1 # 1000000))) ;;
       emit (FpsWrite fps)
     else ret tt) ;;
    emit (Image annotated) ;;
    _render_metrics ;;
    ret {| last_emit := last_emit'; frame_count := frame_count' |}.

(** The loop over the frames the capture has to deliver; when they are
    used up [cap.read()] gives [ok = False] and the loop breaks. *)
Fixpoint frames_loop (cap : nat) (frames : list frame) (st : loop_state)
  : M loop_state :=
  match frames with
  | [] => ret st
  | f :: rest =>
      st' <- iteration cap f st ;;
      frames_loop cap rest st'
  end.

(** The frames [cap.read()] will deliver: none from a released capture. *)
Definition pending (cap : nat) (w : world) : list frame :=
  match nth_error (caps w) cap with
  | Some c => if cap_opened c then cap_frames c else []
  | None => []
  end.

Definition initial_state : loop_state := {| last_emit := 0; frame_count := 0 |}.

Definition run (cap : nat) : M unit :=
  try_pass (set_buffersize cap 1) ;;
  w <- get ;;
  frames_loop cap (pending cap w) initial_state ;;
  ret tt.

End WithHost.
(** The world after [run]'s [cap.set(cv2.CAP_PROP_BUFFERSIZE, 1)] under
    [try]/[except]. *)
Definition buffered_world (cap : nat) (w : world) : world :=
  world_of (try_pass (set_buffersize cap 1) w).

(** *** Reading a run off its events *)

(** The frames inference was called on, in order. *)
Fixpoint predicted (evs : list event) : list frame :=
  match evs with
  | [] => []
  | Predict f :: evs' => f :: predicted evs'
  | _ :: evs' => predicted evs'
  end.

(** The throughput figures written before the next inference call. *)
Fixpoint fps_before_next (evs : list event) : list Q :=
  match evs with
  | [] => []
  | Predict _ :: _ => []
  | FpsWrite q :: evs' => q :: fps_before_next evs'
  | _ :: evs' => fps_before_next evs'
  end.

(** Each frame inference was called on, with the throughput figures written
    while the loop handled it. *)
Fixpoint reports_by_frame (evs : list event) : list (frame * list Q) :=
  match evs with
  | [] => []
  | Predict f :: evs' => (f, fps_before_next evs') :: reports_by_frame evs'
  | _ :: evs' => reports_by_frame evs'
  end.

(** What [_render_metrics] may show. *)
Definition is_display (e : event) : bool :=
  match e with
  | Metric _ _ | StWrite _ | StCaption _ | CudaInfo _ => true
  | _ => false
  end.

(** The telemetry part of what is shown: metrics, raw line or placeholder. *)
Definition is_telemetry (e : event) : bool :=
  match e with
  | Metric _ _ | StWrite _ | StCaption _ => true
  | _ => false
  end.
Definition telemetry (evs : list event) : list event := filter is_telemetry evs.

Definition is_image (e : event) : bool :=
  match e with
  | Image _ => true
  | _ => false
  end.
Definition images (evs : list event) : nat := List.length (filter is_image evs).

(** No sample or raw line has been read and no thread is reading. *)
Definition silent (w : world) : bool :=
  match monitor_cache w with
  | Some m => blank m
  | None => true
  end && forallb idle (threads w).





(** The measured duration of the inference call on a frame. *)
Definition duration (f : frame) : Q := t1 f - t0 f.

(** The throughput event of the frame that brings the count to [n]. *)
Definition fps_events (n : Z) (f : frame) : list event :=
  if (n mod 5 =? 0)%Z then [FpsWrite (1 / Qmax (duration f) (1 # 1000000))] else [].

(** The throughput figures of such a frame. *)
Definition fps_values (n : Z) (f : frame) : list Q :=
  if (n mod 5 =? 0)%Z then [1 / Qmax (duration f) (1 # 1000000)] else [].

(** The state after a frame was emitted. *)
Definition emitted_state (f : frame) (st : loop_state) : loop_state :=
  {| last_emit := arrival f; frame_count := (frame_count st + 1)%Z |}.

End Loop.

(** ** main: the monitor singleton and the routes *)
Module Main.
Import Monitor Receiver Loop.
Local Open Scope monad_scope.
Local Open Scope string_scope.

Section WithMachine.
Variable h : host.
Variable cv : cv2.
Variable cfg : config.

(** [get_metrics_monitor] under [st.cache_resource]: built and started on
    the first call, handed back as it is afterwards. *)
Definition get_metrics_monitor : M unit :=
  w <- get ;;
  match monitor_cache w with
  | Some _ => ret tt
  | None =>
      let (m, ths) := start init (threads w) in
      modify (set_monitor (Some m) ths)
  end.

(** The three routes that open, run and release:
      cap = receiver.open_...(...)
      if cap is None: st.error(...); return
      loop.run(cap, ...); cap.release(); st.success("Finished.") *)
Definition run_and_release (opened : option nat) (error : string) : M unit :=
  match opened with
  | None => emit (StError error)
  | Some cap =>
      run h cfg cap ;;
      release cap ;;
      emit (StSuccess "Finished.")
  end.

Definition route_file (choice : string) : M unit :=
  cap <- open_file cv choice ;;
  run_and_release cap ("Cannot open: " ++ choice).

Definition route_webcam : M unit :=
  cap <- open_webcam cv 0 ;;
  run_and_release cap "Webcam cannot be opened.".

Definition set_udp_running (b : bool) : M unit :=
  modify (fun w => set_session
    {| udp_running := b; udp_cap := udp_cap (session_state w) |} w).
Definition set_udp_cap (c : option nat) : M unit :=
  modify (fun w => set_session
    {| udp_running := udp_running (session_state w); udp_cap := c |} w).

(** [if stop_clicked and st.session_state["udp_running"]: ...] *)
Definition udp_stop (stop_clicked : bool) : M unit :=
  w <- get ;;
  if stop_clicked && udp_running (session_state w) then
    match udp_cap (session_state w) with
    | Some cap =>
        ok <- isOpened cap ;;
        (if ok then release cap else ret tt)
    | None => ret tt
    end ;;
    set_udp_running false ;;
    emit (StSuccess "UDP stream stopped.")
  else ret tt.

(** The UDP route of one script run, from the two buttons on. *)
Definition route_udp (udp_port : Z) (start_clicked stop_clicked : bool) : M unit :=
  w <- get ;;
  if start_clicked && negb (udp_running (session_state w)) then
    r <- open_udp_ffmpeg cv udp_port ;;
    match r with
    | (None, _) =>
        emit (StError "Cannot open UDP stream. Verify sender IP/port, host networking or port mapping, and try a different port.")
        (* return *)
    | (Some cap, used_url) =>
        emit (StInfo ("UDP opened via FFmpeg URL: "
                      ++ match used_url with Some u => u | None => "None" end)) ;;
        set_udp_cap (Some cap) ;;
        set_udp_running true ;;
        run h cfg cap ;;
        release cap ;;
        set_udp_running false ;;
        emit (StSuccess "UDP stream finished.") ;;
        udp_stop stop_clicked
    end
  else udp_stop stop_clicked.

End WithMachine.
(** *** A machine and a source for examples *)

(** No tegrastats anywhere. *)
Definition no_tool : host :=
  {| which := fun _ => None;
     path_exists := fun _ => false;
     popen := fun _ => Raise (Exception "FileNotFoundError") |}.

(** Frame [i] arrives [i] eighths of a second after time 1000; inference
    on it takes [d] seconds and succeeds unless [i] is [bad]. *)
Definition demo_frame (d : Q) (bad : nat) (i : nat) : frame :=
  {| pixels := i;
     arrival := 1000 + inject_Z (Z.of_nat i) / 8;
     t0 := 1000 + inject_Z (Z.of_nat i) / 8;
     t1 := 1000 + inject_Z (Z.of_nat i) / 8 + d;
     prediction := if (i =? bad)%nat then None else Some i;
     sched := [0%nat] |}.

(** A world whose capture 0 is an open file with [n] such frames, with the
    monitor built and started. *)
Definition demo_world (d : Q) (bad n : nat) : world :=
  {| caps := [ {| cap_source := File "/videos/demo.mp4"; cap_opened := true;
                  cap_frames := map (demo_frame d bad) (seq 0 n);
                  cap_set_ok := true; cap_buffersize := None |} ];
     attempts := [File "/videos/demo.mp4"];
     monitor_cache := Some (fst (start init []));
     threads := snd (start init []);
     session_state := {| udp_running := false; udp_cap := None |} |}.

(** Every source opens and delivers [n] such frames. *)
Definition demo_cv (d : Q) (bad n : nat) : cv2 :=
  {| cv_open := fun _ _ => Some (map (demo_frame d bad) (seq 0 n));
     cv_set_ok := fun _ => true |}.

Definition demo_config (fps : Z) : config :=
  {| device := {| is_gpu := false; torch := true; memory_line := "" |};
     metrics := true; conf := 1 # 4; max_fps := fps; show_cuda_mem := true |}.

(** The float nearest to a third of a second. *)
Definition third : Q := (6004799503160661 # 18014398509481984)%Q.

(** A clock that has just been started: two frames, read at [third] and at
    twice that. *)
Definition early_frame (i : nat) : frame :=
  {| pixels := i;
     arrival := (inject_Z (Z.of_nat (S i)) * third)%Q;
     t0 := (inject_Z (Z.of_nat (S i)) * third)%Q;
     t1 := (inject_Z (Z.of_nat (S i)) * third + (1 # 100))%Q;
     prediction := Some i;
     sched := [] |}.

Definition early_world : world :=
  {| caps := [ {| cap_source := Device 0; cap_opened := true;
                  cap_frames := [early_frame 0; early_frame 1];
                  cap_set_ok := true; cap_buffersize := None |} ];
     attempts := [Device 0];
     monitor_cache := None;
     threads := [];
     session_state := {| udp_running := false; udp_cap := None |} |}.

End Main.

(** ** Further vocabulary for the properties beyond the claims *)
Module More.
Import Re Tegra Format Monitor Receiver Loop.
Local Open Scope string_scope.

(** The groups of a regex with what each one spans, in pattern order. *)
Fixpoint groups_of (r : regex) : list (string * regex) :=
  match r with
  | RGroup n r' => (groups_of r' ++ [(n, r')])%list
  | RSeq r1 r2 => (groups_of r1 ++ groups_of r2)%list
  | _ => []
  end.

(** A field of the sample is a text of the language of its group. *)
Definition captures (kv : string * string) (nr : string * regex) : Prop :=
  fst kv = fst nr /\ lang (snd nr) (chars (snd kv)).

(** One or more decimal digits; one or more digits or dots. *)
Definition digits (s : string) : Prop := some is_digit (chars s).
Definition digits_or_dots (s : string) : Prop := some temp_char (chars s).

(** The sample of the last line that parses, [acc] when none does. *)
Fixpoint last_sample (lines : list string) (acc : option groupdict)
  : option groupdict :=
  match lines with
  | [] => acc
  | line :: rest =>
      last_sample rest match parse_line line with
                       | Some d => Some d
                       | None => acc
                       end
  end.

(** The raw line kept after reading [lines]. *)
Definition last_raw_after (lines : list string) (before : string) : string :=
  match rev lines with
  | [] => before
  | line :: _ => strip line
  end.

(** A machine with the tool at [/usr/bin/tegrastats] printing [lines]. *)
Definition tool_prints (lines : list string) : host :=
  {| which := fun _ => None;
     path_exists := fun p => String.eqb p "/usr/bin/tegrastats";
     popen := fun _ => Ok lines |}.

(** *** What [_render_metrics] shows *)

(** The five metric cells of a sample. *)
Definition metric_events (d : groupdict) : list event :=
  [Metric "GPU Util" (dict_get "gr3d_pct" d ++ "%");
   Metric "GPU Clock" (dict_get "gr3d_mhz" d ++ " MHz");
   Metric "RAM Used" (dict_get "ram_used" d ++ "/" ++ dict_get "ram_total" d ++ " MB");
   Metric "EMC" (dict_get "emc_pct" d ++ "% @ " ++ dict_get "emc_mhz" d ++ " MHz");
   Metric "GPU Temp" (dict_get "gpu_temp" d ++ " " ++ degree ++ "C")].

(** Without a sample: the raw line if there is one, else the placeholder. *)
Definition fallback_events (last_raw : string) : list event :=
  if String.eqb last_raw ""
  then [StCaption waiting_text]
  else [StWrite ("tegrastats (raw): " ++ last_raw)].

(** The monitor the loop reads, if it reads one. *)
Definition monitor_read (cfg : config) (w : world) : option monitor :=
  if metrics cfg then monitor_cache w else None.

Definition telemetry_shown (cfg : config) (w : world) : list event :=
  match monitor_read cfg w with
  | Some m =>
      match _queue m with
      | ((_ :: _) as d) :: _ => metric_events d
      | _ => fallback_events (_last_raw m)
      end
  | None => [StCaption waiting_text]
  end.

Definition cuda_shown (cfg : config) : list event :=
  if show_cuda_mem cfg && is_gpu (device cfg) && torch (device cfg)
     && negb (String.eqb (memory_line (device cfg)) "")
  then [CudaInfo (memory_line (device cfg))]
  else [].

(** The world after a render: the monitor read has lost its oldest item. *)
Definition rendered_world (cfg : config) (w : world) : world :=
  match monitor_read cfg w with
  | Some m => set_monitor (Some (set_queue (tl (_queue m)) m)) (threads w) w
  | None => w
  end.

Definition is_cuda (e : event) : bool :=
  match e with
  | CudaInfo _ => true
  | _ => false
  end.

(** *** Reading more off a run *)

(** The annotated images shown, in order. *)
Fixpoint shown (evs : list event) : list nat :=
  match evs with
  | [] => []
  | Image a :: evs' => a :: shown evs'
  | _ :: evs' => shown evs'
  end.

(** What inference returned for the frames it was called on. *)
Definition returned (fs : list frame) : list nat :=
  flat_map (fun f => match prediction f with
                     | Some a => [a]
                     | None => []
                     end) fs.

(** Nothing opens on this machine. *)
Definition never_opens : cv2 :=
  {| cv_open := fun _ _ => None; cv_set_ok := fun _ => true |}.

(** *** The monitor over time *)

(** The monitor and the threads after a sequence of operations. *)
Fixpoint exec_ops (h : host) (ops : list monitor_op) (m : monitor)
  (ths : list thread) : monitor * list thread :=
  match ops with
  | [] => (m, ths)
  | OpStep t :: ops' =>
      let (m', ths') := step_thread h t m ths in exec_ops h ops' m' ths'
  | OpStart :: ops' =>
      let (m', ths') := start m ths in exec_ops h ops' m' ths'
  | OpLatest :: ops' => exec_ops h ops' (snd (latest m)) ths
  end.

(** Every thread that is alive is the one the monitor holds. *)
Definition alive_is_held (m : monitor) (ths : list thread) : Prop :=
  forall t, is_alive ths t = true -> _thread m = Some t.

End More.

(** ** list_videos_under *)
Module Videos.
Import Re.
Local Open Scope string_scope.

(** [str.lower()] on code points below 256: A-Z and the Latin-1 capitals
    (all of 192..222 but the multiplication sign) move up by 32. *)
Definition py_lower (c : ascii) : ascii :=
  let n := code c in
  if (((65 <=? n) && (n <=? 90))
      || ((192 <=? n) && (n <=? 222) && negb (n =? 215)))%nat
  then ascii_of_nat (n + 32)%nat else c.

Definition str_lower (s : string) : string := text (map py_lower (chars s)).

(** [l] begins with [pre]. *)
Fixpoint starts_with (pre l : list ascii) : bool :=
  match pre, l with
  | [], _ => true
  | a :: pre', b :: l' => Ascii.eqb a b && starts_with pre' l'
  | _ :: _, [] => false
  end.

(** [s.endswith(suffix)] *)
Definition endswith (s suffix : string) : bool :=
  starts_with (rev (chars suffix)) (rev (chars s)).

Definition exts : list string := [".mp4"; ".mov"; ".avi"; ".mkv"].

(** [p.lower().endswith(exts)], with the tuple of suffixes. *)
Definition is_video (p : string) : bool := existsb (endswith (str_lower p)) exts.

(** [sorted] on strings: ascending by code points, written as an
    insertion sort (the order is total and equal strings are the same
    string, so every sort gives this list). *)
Fixpoint insert (x : string) (l : list string) : list string :=
  match l with
  | [] => [x]
  | y :: l' => if String.leb x y then x :: l else y :: insert x l'
  end.

Fixpoint sorted (l : list string) : list string :=
  match l with
  | [] => []
  | x :: l' => insert x (sorted l')
  end.

(** [list_videos_under], on what [glob.glob(os.path.join(path, "*"))]
    returns. *)
Definition list_videos_under (listing : list string) : list string :=
  sorted (filter is_video listing).

(** The order of Python's [<=] on [str]: by code points, a proper prefix
    first. *)
Definition ascending (a b : string) : Prop := String.leb a b = true.

End Videos.

(** * Proofs *)

Unset Implicit Arguments.
Import Re Tegra Format Monitor Receiver Loop Main More Videos.

(** ** Text *)

Lemma chars_text l : chars (text l) = l.
Proof. apply list_ascii_of_string_of_list_ascii. Qed.

Lemma text_chars s : text (chars s) = s.
Proof. apply string_of_list_ascii_of_string. Qed.

Lemma text_nonempty w : w <> [] -> text w <> EmptyString.
Proof. destruct w; [congruence | discriminate]. Qed.

Lemma firstn_consumed (w s : list ascii) :
  firstn (List.length (w ++ s) - List.length s) (w ++ s) = w.
Proof.
  rewrite List.length_app, Nat.add_sub.
  induction w; simpl; [now destruct s | now rewrite IHw].
Qed.

(** ** The backtracking search against the language of the regex *)
Section ReFacts.
Import Re.

Variable A : Type.

Lemma rep_greedy_sound k (s : list ascii) : forall min (cont : list ascii -> option A) res,
  rep_greedy k min s cont = Some res ->
  exists w s', s = (w ++ s')%list /\ (min <= List.length w)%nat
               /\ forallb (cmatch k) w = true /\ cont s' = Some res.
Proof.
  induction s as [|c s IH]; intros min cont res H; simpl in H.
  - destruct (Nat.eqb_spec min 0); [|discriminate].
    exists [], []. simpl. repeat split; [lia | assumption].
  - assert (Hstop : (if (min =? 0)%nat then cont (c :: s) else None) = Some res ->
                    exists w s', c :: s = (w ++ s')%list /\ (min <= List.length w)%nat
                                 /\ forallb (cmatch k) w = true /\ cont s' = Some res).
    { destruct (Nat.eqb_spec min 0); [|discriminate]. intros Hc.
      exists [], (c :: s). simpl. repeat split; [lia | assumption]. }
    destruct (cmatch k c) eqn:Hk; [|auto].
    destruct (rep_greedy k (pred min) s cont) as [r|] eqn:Hr; [|auto].
    inversion H; subst r.
    destruct (IH _ _ _ Hr) as (w & s' & -> & Hlen & Hall & Hc).
    exists (c :: w), s'. simpl. rewrite Hk, Hall. repeat split; [lia | assumption].
Qed.

Lemma rep_lazy_sound k (s : list ascii) : forall min (cont : list ascii -> option A) res,
  rep_lazy k min s cont = Some res ->
  exists w s', s = (w ++ s')%list /\ (min <= List.length w)%nat
               /\ forallb (cmatch k) w = true /\ cont s' = Some res.
Proof.
  induction s as [|c s IH]; intros min cont res H; simpl in H.
  - destruct (Nat.eqb_spec min 0); [|discriminate].
    destruct (cont []) eqn:Hc; [|discriminate]. inversion H; subst.
    exists [], []. simpl. repeat split; [lia | assumption].
  - destruct (if (min =? 0)%nat then cont (c :: s) else None) as [r|] eqn:Hstop.
    + inversion H; subst r.
      destruct (Nat.eqb_spec min 0); [|discriminate].
      exists [], (c :: s). simpl. repeat split; [lia | assumption].
    + destruct (cmatch k c) eqn:Hk; [|discriminate].
      destruct (IH _ _ _ H) as (w & s' & -> & Hlen & Hall & Hc).
      exists (c :: w), s'. simpl. rewrite Hk, Hall. repeat split; [lia | assumption].
Qed.

Lemma rep_greedy_complete k (w s' : list ascii) : forall min (cont : list ascii -> option A),
  (min <= List.length w)%nat -> forallb (cmatch k) w = true ->
  (exists res, cont s' = Some res) ->
  exists res, rep_greedy k min (w ++ s') cont = Some res.
Proof.
  induction w as [|c w IH]; intros min cont Hlen Hall Hc; simpl in *.
  - assert (min = 0)%nat by lia. subst min.
    destruct s' as [|c s']; simpl; [assumption|].
    destruct (cmatch k c); [|assumption].
    destruct (rep_greedy k 0 s' cont); [eauto | assumption].
  - apply andb_true_iff in Hall as [Hk Hall]. rewrite Hk.
    destruct (IH (pred min) cont) as [res Hres]; [lia | assumption | assumption |].
    rewrite Hres. eauto.
Qed.

Lemma rep_lazy_complete k (w s' : list ascii) : forall min (cont : list ascii -> option A),
  (min <= List.length w)%nat -> forallb (cmatch k) w = true ->
  (exists res, cont s' = Some res) ->
  exists res, rep_lazy k min (w ++ s') cont = Some res.
Proof.
  induction w as [|c w IH]; intros min cont Hlen Hall Hc; simpl in *.
  - assert (min = 0)%nat by lia. subst min.
    destruct Hc as [res Hc].
    destruct s' as [|c s']; simpl; rewrite Hc; eauto.
  - apply andb_true_iff in Hall as [Hk Hall].
    destruct (if (min =? 0)%nat then cont (c :: w ++ s')%list else None); [eauto|].
    rewrite Hk. apply IH; [lia | assumption | assumption].
Qed.

Lemma lang_min_len r : forall w, lang r w -> (min_len r <= List.length w)%nat.
Proof.
  induction r; simpl; intros w H.
  - subst; simpl; lia.
  - destruct H as (c & -> & _). simpl; lia.
  - tauto.
  - auto.
  - destruct H as (w1 & w2 & -> & H1 & H2).
    rewrite List.length_app. specialize (IHr1 _ H1). specialize (IHr2 _ H2). lia.
Qed.

(** A successful run of [bt] consumed a word of the regex, handed the rest
    to its continuation, and recorded every group of the regex once. *)
Lemma bt_sound r : forall s g (cont : list ascii -> groupdict -> option A) res,
  bt r s g cont = Some res ->
  exists w s' caps,
    s = (w ++ s')%list /\ lang r w /\ cont s' (g ++ caps)%list = Some res
    /\ map fst caps = group_names r
    /\ (groups_nonempty r = true -> Forall (fun kv => snd kv <> EmptyString) caps).
Proof.
  induction r as [|k|k min lazy|name r IH|r1 IH1 r2 IH2]; intros s g cont res H; simpl in H.
  - exists [], s, []. rewrite app_nil_r. simpl. auto.
  - destruct s as [|c s]; [discriminate|].
    destruct (cmatch k c) eqn:Hk; [|discriminate].
    exists [c], s, []. rewrite app_nil_r. simpl. eauto 8.
  - assert (exists w s', s = (w ++ s')%list /\ (min <= List.length w)%nat
               /\ forallb (cmatch k) w = true /\ cont s' g = Some res) as (w & s' & ? & ? & ? & ?).
    { destruct lazy; [apply rep_lazy_sound in H | apply rep_greedy_sound in H]; exact H. }
    exists w, s', []. rewrite app_nil_r. simpl. auto.
  - apply IH in H as (w & s' & caps & -> & Hw & Hc & Hn & Hne).
    rewrite firstn_consumed in Hc.
    exists w, s', (caps ++ [(name, text w)])%list.
    rewrite app_assoc, map_app, Hn. simpl. repeat split; auto.
    intros Hg. apply andb_true_iff in Hg as [Hpos Hg].
    apply Forall_app; split; [auto|].
    constructor; [|constructor]. simpl.
    apply text_nonempty. apply lang_min_len in Hw.
    apply Nat.ltb_lt in Hpos. destruct w; simpl in *; [lia | discriminate].
  - apply IH1 in H as (w1 & s1 & caps1 & -> & Hw1 & Hc1 & Hn1 & Hne1).
    apply IH2 in Hc1 as (w2 & s2 & caps2 & -> & Hw2 & Hc2 & Hn2 & Hne2).
    exists (w1 ++ w2)%list, s2, (caps1 ++ caps2)%list.
    rewrite <- app_assoc in Hc2.
    split; [now rewrite app_assoc|].
    split; [simpl; eauto|].
    split; [exact Hc2|].
    split; [now rewrite map_app, Hn1, Hn2|].
    simpl. intros Hg. apply andb_true_iff in Hg as [? ?]. apply Forall_app; auto.
Qed.

(** Whenever a word of the regex is followed by a rest the continuation
    accepts, [bt] succeeds (possibly on another split). *)
Lemma bt_complete r : forall w s' g (cont : list ascii -> groupdict -> option A),
  lang r w ->
  (forall g', exists res, cont s' g' = Some res) ->
  exists res, bt r (w ++ s') g cont = Some res.
Proof.
  induction r as [|k|k min lazy|name r IH|r1 IH1 r2 IH2]; intros w s' g cont Hw Hc; simpl in *.
  - subst w. apply Hc.
  - destruct Hw as (c & -> & Hk). simpl. rewrite Hk. apply Hc.
  - destruct Hw as [Hlen Hall].
    destruct lazy; [apply rep_lazy_complete | apply rep_greedy_complete]; auto.
  - apply IH; [assumption|]. intros g'. apply Hc.
  - destruct Hw as (w1 & w2 & -> & H1 & H2).
    rewrite <- app_assoc. apply IH1; [assumption|].
    intros g'. apply IH2; assumption.
Qed.

End ReFacts.

Section SearchFacts.
Import Re.

Lemma match_at_sound r s d :
  match_at r s = Some d ->
  exists w post, s = (w ++ post)%list /\ lang r w
    /\ map fst d = group_names r
    /\ (groups_nonempty r = true -> Forall (fun kv => snd kv <> EmptyString) d).
Proof.
  unfold match_at. intros H.
  apply bt_sound in H as (w & post & caps & -> & Hw & Hc & Hn & Hne).
  simpl in Hc. inversion Hc; subst d. eauto 8.
Qed.

Lemma search_chars_sound r s : forall d,
  search_chars r s = Some d ->
  exists pre w post, s = (pre ++ w ++ post)%list /\ lang r w
    /\ map fst d = group_names r
    /\ (groups_nonempty r = true -> Forall (fun kv => snd kv <> EmptyString) d).
Proof.
  induction s as [|c s IH]; intros d H; simpl in H.
  - destruct (match_at r []) eqn:Hm; [|discriminate]. inversion H; subst.
    apply match_at_sound in Hm as (w & post & ? & ? & ? & ?).
    exists [], w, post. auto.
  - destruct (match_at r (c :: s)) eqn:Hm.
    + inversion H; subst.
      apply match_at_sound in Hm as (w & post & ? & ? & ? & ?).
      exists [], w, post. auto.
    + apply IH in H as (pre & w & post & -> & ? & ? & ?).
      exists (c :: pre), w, post. auto.
Qed.

Lemma search_chars_complete r pre : forall w post,
  lang r w -> exists d, search_chars r (pre ++ w ++ post) = Some d.
Proof.
  induction pre as [|c pre IH]; intros w post Hw.
  - assert (exists d, match_at r (w ++ post) = Some d) as [d Hd].
    { unfold match_at. apply bt_complete; [assumption | eauto]. }
    exists d. simpl. destruct (w ++ post)%list; simpl; now rewrite Hd.
  - simpl. destruct (match_at r (c :: pre ++ w ++ post)); [eauto|]. now apply IH.
Qed.

End SearchFacts.

(** ** TEGRAPATTERN and the line format *)
Section TegraFacts.
Import Re Tegra Format.
Local Open Scope list_scope.

Lemma lang_seq_intro r1 r2 w1 w2 :
  lang r1 w1 -> lang r2 w2 -> lang (RSeq r1 r2) (w1 ++ w2).
Proof. intros H1 H2. simpl. eauto. Qed.

Lemma lang_lit_chars l : forall w,
  lang (lit_chars l) w <-> map lower w = map lower l.
Proof.
  induction l as [|c l IH]; intros w; simpl.
  - split; [now intros -> | now destruct w].
  - split.
    + intros (w1 & w2 & -> & (x & -> & Hx) & H2).
      apply IH in H2. apply Ascii.eqb_eq in Hx. simpl. now rewrite Hx, H2.
    + destruct w as [|x w]; [discriminate|]. simpl. intros H. inversion H.
      exists [x], w. repeat split; [|now apply IH].
      exists x. split; [reflexivity|]. apply Ascii.eqb_eq. congruence.
Qed.

Lemma lang_lit l w : lang (lit l) w <-> label l w.
Proof. apply lang_lit_chars. Qed.

Lemma forallb_pointwise (p q : ascii -> bool) (w : list ascii) :
  (forall c, p c = q c) -> forallb p w = forallb q w.
Proof. intros E. induction w; simpl; [reflexivity | now rewrite E, IHw]. Qed.

Lemma cmatch_separator c : cmatch under_or_space c = separator c.
Proof.
  destruct c as [[] [] [] [] [] [] [] []]; reflexivity.
Qed.

Lemma cmatch_temp c : cmatch digit_or_dot c = temp_char c.
Proof.
  destruct c as [[] [] [] [] [] [] [] []]; reflexivity.
Qed.

Lemma lang_some (k : cclass) (p : ascii -> bool) lazy w :
  (forall c, cmatch k c = p c) -> lang (RRep k 1 lazy) w <-> some p w.
Proof.
  intros E. unfold some. simpl. now rewrite (forallb_pointwise _ _ w E).
Qed.

Lemma lang_gap w : lang gap w <-> no_newline w.
Proof.
  unfold gap, no_newline. simpl. split; [tauto | intros; split; [lia | assumption]].
Qed.

Lemma lang_spaces w : lang spaces1 w <-> some is_space w.
Proof. apply lang_some. reflexivity. Qed.

Lemma lang_digits w : lang digits1 w <-> some is_digit w.
Proof. apply lang_some. reflexivity. Qed.

(** Hypotheses on the language of a piece, turned into the format's words. *)
Ltac to_format :=
  repeat match goal with
         | H : lang (RGroup _ ?r) ?w |- _ => change (lang r w) in H
         | H : lang (lit _) _ |- _ => apply lang_lit in H
         | H : lang spaces1 _ |- _ => apply lang_spaces in H
         | H : lang digits1 _ |- _ => apply lang_digits in H
         | H : lang gap _ |- _ => apply lang_gap in H
         end.

(** And back. *)
Ltac of_format :=
  repeat match goal with
         | H : label _ _ |- _ => apply lang_lit in H
         | H : some is_space _ |- _ => apply lang_spaces in H
         | H : some is_digit _ |- _ => apply lang_digits in H
         | H : no_newline _ |- _ => apply lang_gap in H
         end.

Ltac seq_intro := repeat (apply lang_seq_intro; [assumption|]); try assumption.

Lemma lang_ram w : lang pat_ram w <-> ram_field w.
Proof.
  unfold pat_ram, ram_field. split.
  - intros (a & w1 & -> & Ha & ws & w2 & -> & Hws & used & w3 & -> & Hu
            & b & w4 & -> & Hb & total & c & -> & Ht & Hc).
    to_format. exists a, ws, used, b, total, c. split; [reflexivity | tauto].
  - intros (a & ws & used & b & total & c & -> & Ha & Hws & Hu & Hb & Ht & Hc).
    of_format. seq_intro.
Qed.

Lemma lang_cpu w : lang pat_cpu w <-> cpu_field w.
Proof.
  unfold pat_cpu, cpu_field. split.
  - intros (a & w1 & -> & Ha & ws & w2 & -> & Hws & b & w3 & -> & Hb
            & cpu & c & -> & Hcpu & Hc).
    to_format. exists a, ws, b, cpu, c. split; [reflexivity | tauto].
  - intros (a & ws & b & cpu & c & -> & Ha & Hws & Hb & Hcpu & Hc).
    of_format. seq_intro.
Qed.

Lemma lang_freq name pct mhz w : lang (pat_freq name pct mhz) w <-> freq_field name w.
Proof.
  unfold pat_freq, freq_field. split.
  - intros (a & w1 & -> & Ha & s0 & w2 & -> & (s & -> & Hs) & b & w3 & -> & Hb
            & ws & w4 & -> & Hws & p & w5 & -> & Hp & c & m & -> & Hc & Hm).
    to_format. rewrite cmatch_separator in Hs.
    exists a, s, b, ws, p, c, m. split; [reflexivity | tauto].
  - intros (a & s & b & ws & p & c & m & -> & Ha & Hs & Hb & Hws & Hp & Hc & Hm).
    of_format. rewrite <- cmatch_separator in Hs.
    apply lang_seq_intro; [assumption|].
    apply lang_seq_intro; [simpl; eauto|].
    seq_intro.
Qed.

Lemma lang_gpu w : lang pat_gpu w <-> gpu_field w.
Proof.
  unfold pat_gpu, gpu_field. split.
  - intros (a & w1 & -> & Ha & t & c & -> & Ht & Hc).
    to_format. apply (lang_some digit_or_dot temp_char false t cmatch_temp) in Ht.
    exists a, t, c. split; [reflexivity | tauto].
  - intros (a & t & c & -> & Ha & Ht & Hc).
    of_format. apply (lang_some digit_or_dot temp_char false t cmatch_temp) in Ht.
    seq_intro.
Qed.

Lemma no_newline_app w1 w2 : no_newline (w1 ++ w2) <-> no_newline w1 /\ no_newline w2.
Proof. unfold no_newline. rewrite forallb_app. apply andb_true_iff. Qed.

Lemma lang_tegra w : lang TEGRAPATTERN w <-> sections w.
Proof.
  unfold TEGRAPATTERN, sections. split.
  - intros (ram & w1 & -> & Hram & g1 & w2 & -> & Hg1 & cpu & w3 & -> & Hcpu
            & g2 & w4 & -> & Hg2 & emc & w5 & -> & Hemc & g3 & w6 & -> & Hg3
            & gr3d & w7 & -> & Hgr3d & g4 & w8 & -> & Hg4 & g5 & gpu & -> & Hg5 & Hgpu).
    to_format.
    apply lang_ram in Hram. apply lang_cpu in Hcpu. apply lang_freq in Hemc, Hgr3d.
    apply lang_gpu in Hgpu.
    assert (no_newline (g4 ++ g5)) by (apply no_newline_app; tauto).
    exists ram, g1, cpu, g2, emc, g3, gr3d, (g4 ++ g5), gpu.
    rewrite <- app_assoc. split; [reflexivity | tauto].
  - intros (ram & g1 & cpu & g2 & emc & g3 & gr3d & g4 & gpu & -> & Hram & Hg1
            & Hcpu & Hg2 & Hemc & Hg3 & Hgr3d & Hg4 & Hgpu).
    of_format.
    apply lang_ram in Hram. apply lang_cpu in Hcpu.
    apply (lang_freq "EMC" "emc_pct" "emc_mhz") in Hemc.
    apply (lang_freq "GR3D" "gr3d_pct" "gr3d_mhz") in Hgr3d.
    apply lang_gpu in Hgpu.
    seq_intro.
    apply (lang_seq_intro gap pat_gpu [] gpu); [|assumption].
    apply lang_gap. reflexivity.
Qed.

Lemma parse_line_populated line d : parse_line line = Some d -> populated d.
Proof.
  intros H. apply search_chars_sound in H as (_ & _ & _ & _ & _ & Hn & Hne).
  split; [exact Hn | apply Hne; reflexivity].
Qed.

Lemma parse_line_sound line d : parse_line line = Some d -> tegrastats_format line.
Proof.
  intros H. apply search_chars_sound in H as (pre & w & post & E & Hw & _).
  exists pre, w, post. split; [exact E | now apply lang_tegra].
Qed.

Lemma parse_line_complete line :
  tegrastats_format line -> exists d, parse_line line = Some d.
Proof.
  intros (pre & w & post & E & Hw). unfold parse_line, search. rewrite E.
  apply search_chars_complete. now apply lang_tegra.
Qed.

Lemma sections_fields w :
  sections w ->
  exists ram g1 cpu g2 emc g3 gr3d g4 gpu,
    w = ram ++ g1 ++ cpu ++ g2 ++ emc ++ g3 ++ gr3d ++ g4 ++ gpu
    /\ ram_field ram /\ cpu_field cpu /\ freq_field "EMC" emc
    /\ freq_field "GR3D" gr3d /\ gpu_field gpu.
Proof.
  intros (ram & g1 & cpu & g2 & emc & g3 & gr3d & g4 & gpu & E & H).
  exists ram, g1, cpu, g2, emc, g3, gr3d, g4, gpu. tauto.
Qed.

Lemma format_has_fields line :
  tegrastats_format line ->
  has_field ram_field line /\ has_field cpu_field line
  /\ has_field (freq_field "EMC") line /\ has_field (freq_field "GR3D") line
  /\ has_field gpu_field line.
Proof.
  intros (pre & w & post & E & Hw).
  apply sections_fields in Hw
    as (ram & g1 & cpu & g2 & emc & g3 & gr3d & g4 & gpu & -> & Hr & Hc & He & Hg & Hp).
  unfold has_field. rewrite E. repeat split.
  - exists pre, ram, (g1 ++ cpu ++ g2 ++ emc ++ g3 ++ gr3d ++ g4 ++ gpu ++ post).
    split; [|assumption]. now rewrite <- !app_assoc.
  - exists (pre ++ ram ++ g1), cpu, (g2 ++ emc ++ g3 ++ gr3d ++ g4 ++ gpu ++ post).
    split; [|assumption]. now rewrite <- !app_assoc.
  - exists (pre ++ ram ++ g1 ++ cpu ++ g2), emc, (g3 ++ gr3d ++ g4 ++ gpu ++ post).
    split; [|assumption]. now rewrite <- !app_assoc.
  - exists (pre ++ ram ++ g1 ++ cpu ++ g2 ++ emc ++ g3), gr3d, (g4 ++ gpu ++ post).
    split; [|assumption]. now rewrite <- !app_assoc.
  - exists (pre ++ ram ++ g1 ++ cpu ++ g2 ++ emc ++ g3 ++ gr3d ++ g4), gpu, post.
    split; [|assumption]. now rewrite <- !app_assoc.
Qed.

End TegraFacts.

(** ** The telemetry line parser *)
Section ParserClaims.
Import Re Tegra Format.
Local Open Scope string_scope.

Example parse_underscore : parse_line stats_underscore = Some sample_underscore.
Proof. vm_compute. reflexivity. Qed.

Example parse_space : parse_line stats_space = Some sample_space.
Proof. vm_compute. reflexivity. Qed.

Example format_space : tegrastats_format stats_space.
Proof. exact (parse_line_sound _ _ parse_space). Qed.

(** Without the GPU temperature, with an empty CPU list, with the
    frequency missing after [%], or with the sections out of order, nothing
    is returned. *)
Example parse_missing_gpu :
  parse_line "RAM 1794/3956MB CPU [2%@102] EMC_FREQ 0%@204 GR3D_FREQ 0%@76 PLL@33C" = None.
Proof. vm_compute. reflexivity. Qed.

Example parse_missing_cpu :
  parse_line "RAM 1794/3956MB CPU [] EMC_FREQ 0%@204 GR3D_FREQ 0%@76 GPU@34C" = None.
Proof. vm_compute. reflexivity. Qed.

Example parse_missing_emc_mhz :
  parse_line "RAM 1794/3956MB CPU [2%@102] EMC_FREQ 0% GR3D_FREQ 0%@76 GPU@34C" = None.
Proof. vm_compute. reflexivity. Qed.

Example parse_out_of_order :
  parse_line "GPU@34C RAM 1794/3956MB CPU [2%@102] EMC_FREQ 0%@204 GR3D_FREQ 0%@76" = None.
Proof. vm_compute. reflexivity. Qed.

(** C3.  The parser is all-or-nothing.  A line that has the five labelled
    sections of the format in order (RAM used/total, CPU list, EMC and GR3D
    percent and frequency with either separator, GPU temperature) yields a
    sample with all eight fields present and non-empty; a sample is only
    ever returned for such a line and always has all eight fields; and a
    line that lacks any one of the sections yields no match. *)
Theorem C3_parser_all_or_nothing (line : string) :
  (tegrastats_format line -> exists d, parse_line line = Some d /\ populated d)
  /\ (forall d, parse_line line = Some d -> populated d /\ tegrastats_format line)
  /\ (~ tegrastats_format line -> parse_line line = None)
  /\ (~ has_field ram_field line \/ ~ has_field cpu_field line
      \/ ~ has_field (freq_field "EMC") line
      \/ ~ has_field (freq_field "GR3D") line
      \/ ~ has_field gpu_field line ->
      parse_line line = None).
Proof.
  assert (Hnone : ~ tegrastats_format line -> parse_line line = None).
  { intros Hn. destruct (parse_line line) as [d|] eqn:E; [|reflexivity].
    exfalso. apply Hn. eapply parse_line_sound; eassumption. }
  split; [|split; [|split]].
  - intros Hf. destruct (parse_line_complete line Hf) as [d Hd].
    exists d. split; [assumption|]. eapply parse_line_populated; eassumption.
  - intros d Hd. split; [eapply parse_line_populated | eapply parse_line_sound]; eassumption.
  - exact Hnone.
  - intros Hmiss. apply Hnone. intros Hf.
    apply format_has_fields in Hf. tauto.
Qed.

End ParserClaims.

(** ** The capacity-one queue between the reader and [latest] *)
Section SlotClaims.
Import Re Tegra Monitor.

Lemma evict_bounded (q : pyqueue) :
  (List.length q <= maxsize)%nat -> evict q = [].
Proof.
  unfold maxsize. destruct q as [|x [|y q]]; simpl; intros; [reflexivity | reflexivity | lia].
Qed.

Lemma write_bounded (q : pyqueue) (data : groupdict) :
  (List.length q <= maxsize)%nat -> write data q = Ok [data].
Proof. intros H. unfold write. now rewrite (evict_bounded q H). Qed.

Lemma read_bounded (q : pyqueue) :
  (List.length q <= maxsize)%nat -> snd (read q) = [].
Proof.
  unfold maxsize. destruct q as [|x [|y q]]; simpl; intros; [reflexivity | reflexivity | lia].
Qed.

Lemma reachable_bounded q : reachable q -> (List.length q <= maxsize)%nat.
Proof.
  induction 1 as [|q _ IH|q q' data _ IH Hw|q _ IH].
  - simpl. unfold maxsize. lia.
  - rewrite (evict_bounded q IH). simpl. unfold maxsize. lia.
  - rewrite (write_bounded q data IH) in Hw. inversion Hw. simpl. unfold maxsize. lia.
  - rewrite (read_bounded q IH). simpl. unfold maxsize. lia.
Qed.

Lemma reader_line_match m line data :
  (List.length (_queue m) <= maxsize)%nat -> parse_line line = Some data ->
  reader_line m line = (set_queue [data] (set_last_raw (strip line) m), Ok tt).
Proof.
  intros Hb Hp. unfold reader_line. rewrite Hp. simpl.
  now rewrite (evict_bounded _ Hb).
Qed.

Lemma reads_nil n : reads n [] = [].
Proof. induction n; simpl; auto. Qed.

(** C2.  With the queue within its bound of one: two lines that parse to
    S1 and S2, fed with no read in between, both go in without an exception
    and leave exactly S2, the same monitor as if S1 had never been written;
    [latest] then returns S2, and [latest] again returns None; a write
    leaves the one value written whatever was unread, also when reads fall
    between its eviction and its put. *)
Theorem C2_freshness_slot (m : monitor) (l1 l2 : string) (s1 s2 : groupdict) :
  (List.length (_queue m) <= maxsize)%nat ->
  parse_line l1 = Some s1 -> parse_line l2 = Some s2 ->
  exists m1 m2 m3,
    reader_line m l1 = (m1, Ok tt)
    /\ reader_line m1 l2 = (m2, Ok tt)
    /\ _queue m2 = [s2]
    /\ reader_line m l2 = (m2, Ok tt)
    /\ latest m2 = ((Some s2, strip l2), m3)
    /\ latest m3 = ((None, strip l2), m3)
    /\ write s1 (_queue m) = Ok [s1]
    /\ write s2 (_queue m1) = Ok [s2]
    /\ (forall n, put_nowait s2 (reads n (evict (_queue m1))) = Ok [s2]).
Proof.
  intros Hb H1 H2.
  pose (m1 := set_queue [s1] (set_last_raw (strip l1) m)).
  pose (m2 := set_queue [s2] (set_last_raw (strip l2) m)).
  exists m1, m2, (set_queue [] m2).
  assert (Hb1 : (List.length (_queue m1) <= maxsize)%nat) by (simpl; unfold maxsize; lia).
  split; [now apply reader_line_match|].
  split; [rewrite (reader_line_match m1 l2 s2 Hb1 H2); reflexivity|].
  split; [reflexivity|].
  split; [now apply reader_line_match|].
  split; [reflexivity|].
  split; [reflexivity|].
  split; [now apply write_bounded|].
  split; [now apply write_bounded|].
  intros n. rewrite (evict_bounded _ Hb1), reads_nil. reflexivity.
Qed.

(** C2 at the freshly built monitor and the two sample lines. *)
Lemma C2_freshness_slot_witness :
  exists m1 m2 m3,
    reader_line init stats_space = (m1, Ok tt)
    /\ reader_line m1 stats_underscore = (m2, Ok tt)
    /\ _queue m2 = [sample_underscore]
    /\ reader_line init stats_underscore = (m2, Ok tt)
    /\ latest m2 = ((Some sample_underscore, strip stats_underscore), m3)
    /\ latest m3 = ((None, strip stats_underscore), m3)
    /\ write sample_space (_queue init) = Ok [sample_space]
    /\ write sample_underscore (_queue m1) = Ok [sample_underscore]
    /\ (forall n, put_nowait sample_underscore (reads n (evict (_queue m1)))
                  = Ok [sample_underscore]).
Proof.
  apply (C2_freshness_slot init stats_space stats_underscore
           sample_space sample_underscore).
  - simpl. unfold maxsize. lia.
  - vm_compute. reflexivity.
  - vm_compute. reflexivity.
Defined.

End SlotClaims.

(** ** start and the reader thread *)
Section MonitorClaims.
Import Re Tegra Monitor.
Local Open Scope string_scope.

Lemma is_alive_new ths : is_alive (ths ++ [Created]) (List.length ths) = true.
Proof.
  unfold is_alive. rewrite nth_error_app2 by lia. now rewrite Nat.sub_diag.
Qed.

Lemma reader_never_raises h m : snd (_reader h m) = Ok tt.
Proof.
  unfold _reader.
  destruct (reader_enter h m) as [m1 [[lines|]|e]]; try reflexivity.
  destruct (reader_lines m1 lines) as [m' [[]|e]]; reflexivity.
Qed.

Lemma reader_enter_absent h m : tool_absent h -> reader_enter h m = (m, Ok None).
Proof. unfold tool_absent, reader_enter. now intros ->. Qed.

Lemma reader_absent h m : tool_absent h -> _reader h m = (m, Ok tt).
Proof. intros H. unfold _reader. now rewrite reader_enter_absent. Qed.

Lemma thread_step_absent h t m :
  tool_absent h -> idle t = true ->
  thread_step h t m = (m, Finished).
Proof.
  intros H Hi. destruct t; simpl in *; [|discriminate|reflexivity].
  now rewrite reader_enter_absent.
Qed.

Lemma thread_run_finished h n m : thread_run h n Finished m = (m, Finished).
Proof. induction n; simpl; auto. Qed.

Lemma thread_run_reading h lines : forall m n,
  (List.length lines < n)%nat ->
  thread_run h n (Reading lines) m = (fst (reader_lines m lines), Finished).
Proof.
  induction lines as [|line rest IH]; intros m [|n] Hn; simpl in *; try lia.
  - apply thread_run_finished.
  - destruct (reader_line m line) as [m' [[]|e]].
    + apply IH. lia.
    + apply thread_run_finished.
Qed.

(** The thread, given enough steps, does what [_reader] does and ends. *)
Lemma thread_run_reader h m :
  exists n0, forall n, (n0 <= n)%nat ->
    thread_run h n Created m = (fst (_reader h m), Finished).
Proof.
  unfold _reader.
  destruct (reader_enter h m) as [m1 [[lines|]|e]] eqn:E.
  - exists (2 + List.length lines)%nat. intros [|n] Hn; [lia|].
    simpl. rewrite E. rewrite thread_run_reading by lia.
    now destruct (reader_lines m1 lines) as [m' [[]|e]].
  - exists 1%nat. intros [|n] Hn; [lia|]. simpl. rewrite E. apply thread_run_finished.
  - exists 1%nat. intros [|n] Hn; [lia|]. simpl. rewrite E. apply thread_run_finished.
Qed.

(** C7.  [start] is idempotent.  While the thread it holds is alive, a call
    changes neither the monitor nor the threads.  With no thread, or a
    finished one, it launches exactly one new thread and holds it, and that
    thread is alive, so calling [start] again right away changes nothing.
    [start] itself cannot raise, and the thread it launches never lets an
    exception out; with the tool absent it returns at once and changes no
    field. *)
Theorem C7_start_idempotent (h : host) (m : monitor) (ths : list thread) :
  (forall t, _thread m = Some t -> is_alive ths t = true -> start m ths = (m, ths))
  /\ (_thread m = None \/ (exists t, _thread m = Some t /\ is_alive ths t = false) ->
      start m ths = (set_thread (Some (List.length ths)) m, (ths ++ [Created])%list)
      /\ is_alive (ths ++ [Created]) (List.length ths) = true)
  /\ start (fst (start m ths)) (snd (start m ths)) = start m ths
  /\ snd (_reader h m) = Ok tt
  /\ (tool_absent h ->
      _reader h m = (m, Ok tt) /\ thread_step h Created m = (m, Finished)).
Proof.
  split; [|split; [|split; [|split]]].
  - intros t Ht Ha. unfold start. now rewrite Ht, Ha.
  - intros [Hn | (t & Ht & Ha)]; unfold start.
    + rewrite Hn. split; [reflexivity | apply is_alive_new].
    + rewrite Ht, Ha. split; [reflexivity | apply is_alive_new].
  - destruct (_thread m) as [t|] eqn:Ht; [destruct (is_alive ths t) eqn:Ha|].
    + assert (E : start m ths = (m, ths)) by (unfold start; now rewrite Ht, Ha).
      rewrite E. exact E.
    + assert (E : start m ths
                  = (set_thread (Some (List.length ths)) m, (ths ++ [Created])%list))
        by (unfold start; now rewrite Ht, Ha).
      rewrite E. unfold start. simpl. now rewrite is_alive_new.
    + assert (E : start m ths
                  = (set_thread (Some (List.length ths)) m, (ths ++ [Created])%list))
        by (unfold start; now rewrite Ht).
      rewrite E. unfold start. simpl. now rewrite is_alive_new.
  - apply reader_never_raises.
  - intros Ha. split; [now apply reader_absent | now apply thread_step_absent].
Qed.

End MonitorClaims.

(** ** Opening the UDP source *)
Section ReceiverClaims.
Import Receiver.
Local Open Scope list_scope.

Variable cv : cv2.

Lemma nth_error_last {A} (l : list A) (x : A) : nth_error (l ++ [x]) (List.length l) = Some x.
Proof. rewrite nth_error_app2 by lia. now rewrite Nat.sub_diag. Qed.

Lemma update_cap_last l c f : update_cap (List.length l) f (l ++ [c]) = l ++ [f c].
Proof. induction l as [|x l IH]; simpl; [reflexivity | now rewrite IH]. Qed.

Lemma update_cap_length h f l : List.length (update_cap h f l) = List.length l.
Proof.
  revert h. induction l as [|x l IH]; intros [|h]; simpl; auto.
Qed.

Lemma update_cap_nth h f l : forall i,
  nth_error (update_cap h f l) i
  = if (i =? h)%nat then option_map f (nth_error l i) else nth_error l i.
Proof.
  revert h. induction l as [|x l IH]; intros [|h] [|i]; simpl; auto.
  now destruct (i =? h)%nat.
Qed.

Lemma update_cap_same h f l c :
  nth_error l h = Some c -> nth_error (update_cap h f l) h = Some (f c).
Proof. intros E. now rewrite update_cap_nth, Nat.eqb_refl, E. Qed.

Lemma VideoCapture_spec src w :
  accepted src = true ->
  VideoCapture cv src w = (Ok (List.length (caps w)), opened_world cv src w, []).
Proof. unfold VideoCapture. now intros ->. Qed.

Lemma isOpened_new src w :
  isOpened (List.length (caps w)) (opened_world cv src w)
  = (Ok (cap_opened (new_capture cv (attempts w) src)), opened_world cv src w, []).
Proof.
  unfold isOpened, bind, get, ret. simpl. now rewrite nth_error_last.
Qed.

Lemma set_low_buffer_new src w :
  _set_low_buffer (List.length (caps w)) (opened_world cv src w)
  = (Ok tt, low_buffer_world cv src w, []).
Proof.
  unfold _set_low_buffer, try_pass, set_buffersize, bind, get, modify, raise, low_buffer_world.
  simpl. rewrite nth_error_last.
  destruct (cap_set_ok (new_capture cv (attempts w) src)); [|reflexivity].
  simpl. now rewrite update_cap_last.
Qed.

Lemma low_buffer_world_cap src w :
  exists c, nth_error (caps (low_buffer_world cv src w)) (List.length (caps w)) = Some c
    /\ cap_source c = src
    /\ cap_opened c = cap_opened (new_capture cv (attempts w) src)
    /\ cap_frames c = cap_frames (new_capture cv (attempts w) src).
Proof.
  unfold low_buffer_world.
  destruct (cap_set_ok (new_capture cv (attempts w) src)); simpl;
    rewrite nth_error_last; eexists; (split; [reflexivity|]);
    unfold new_capture; destruct (cv_open cv (attempts w) src); auto.
Qed.


(** What [open_udp_ffmpeg] does, by the outcome of the two attempts. *)
Lemma open_udp_ffmpeg_spec port w :
  let url1 := FFMPEG_URL_BIND_ANY port in
  let url2 := FFMPEG_URL_BIND_ALL port in
  let w1 := opened_world cv (Url url1) w in
  open_udp_ffmpeg cv port w =
    if cap_opened (new_capture cv (attempts w) (Url url1))
    then (Ok (Some (List.length (caps w)), Some url1), low_buffer_world cv (Url url1) w, [])
    else if cap_opened (new_capture cv (attempts w1) (Url url2))
    then (Ok (Some (List.length (caps w1)), Some url2), low_buffer_world cv (Url url2) w1, [])
    else (Ok (None, None), opened_world cv (Url url2) w1, []).
Proof.
  intros url1 url2 w1. unfold open_udp_ffmpeg.
  unfold bind at 1. rewrite VideoCapture_spec by reflexivity.
  unfold bind at 1. rewrite isOpened_new. fold url1.
  destruct (cap_opened (new_capture cv (attempts w) (Url url1))).
  - unfold bind. rewrite set_low_buffer_new. reflexivity.
  - fold url2. fold w1.
    unfold bind at 1. rewrite VideoCapture_spec by reflexivity.
    unfold bind at 1. rewrite isOpened_new.
    destruct (cap_opened (new_capture cv (attempts w1) (Url url2))).
    + unfold bind. rewrite set_low_buffer_new. reflexivity.
    + reflexivity.
Qed.


Lemma new_capture_frames log src fs :
  cv_open cv log src = Some fs ->
  cap_opened (new_capture cv log src) = true /\ cap_frames (new_capture cv log src) = fs.
Proof. unfold new_capture. intros ->. auto. Qed.

Lemma new_capture_closed log src :
  cv_open cv log src = None -> cap_opened (new_capture cv log src) = false.
Proof. unfold new_capture. now intros ->. Qed.


(** C10.  [open_udp_ffmpeg] never raises and returns either a handle with
    the URL of the open capture it denotes, or (None, None). *)
Theorem C10_consistent_pair (port : Z) (w : world) :
  exists w',
    (exists h url c,
        open_udp_ffmpeg cv port w = (Ok (Some h, Some url), w', [])
        /\ nth_error (caps w') h = Some c
        /\ cap_source c = Url url /\ cap_opened c = true)
    \/ (open_udp_ffmpeg cv port w = (Ok (None, None), w', [])
        /\ Forall (fun c => cap_opened c = false) (skipn (List.length (caps w)) (caps w'))).
Proof.
  pose proof (open_udp_ffmpeg_spec port w) as Hspec. cbv zeta in Hspec.
  set (url1 := FFMPEG_URL_BIND_ANY port) in *.
  set (url2 := FFMPEG_URL_BIND_ALL port) in *.
  set (w1 := opened_world cv (Url url1) w) in *.
  destruct (cap_opened (new_capture cv (attempts w) (Url url1))) eqn:H1.
  - destruct (low_buffer_world_cap (Url url1) w) as (c & Hc & Hs & Hop & _).
    eexists. left. exists (List.length (caps w)), url1, c.
    split; [exact Hspec|]. repeat split; congruence.
  - destruct (cap_opened (new_capture cv (attempts w1) (Url url2))) eqn:H2.
    + destruct (low_buffer_world_cap (Url url2) w1) as (c & Hc & Hs & Hop & _).
      eexists. left. exists (List.length (caps w1)), url2, c.
      split; [exact Hspec|]. repeat split; congruence.
    + eexists. right. split; [exact Hspec|].
      simpl. rewrite <- app_assoc.
      rewrite skipn_app, skipn_all, Nat.sub_diag. simpl.
      repeat constructor; assumption.
Qed.

End ReceiverClaims.

(** The two URLs for the default port. *)
Example urls_5000 :
  candidates 5000
  = [Url "udp://@:5000";
     Url "udp://0.0.0.0:5000?fifo_size=100000&overrun_nonfatal=1&buffer_size=0&timeout=500000"].
Proof. reflexivity. Qed.


(** ** Rounding to binary64 *)
Section FloatFacts.
Import Float.
Local Open Scope Q_scope.

Lemma pow2_pos e : 0 < pow2 e.
Proof. apply Qpower_0_lt. reflexivity. Qed.

Lemma pow2_add a b : pow2 (a + b) == pow2 a * pow2 b.
Proof. apply Qpower_plus. discriminate. Qed.

Lemma pow2_sub a b : pow2 (a - b) == pow2 a / pow2 b.
Proof. apply Qpower_minus. discriminate. Qed.

Lemma pow2_le a b : (a <= b)%Z -> pow2 a <= pow2 b.
Proof. intros H. apply Qpower_le_compat_l; [exact H | discriminate]. Qed.

Lemma pow2_lt a b : (a < b)%Z -> pow2 a < pow2 b.
Proof. intros H. apply Qpower_lt_compat_l; [exact H | reflexivity]. Qed.

Lemma pow2_lt_inv a b : pow2 a < pow2 b -> (a < b)%Z.
Proof. intros H. apply (Qpower_lt_compat_l_inv 2); [exact H | reflexivity]. Qed.

Lemma pow2_Z e : (0 <= e)%Z -> pow2 e == inject_Z (2 ^ e).
Proof. intros H. unfold pow2. now rewrite Zpower_Qpower. Qed.

Lemma Qabs_pos_eq x : 0 <= x -> Qabs x = x.
Proof.
  destruct x as [p q]. unfold Qle, Qabs. simpl. intros H.
  rewrite Z.abs_eq by lia. reflexivity.
Qed.

(** [ilog2] is the floor of the binary logarithm. *)
Lemma ilog2_spec x : 0 < x -> pow2 (ilog2 x) <= x /\ x < pow2 (ilog2 x + 1).
Proof.
  intros Hx. destruct x as [p q].
  assert (Hp : (0 < p)%Z) by (unfold Qlt in Hx; simpl in Hx; lia).
  unfold ilog2. cbn [Qnum Qden].
  set (a := Z.log2 p). set (b := Z.log2 (Z.pos q)).
  destruct (Z.log2_spec p Hp) as [Ha1 Ha2]. fold a in Ha1, Ha2.
  destruct (Z.log2_spec (Z.pos q) (Pos2Z.is_pos q)) as [Hb1 Hb2]. fold b in Hb1, Hb2.
  assert (Ha0 : (0 <= a)%Z) by apply Z.log2_nonneg.
  assert (Hb0 : (0 <= b)%Z) by apply Z.log2_nonneg.
  assert (Ea : pow2 a <= inject_Z p) by (rewrite pow2_Z, <- Zle_Qle; lia).
  assert (Ea' : inject_Z p < pow2 (a + 1)) by (rewrite pow2_Z, <- Zlt_Qlt; lia).
  assert (Eb : pow2 b <= inject_Z (Z.pos q)) by (rewrite pow2_Z, <- Zle_Qle; lia).
  assert (Eb' : inject_Z (Z.pos q) < pow2 (b + 1)) by (rewrite pow2_Z, <- Zlt_Qlt; lia).
  assert (Hq : 0 < inject_Z (Z.pos q)) by reflexivity.
  assert (Ex : p # q == inject_Z p / inject_Z (Z.pos q)) by apply Qmake_Qdiv.
  assert (Hup : p # q < pow2 (a - b + 1)).
  { rewrite Ex. apply Qlt_shift_div_r; [exact Hq|].
    apply Qlt_le_trans with (pow2 (a + 1)); [exact Ea'|].
    replace (a + 1)%Z with ((a - b + 1) + b)%Z by lia. rewrite pow2_add.
    apply Qmult_le_l; [apply pow2_pos | exact Eb]. }
  assert (Hlo : pow2 (a - b - 1) < p # q).
  { rewrite Ex. apply Qlt_shift_div_l; [exact Hq|].
    apply Qlt_le_trans with (pow2 a); [|exact Ea].
    replace a with ((a - b - 1) + (b + 1))%Z at 2 by lia. rewrite pow2_add.
    apply Qmult_lt_l; [apply pow2_pos | exact Eb']. }
  destruct (Qle_bool (pow2 (a - b)) (p # q)) eqn:E.
  - apply Qle_bool_iff in E. split; [exact E | exact Hup].
  - split; [apply Qlt_le_weak; exact Hlo|].
    replace (a - b - 1 + 1)%Z with (a - b)%Z by lia.
    apply Qnot_le_lt. intros H. apply Qle_bool_iff in H. congruence.
Qed.

Lemma ilog2_lt x k : 0 < x -> x < pow2 k -> (ilog2 x < k)%Z.
Proof.
  intros Hx Hk. apply pow2_lt_inv.
  apply Qle_lt_trans with x; [apply ilog2_spec; exact Hx | exact Hk].
Qed.

Lemma ilog2_ge x k : 0 < x -> pow2 k <= x -> (k <= ilog2 x)%Z.
Proof.
  intros Hx Hk. enough (k < ilog2 x + 1)%Z by lia. apply pow2_lt_inv.
  apply Qle_lt_trans with x; [exact Hk | apply ilog2_spec; exact Hx].
Qed.

Lemma ilog2_mono x y : 0 < x -> x <= y -> (ilog2 x <= ilog2 y)%Z.
Proof.
  intros Hx Hxy. apply ilog2_ge; [apply Qlt_le_trans with x; assumption|].
  apply Qle_trans with x; [apply ilog2_spec; exact Hx | exact Hxy].
Qed.

Lemma exponent_pos x : 0 < x -> exponent x = Z.max (ilog2 x - 52) (-1074).
Proof. intros Hx. unfold exponent. rewrite Qabs_pos_eq by now apply Qlt_le_weak. reflexivity. Qed.

Lemma exponent_mono x y : 0 < x -> x <= y -> (exponent x <= exponent y)%Z.
Proof.
  intros Hx Hxy. rewrite !exponent_pos; [|apply Qlt_le_trans with x; assumption | assumption].
  pose proof (ilog2_mono x y Hx Hxy). lia.
Qed.

(** *** Rounding to the nearest integer *)

Lemma rne_cases x :
  (rne x = Qfloor x /\ x - inject_Z (Qfloor x) <= 1 # 2)
  \/ (rne x = (Qfloor x + 1)%Z /\ (1 # 2) <= x - inject_Z (Qfloor x)).
Proof.
  unfold rne. destruct (Qcompare_spec (x - inject_Z (Qfloor x)) (1 # 2)) as [E|E|E].
  - destruct (Z.even (Qfloor x)); [left | right]; (split; [reflexivity | rewrite E; apply Qle_refl]).
  - left. split; [reflexivity | now apply Qlt_le_weak].
  - right. split; [reflexivity | now apply Qlt_le_weak].
Qed.


Lemma rne_Z z : rne (inject_Z z) = z.
Proof.
  unfold rne. rewrite Qfloor_Z.
  assert (E : Qcompare (inject_Z z - inject_Z z) (1 # 2) = Lt).
  { apply Qlt_alt. setoid_replace (inject_Z z - inject_Z z) with 0 by ring. reflexivity. }
  now rewrite E.
Qed.

Lemma rne_mono x y : x <= y -> (rne x <= rne y)%Z.
Proof.
  intros Hxy. pose proof (Qfloor_resp_le x y Hxy) as Hf.
  destruct (Z.eq_dec (Qfloor x) (Qfloor y)) as [Efl|Efl].
  - unfold rne. rewrite Efl.
    destruct (Qcompare_spec (x - inject_Z (Qfloor y)) (1 # 2)) as [Ex|Ex|Ex];
    destruct (Qcompare_spec (y - inject_Z (Qfloor y)) (1 # 2)) as [Ey|Ey|Ey];
    first [lia | destruct (Z.even (Qfloor y)); lia | exfalso; lra].
  - destruct (rne_cases x) as [[-> _]|[-> _]]; destruct (rne_cases y) as [[-> _]|[-> _]]; lia.
Qed.

Lemma rne_comp x y : x == y -> rne x = rne y.
Proof.
  intros E. apply Z.le_antisymm; apply rne_mono; rewrite E; apply Qle_refl.
Qed.

(** *** Rounding to binary64 *)

Lemma rnd_raw x : rnd x == raw x.
Proof. apply Qred_correct. Qed.

Lemma scaled_le x y e : x <= y -> x / pow2 e <= y / pow2 e.
Proof.
  intros H. unfold Qdiv. apply Qmult_le_compat_r; [exact H|].
  apply Qlt_le_weak, Qinv_lt_0_compat, pow2_pos.
Qed.

Lemma rnd_mono x y : 0 < x -> x <= y -> rnd x <= rnd y.
Proof.
  intros Hx Hxy. rewrite !rnd_raw. unfold raw.
  assert (Hy : 0 < y) by (apply Qlt_le_trans with x; assumption).
  pose proof (exponent_mono x y Hx Hxy) as He.
  destruct (Z.eq_dec (exponent x) (exponent y)) as [E|E].
  - rewrite E. apply Qmult_le_compat_r; [|apply Qlt_le_weak, pow2_pos].
    rewrite <- Zle_Qle. apply rne_mono. now apply scaled_le.
  - assert (Hlt : (exponent x < exponent y)%Z) by lia.
    apply Qle_trans with (pow2 (exponent x + 53)).
    + rewrite pow2_add, (Qmult_comm (pow2 (exponent x))).
      apply Qmult_le_compat_r; [|apply Qlt_le_weak, pow2_pos].
      rewrite (pow2_Z 53) by lia. rewrite <- Zle_Qle.
      rewrite <- (rne_Z (2 ^ 53)). apply rne_mono.
      rewrite <- (pow2_Z 53) by lia.
      apply Qle_shift_div_r; [apply pow2_pos|].
      rewrite <- pow2_add. apply Qlt_le_weak.
      apply Qlt_le_trans with (pow2 (ilog2 x + 1)); [apply ilog2_spec; exact Hx|].
      apply pow2_le. rewrite (exponent_pos x Hx). lia.
    + apply Qle_trans with (pow2 (exponent y + 52)).
      * apply pow2_le. lia.
      * rewrite pow2_add, (Qmult_comm (pow2 (exponent y))).
        apply Qmult_le_compat_r; [|apply Qlt_le_weak, pow2_pos].
        rewrite (pow2_Z 52) by lia. rewrite <- Zle_Qle.
        rewrite <- (rne_Z (2 ^ 52)). apply rne_mono.
        rewrite <- (pow2_Z 52) by lia.
        apply Qle_shift_div_l; [apply pow2_pos|].
        rewrite <- pow2_add.
        apply Qle_trans with (pow2 (ilog2 y)); [|apply ilog2_spec; exact Hy].
        apply pow2_le. rewrite (exponent_pos y Hy) in *.
        rewrite (exponent_pos x Hx) in Hlt. lia.
Qed.



Lemma raw_exact (j e : Z) (x : Q) :
  x == inject_Z j * pow2 e -> (exponent x <= e)%Z -> raw x == x.
Proof.
  intros Ex He. unfold raw. set (ex := exponent x) in *.
  assert (Hp : ~ pow2 ex == 0).
  { intros H. pose proof (pow2_pos ex) as Hp. rewrite H in Hp.
    revert Hp. apply Qlt_irrefl. }
  assert (E : x / pow2 ex == inject_Z (j * 2 ^ (e - ex))).
  { rewrite inject_Z_mult, <- (pow2_Z (e - ex)) by lia.
    rewrite pow2_sub, Ex. now field. }
  rewrite (rne_comp _ _ E), rne_Z.
  rewrite inject_Z_mult, <- (pow2_Z (e - ex)) by lia.
  rewrite pow2_sub, Ex. now field.
Qed.

(** A number with at most 53 significant bits above the subnormal unit is
    a float: rounding leaves it as it is. *)
Lemma rnd_exact (j e : Z) (x : Q) :
  (0 < j < 2 ^ 53)%Z -> (-1074 <= e)%Z ->
  x == inject_Z j * pow2 e -> rnd x == x.
Proof.
  intros Hj He Ex. rewrite rnd_raw. apply (raw_exact j e); [exact Ex|].
  assert (Hx : 0 < x).
  { rewrite Ex. apply Qmult_lt_0_compat; [|apply pow2_pos].
    change 0 with (inject_Z 0). rewrite <- Zlt_Qlt. lia. }
  rewrite (exponent_pos x Hx).
  enough (ilog2 x < 53 + e)%Z by lia.
  apply ilog2_lt; [exact Hx|].
  rewrite Ex, pow2_add. apply Qmult_lt_compat_r; [apply pow2_pos|].
  rewrite (pow2_Z 53) by lia. rewrite <- Zlt_Qlt. lia.
Qed.

Lemma rnd_pow2 e : (-1074 <= e)%Z -> rnd (pow2 e) == pow2 e.
Proof.
  intros He. apply (rnd_exact 1 e); [lia | exact He|].
  change (inject_Z 1) with 1. now rewrite Qmult_1_l.
Qed.





(** *** Overflow and comparison *)

Lemma round_finite x : Qabs (rnd x) < pow2 1024 -> round x = Finite (rnd x).
Proof.
  intros H. unfold round.
  destruct (Qle_bool (pow2 1024) (Qabs (rnd x))) eqn:E; [|reflexivity].
  apply Qle_bool_iff in E. exfalso. revert E. now apply Qlt_not_le.
Qed.

Lemma round_pos_finite x : 0 <= rnd x -> rnd x < pow2 1024 -> round x = Finite (rnd x).
Proof. intros H0 H1. apply round_finite. now rewrite Qabs_pos_eq. Qed.





(** *** Integers as floats *)

Lemma bound_fits : rnd (inject_Z (int_bound - 1)) < pow2 1024.
Proof. vm_compute. reflexivity. Qed.

Lemma bound_overflows : pow2 1024 <= rnd (inject_Z int_bound).
Proof. vm_compute. discriminate. Qed.

Lemma rnd_one : rnd 1 == 1.
Proof. vm_compute. reflexivity. Qed.

Lemma int_pos n : (1 <= n)%Z -> 0 < inject_Z n.
Proof. intros H. change 0 with (inject_Z 0). rewrite <- Zlt_Qlt. lia. Qed.

Lemma rnd_int_ge_1 n : (1 <= n)%Z -> 1 <= rnd (inject_Z n).
Proof.
  intros H. rewrite <- rnd_one. apply rnd_mono; [reflexivity|].
  change 1 with (inject_Z 1). rewrite <- Zle_Qle. exact H.
Qed.

Lemma of_int_fits n :
  (1 <= n < int_bound)%Z ->
  of_int n = Ok (rnd (inject_Z n)) /\ 1 <= rnd (inject_Z n) /\ rnd (inject_Z n) < pow2 1024.
Proof.
  intros Hn. pose proof (rnd_int_ge_1 n (proj1 Hn)) as H1.
  assert (H2 : rnd (inject_Z n) < pow2 1024).
  { apply Qle_lt_trans with (rnd (inject_Z (int_bound - 1))); [|apply bound_fits].
    apply rnd_mono; [apply int_pos; lia|]. rewrite <- Zle_Qle. lia. }
  split; [|split; assumption].
  unfold of_int. rewrite round_pos_finite; [reflexivity | lra | exact H2].
Qed.

Lemma of_int_overflow n : (int_bound <= n)%Z -> of_int n = Raise OverflowError.
Proof.
  intros Hn. unfold of_int, round.
  assert (H : pow2 1024 <= rnd (inject_Z n)).
  { apply Qle_trans with (rnd (inject_Z int_bound)); [apply bound_overflows|].
    apply rnd_mono; [reflexivity|]. now rewrite <- Zle_Qle. }
  assert (E : Qle_bool (pow2 1024) (Qabs (rnd (inject_Z n))) = true).
  { apply Qle_bool_iff. rewrite Qabs_pos_eq; [exact H|].
    apply Qle_trans with (pow2 1024); [apply Qlt_le_weak, pow2_pos | exact H]. }
  now rewrite E.
Qed.

(** *** The interval [1.0 / n] *)


Lemma inv_pos a : 0 < a -> 0 < 1 / a.
Proof. intros Ha. apply Qlt_shift_div_l; [exact Ha|]. lra. Qed.

Lemma interval_bounds n :
  (1 <= n < int_bound)%Z -> pow2 (-1024) <= interval_of n /\ interval_of n <= 1.
Proof.
  intros Hn. destruct (of_int_fits n Hn) as (_ & H1 & H2). unfold interval_of.
  set (d := rnd (inject_Z n)) in *.
  assert (Hd : 0 < d) by lra. split.
  - rewrite <- (rnd_pow2 (-1024)) by lia. apply rnd_mono; [apply pow2_pos|].
    apply Qle_shift_div_l; [exact Hd|].
    apply Qle_trans with (pow2 (-1024) * pow2 1024).
    + apply Qmult_le_l; [apply pow2_pos | now apply Qlt_le_weak].
    + rewrite <- pow2_add. apply Qle_refl.
  - apply Qle_trans with (rnd 1); [|rewrite rnd_one; apply Qle_refl].
    apply rnd_mono; [now apply inv_pos|].
    apply Qle_shift_div_r; [exact Hd|]. lra.
Qed.

Lemma interval_value n :
  (1 <= n < int_bound)%Z -> div 1 (rnd (inject_Z n)) = Ok (Finite (interval_of n)).
Proof.
  intros Hn. destruct (of_int_fits n Hn) as (_ & H1 & _).
  destruct (interval_bounds n Hn) as [H3 H4].
  unfold div. destruct (Qeq_bool (rnd (inject_Z n)) 0) eqn:E.
  - apply Qeq_bool_eq in E. rewrite E in H1. exfalso. revert H1. now apply Qlt_not_le.
  - f_equal. apply round_pos_finite.
    + apply Qle_trans with (pow2 (-1024)); [apply Qlt_le_weak, pow2_pos | exact H3].
    + apply Qle_lt_trans with 1; [exact H4|]. apply (pow2_lt 0 1024). lia.
Qed.










End FloatFacts.

(** ** Counting times that keep a distance *)
Section Spacing.
Import Loop.
Local Open Scope Q_scope.




End Spacing.

(** ** The frame-processing loop *)
Section LoopFacts.
Import Monitor Receiver Loop.
Local Open Scope Q_scope.

Variable h : host.
Variable cfg : config.

(** The divisor of the throttle interval, [max(max_fps, 1)]. *)
Local Notation "'divisor'" := (Z.max (max_fps cfg) 1) (only parsing).


(** The interval is computed, as a float, unless the divisor does not
    convert. *)
Lemma throttle_interval_cases :
  ((Float.int_bound <= divisor)%Z /\ throttle_interval cfg = Raise OverflowError)
  \/ ((divisor < Float.int_bound)%Z
      /\ throttle_interval cfg = Ok (Float.Finite (Float.interval_of divisor))).
Proof.
  unfold throttle_interval.
  destruct (Z_le_gt_dec Float.int_bound divisor) as [Hb|Hs].
  - left. split; [exact Hb|]. now rewrite of_int_overflow.
  - right. split; [lia|].
    assert (Hn : (1 <= divisor < Float.int_bound)%Z) by lia.
    destruct (of_int_fits _ Hn) as [-> _]. now apply interval_value.
Qed.

Lemma throttle_interval_ok :
  (divisor < Float.int_bound)%Z ->
  throttle_interval cfg = Ok (Float.Finite (Float.interval_of divisor)).
Proof.
  intros Hs. destruct throttle_interval_cases as [[Hb _]|[_ E]]; [lia | exact E].
Qed.





Lemma fps_ok (dt : Q) :
  fdiv 1 (Qmax dt (1 # 1000000)) = Ok (1 / Qmax dt (1 # 1000000)).
Proof.
  unfold fdiv.
  destruct (Qeq_bool (Qmax dt (1 # 1000000)) 0) eqn:E; [|reflexivity].
  apply Qeq_bool_eq in E.
  pose proof (Q.le_max_r dt (1 # 1000000)) as H. rewrite E in H.
  exfalso. revert H. apply Qlt_not_le. reflexivity.
Qed.

Lemma Qltb_lt a b : Qltb a b = true <-> a < b.
Proof.
  unfold Qltb. rewrite negb_true_iff. split.
  - intros E. apply Qnot_le_lt. intros Hle. apply Qle_bool_iff in Hle. congruence.
  - intros Hlt. destruct (Qle_bool b a) eqn:E; [|reflexivity].
    apply Qle_bool_iff in E. exfalso. revert E. now apply Qlt_not_le.
Qed.

Lemma Qltb_ge a b : Qltb a b = false <-> b <= a.
Proof.
  unfold Qltb. rewrite negb_false_iff. apply Qle_bool_iff.
Qed.

Lemma silent_parts (w : world) :
  silent w = true <->
  (match monitor_cache w with
   | Some m => _queue m = [] /\ _last_raw m = EmptyString
   | None => True
   end) /\ forallb idle (threads w) = true.
Proof.
  unfold silent, blank. rewrite andb_true_iff.
  destruct (monitor_cache w) as [m|].
  - rewrite andb_true_iff, String.eqb_eq, Nat.eqb_eq.
    destruct (_queue m); simpl; intuition (auto; discriminate).
  - tauto.
Qed.

Lemma metrics_latest_ok (w : world) :
  exists data last_raw w1,
    metrics_latest w = (Ok (data, last_raw), w1, [])
    /\ caps w1 = caps w /\ session_state w1 = session_state w
    /\ (silent w = true ->
        silent w1 = true /\ data = None /\ last_raw = EmptyString).
Proof.
  unfold metrics_latest, bind, get, modify, ret, latest.
  destruct (monitor_cache w) as [m|] eqn:Hm.
  - destruct (read (_queue m)) as [d q] eqn:Hr. simpl.
    exists d, (_last_raw m), (set_monitor (Some (set_queue q m)) (threads w) w).
    split; [reflexivity|]. split; [reflexivity|]. split; [reflexivity|].
    intros Hs. apply silent_parts in Hs. rewrite Hm in Hs.
    destruct Hs as [[Hq Hl] Hi]. rewrite Hq in Hr. inversion Hr; subst d q.
    split; [|split; [reflexivity | assumption]].
    apply silent_parts. simpl. split; [split; [reflexivity | assumption] | assumption].
  - exists None, EmptyString, w. simpl. auto 10.
Qed.

(** [_render_metrics] returns, shows display events only and touches
    neither captures nor session; with nothing read from the tool it shows
    the placeholder. *)
Lemma render_ok (w : world) :
  exists w2 revs,
    _render_metrics cfg w = (Ok tt, w2, revs)
    /\ forallb is_display revs = true
    /\ caps w2 = caps w /\ session_state w2 = session_state w
    /\ (silent w = true -> silent w2 = true /\ telemetry revs = [StCaption waiting_text]).
Proof.
  unfold _render_metrics.
  assert (Hcuda : exists cevs,
            (if show_cuda_mem cfg
             then match cuda_memory_summary (device cfg) with
                  | Some summary =>
                      if negb (String.eqb summary "") then emit (CudaInfo summary) else ret tt
                  | None => ret tt
                  end
             else ret tt) = (fun w => (Ok tt, w, cevs))
            /\ forallb is_display cevs = true /\ telemetry cevs = []).
  { destruct (show_cuda_mem cfg); [|exists []; auto].
    destruct (cuda_memory_summary (device cfg)) as [s|]; [|exists []; auto].
    destruct (negb (String.eqb s "")); [exists [CudaInfo s] | exists []]; auto. }
  destruct Hcuda as (cevs & -> & Hc1 & Hc2).
  assert (Hlatest : exists data last_raw w1,
            (if metrics cfg then metrics_latest else ret (None, EmptyString)) w
            = (Ok (data, last_raw), w1, [])
            /\ caps w1 = caps w /\ session_state w1 = session_state w
            /\ (silent w = true ->
                silent w1 = true /\ data = None /\ last_raw = EmptyString)).
  { destruct (metrics cfg); [apply metrics_latest_ok|].
    exists None, EmptyString, w. unfold ret. auto 10. }
  destruct Hlatest as (data & last_raw & w1 & Hl & Hcaps & Hsess & Hsil).
  unfold bind at 1. rewrite Hl.
  assert (Helse : exists tev,
            (if negb (String.eqb last_raw "")
             then emit (StWrite ("tegrastats (raw): " ++ last_raw))
             else emit (StCaption waiting_text)) = (fun w => (Ok tt, w, [tev]))
            /\ is_display tev = true
            /\ (last_raw = EmptyString -> tev = StCaption waiting_text)).
  { destruct (negb (String.eqb last_raw "")) eqn:Hraw.
    - eexists. split; [reflexivity|]. split; [reflexivity|].
      intros ->. discriminate.
    - eexists. split; [reflexivity|]. split; [reflexivity|]. reflexivity. }
  destruct Helse as (tev & Helse & Hd & Hw).
  destruct data as [[|kv d]|].
  - rewrite Helse. exists w1, (tev :: cevs). unfold bind. simpl. rewrite Hd, Hc1.
    split; [reflexivity|]. split; [reflexivity|]. split; [assumption|]. split; [assumption|].
    intros Hs. destruct (Hsil Hs) as (_ & Hdata & _). discriminate.
  - eexists w1, _. unfold bind, emit. simpl.
    split; [reflexivity|]. split; [simpl; exact Hc1|]. split; [assumption|]. split; [assumption|].
    intros Hs. destruct (Hsil Hs) as (_ & Hdata & _). discriminate.
  - rewrite Helse. exists w1, (tev :: cevs). unfold bind. simpl. rewrite Hd, Hc1.
    split; [reflexivity|]. split; [reflexivity|]. split; [assumption|]. split; [assumption|].
    intros Hs. destruct (Hsil Hs) as (Hs1 & _ & Hraw). split; [assumption|].
    rewrite (Hw Hraw). unfold telemetry in *. simpl. now rewrite Hc2.
Qed.

Lemma bind_modify {B} (g : world -> world) (k : unit -> M B) (w : world) :
  bind (modify g) k w = k tt (g w).
Proof.
  unfold bind, modify. destruct (k tt (g w)) as [[r w2] ev2]. reflexivity.
Qed.

Lemma bind_ret {A B} (a : A) (k : A -> M B) (w : world) :
  bind (ret a) k w = k a w.
Proof.
  unfold bind, ret. destruct (k a w) as [[r w2] ev2]. reflexivity.
Qed.

Lemma iteration_unfold cap f st w :
  iteration h cfg cap f st w =
    (interval <- lift (throttle_interval cfg) ;;
     if Float.lt (Float.sub (arrival f) (last_emit st)) interval then ret st
     else
       (annotated <- predict_annotated f ;;
        (if ((frame_count st + 1) mod 5 =? 0)%Z then
           fps <- lift (fdiv 1 (Qmax (t1 f - t0 f) (1 # 1000000))) ;;
           emit (FpsWrite fps)
         else ret tt) ;;
        emit (Image annotated) ;;
        _render_metrics cfg ;;
        ret {| last_emit := arrival f; frame_count := (frame_count st + 1)%Z |}))%monad
      (read_world h cap f w).
Proof.
  unfold iteration, read_world, world_of, advance, background.
  rewrite !bind_modify. reflexivity.
Qed.

Lemma iteration_overflow cap f st w e :
  throttle_interval cfg = Raise e ->
  iteration h cfg cap f st w = (Raise e, read_world h cap f w, []).
Proof. intros E. rewrite iteration_unfold, E. reflexivity. Qed.

Lemma iteration_throttled cap f st w i :
  throttle_interval cfg = Ok i ->
  Float.lt (Float.sub (arrival f) (last_emit st)) i = true ->
  iteration h cfg cap f st w = (Ok st, read_world h cap f w, []).
Proof.
  intros E Hlt. rewrite iteration_unfold, E. unfold lift.
  rewrite bind_ret, Hlt. reflexivity.
Qed.

Lemma iteration_failed cap f st w i :
  throttle_interval cfg = Ok i ->
  Float.lt (Float.sub (arrival f) (last_emit st)) i = false -> prediction f = None ->
  iteration h cfg cap f st w
  = (Raise (Exception "predict"), read_world h cap f w, [Predict f]).
Proof.
  intros E Hge Hp. rewrite iteration_unfold, E. unfold lift.
  rewrite bind_ret, Hge.
  unfold bind at 1. unfold predict_annotated, bind, emit. rewrite Hp. reflexivity.
Qed.

Lemma iteration_emitted cap f st w i a :
  throttle_interval cfg = Ok i ->
  Float.lt (Float.sub (arrival f) (last_emit st)) i = false -> prediction f = Some a ->
  exists w2 revs,
    iteration h cfg cap f st w
    = (Ok {| last_emit := arrival f; frame_count := (frame_count st + 1)%Z |}, w2,
       (Predict f :: fps_events (frame_count st + 1) f ++ Image a :: revs)%list)
    /\ forallb is_display revs = true
    /\ caps w2 = caps (read_world h cap f w)
    /\ session_state w2 = session_state (read_world h cap f w)
    /\ (silent (read_world h cap f w) = true ->
        silent w2 = true /\ telemetry revs = [StCaption waiting_text]).
Proof.
  intros E Hge Hp. rewrite iteration_unfold, E. unfold lift.
  rewrite bind_ret, Hge.
  destruct (render_ok (read_world h cap f w)) as (w2 & revs & Hr & Hd & Hc & Hs & Hsil).
  exists w2, revs. split; [|auto].
  unfold fps_events, duration.
  unfold predict_annotated. rewrite Hp.
  destruct ((frame_count st + 1) mod 5 =? 0)%Z.
  - rewrite fps_ok. unfold bind, emit, ret, lift. simpl. rewrite Hr.
    simpl. now rewrite app_nil_r.
  - unfold bind, emit, ret. simpl. rewrite Hr. simpl. now rewrite app_nil_r.
Qed.

(** The ways the loop goes through a frame: the divisor does not convert
    to a float and the comparison raises; or the frame comes too soon and
    is dropped; or inference is called on it and raises, or returns. *)
Lemma frames_loop_step cap f rest st w :
  (throttle_interval cfg = Raise OverflowError
   /\ frames_loop h cfg cap (f :: rest) st w
      = (Raise OverflowError, read_world h cap f w, []))
  \/ (exists i,
        throttle_interval cfg = Ok i
        /\ ((Float.lt (Float.sub (arrival f) (last_emit st)) i = true
             /\ frames_loop h cfg cap (f :: rest) st w
                = frames_loop h cfg cap rest st (read_world h cap f w))
            \/ (Float.lt (Float.sub (arrival f) (last_emit st)) i = false
                /\ prediction f = None
                /\ frames_loop h cfg cap (f :: rest) st w
                   = (Raise (Exception "predict"), read_world h cap f w, [Predict f]))
            \/ (Float.lt (Float.sub (arrival f) (last_emit st)) i = false
                /\ exists a w2 revs,
                    prediction f = Some a
                    /\ forallb is_display revs = true
                    /\ caps w2 = caps (read_world h cap f w)
                    /\ session_state w2 = session_state (read_world h cap f w)
                    /\ (silent (read_world h cap f w) = true ->
                        silent w2 = true /\ telemetry revs = [StCaption waiting_text])
                    /\ frames_loop h cfg cap (f :: rest) st w
                       = (result_of (frames_loop h cfg cap rest (emitted_state f st) w2),
                          world_of (frames_loop h cfg cap rest (emitted_state f st) w2),
                          (Predict f :: fps_events (frame_count st + 1) f ++ Image a :: revs)
                          ++ events_of (frames_loop h cfg cap rest (emitted_state f st) w2))%list))).
Proof.
  destruct throttle_interval_cases as [[_ E]|[_ E]].
  - left. split; [exact E|]. simpl. unfold bind.
    now rewrite (iteration_overflow cap f st w _ E).
  - right. eexists. split; [exact E|].
    destruct (Float.lt (Float.sub (arrival f) (last_emit st))
                (Float.Finite (Float.interval_of divisor))) eqn:Hlt.
    + left. split; [reflexivity|]. simpl. unfold bind.
      rewrite (iteration_throttled cap f st w _ E Hlt).
      destruct (frames_loop h cfg cap rest st (read_world h cap f w)) as [[r w2] ev2].
      reflexivity.
    + right. destruct (prediction f) as [a|] eqn:Hp.
      * right. split; [reflexivity|].
        destruct (iteration_emitted cap f st w _ a E Hlt Hp)
          as (w2 & revs & Hit & Hd & Hc & Hs & Hsil).
        exists a, w2, revs. repeat (split; [assumption || reflexivity|]).
        simpl. unfold bind. rewrite Hit. fold (emitted_state f st).
        destruct (frames_loop h cfg cap rest (emitted_state f st) w2) as [[r w3] ev3].
        reflexivity.
      * left. split; [reflexivity|]. split; [reflexivity|].
        simpl. unfold bind. now rewrite (iteration_failed cap f st w _ E Hlt Hp).
Qed.

Lemma predicted_app evs1 evs2 :
  predicted (evs1 ++ evs2) = (predicted evs1 ++ predicted evs2)%list.
Proof.
  induction evs1 as [|e evs1 IH]; simpl; [reflexivity|].
  destruct e; simpl; now rewrite ?IH.
Qed.

Lemma predicted_display revs : forallb is_display revs = true -> predicted revs = [].
Proof.
  induction revs as [|e revs IH]; simpl; [reflexivity|].
  intros H. apply andb_true_iff in H as [He Hr].
  destruct e; simpl in *; try discriminate; auto.
Qed.

Lemma predicted_fps n f evs : predicted (fps_events n f ++ evs) = predicted evs.
Proof. unfold fps_events. destruct (n mod 5 =? 0)%Z; reflexivity. Qed.

(** The inference calls of an emitted frame and of what follows. *)
Lemma predicted_emitted f n a revs evs :
  forallb is_display revs = true ->
  predicted (Predict f :: (fps_events n f ++ Image a :: revs) ++ evs)
  = f :: predicted evs.
Proof.
  intros Hd. simpl. f_equal. rewrite <- app_assoc, predicted_fps. simpl.
  now rewrite predicted_app, (predicted_display revs Hd).
Qed.



(** *** [run] *)

Lemma buffered_cases cap w :
  buffered_world cap w = w
  \/ (exists c, nth_error (caps w) cap = Some c
       /\ buffered_world cap w
          = set_caps (update_cap cap (with_buffersize 1) (caps w)) w).
Proof.
  unfold buffered_world, world_of, try_pass, set_buffersize, bind, get, modify, raise.
  simpl. destruct (nth_error (caps w) cap) as [c|] eqn:E; [|now left].
  destruct (cap_set_ok c); [|now left].
  right. exists c. auto.
Qed.

Lemma set_buffersize_ok cap w :
  try_pass (set_buffersize cap 1) w = (Ok tt, buffered_world cap w, []).
Proof.
  unfold buffered_world, world_of, try_pass, set_buffersize, bind, get, modify, raise.
  simpl. destruct (nth_error (caps w) cap) as [c|]; [|reflexivity].
  destruct (cap_set_ok c); reflexivity.
Qed.

Lemma buffered_pending cap w : pending cap (buffered_world cap w) = pending cap w.
Proof.
  destruct (buffered_cases cap w) as [-> | (c & Hc & ->)]; [reflexivity|].
  unfold pending. simpl. rewrite (update_cap_same _ _ _ _ Hc), Hc. reflexivity.
Qed.

Lemma run_unfold cap w :
  run h cfg cap w =
    (match result_of (frames_loop h cfg cap (pending cap w) initial_state
                        (buffered_world cap w)) with
     | Ok _ => Ok tt
     | Raise e => Raise e
     end,
     world_of (frames_loop h cfg cap (pending cap w) initial_state (buffered_world cap w)),
     events_of (frames_loop h cfg cap (pending cap w) initial_state (buffered_world cap w))).
Proof.
  unfold run. unfold bind at 1. rewrite set_buffersize_ok.
  unfold bind at 1. unfold get at 1. rewrite buffered_pending.
  unfold bind.
  destruct (frames_loop h cfg cap (pending cap w) initial_state (buffered_world cap w))
    as [[[st|e] w2] ev2]; simpl; now rewrite ?app_nil_r.
Qed.

End LoopFacts.

Section LoopClaims.
Import Monitor Receiver Loop.
Local Open Scope Q_scope.

Variable h : host.
Variable cfg : config.


End LoopClaims.


(** The claim as stated fails for readings of a clock that has just been
    started.  At three frames per second, the float nearest a third of a
    second is below a third; a frame read at that time and one read at
    twice that time are both floats, the second comes less than [1/3]
    seconds after the first, and inference is called on both: the
    difference of the readings is not below the interval as floats. *)
Lemma C1_counterexample :
  exists f1 f2,
    predicted (events_of (run Main.no_tool (Main.demo_config 3) 0 Main.early_world))
    = [f1; f2]
    /\ Float.is_float (arrival f1) = true /\ Float.is_float (arrival f2) = true
    /\ last_emit (emitted_state f1 initial_state) = arrival f1
    /\ arrival f2 - arrival f1 < 1 / inject_Z (max_fps (Main.demo_config 3))
    /\ iteration Main.no_tool (Main.demo_config 3) 0 f2 (emitted_state f1 initial_state)
         Main.early_world
       <> (Ok (emitted_state f1 initial_state),
           read_world Main.no_tool 0 f2 Main.early_world, []).
Proof.
  exists (Main.early_frame 0), (Main.early_frame 1).
  split; [vm_compute; reflexivity|].
  split; [vm_compute; reflexivity|].
  split; [vm_compute; reflexivity|].
  split; [reflexivity|].
  split; [vm_compute; reflexivity|].
  vm_compute. discriminate.
Qed.

(** There, frames 0, 2, 4, 6 and 8 are emitted. *)
Example demo_emitted :
  map pixels (predicted (events_of (run Main.no_tool (Main.demo_config 5) 0
                                      (Main.demo_world (1 # 20) 99 10))))
  = [0; 2; 4; 6; 8]%nat.
Proof. vm_compute. reflexivity. Qed.


(** ** Throughput reports *)
Section ReportFacts.
Local Open Scope Q_scope.

Variable h : host.
Variable cfg : config.

Lemma fps_before_display revs evs :
  forallb is_display revs = true ->
  fps_before_next (revs ++ evs) = fps_before_next evs.
Proof.
  induction revs as [|e revs IH]; simpl; [reflexivity|].
  intros H. apply andb_true_iff in H as [He Hr].
  destruct e; simpl in *; try discriminate; auto.
Qed.

Lemma reports_display revs evs :
  forallb is_display revs = true ->
  reports_by_frame (revs ++ evs) = reports_by_frame evs.
Proof.
  induction revs as [|e revs IH]; simpl; [reflexivity|].
  intros H. apply andb_true_iff in H as [He Hr].
  destruct e; simpl in *; try discriminate; auto.
Qed.

Lemma fps_before_emitted n f a revs evs :
  forallb is_display revs = true ->
  fps_before_next ((fps_events n f ++ Image a :: revs) ++ evs)
  = (fps_values n f ++ fps_before_next evs)%list.
Proof.
  intros Hd. unfold fps_events, fps_values.
  destruct (n mod 5 =? 0)%Z; simpl; now rewrite fps_before_display.
Qed.

Lemma reports_emitted n f a revs evs :
  forallb is_display revs = true ->
  reports_by_frame ((fps_events n f ++ Image a :: revs) ++ evs) = reports_by_frame evs.
Proof.
  intros Hd. unfold fps_events.
  destruct (n mod 5 =? 0)%Z; simpl; now rewrite reports_display.
Qed.

(** What the loop shows starts with an inference call. *)
Lemma loop_events_head cap frames : forall st w,
  fps_before_next (events_of (frames_loop h cfg cap frames st w)) = [].
Proof.
  induction frames as [|f rest IH]; intros st w.
  - reflexivity.
  - destruct (frames_loop_step h cfg cap f rest st w)
      as [(Hov & ->) | (iv & Hiv & [(Hlt & ->) | [(Hge & Hp & ->)
          | (Hge & a & w2 & revs & Hp & Hd & _ & _ & _ & ->)]])].
    + reflexivity.
    + apply IH.
    + reflexivity.
    + reflexivity.
Qed.

(** The figures written for the [k]-th inference call from a state on. *)
Lemma frames_loop_reports cap frames : forall st w k f qs,
  nth_error (reports_by_frame (events_of (frames_loop h cfg cap frames st w))) k
  = Some (f, qs) ->
  qs = match prediction f with
       | Some _ => fps_values (frame_count st + Z.of_nat (S k)) f
       | None => []
       end.
Proof.
  induction frames as [|f0 rest IH]; intros st w k f qs Hk.
  - destruct k; discriminate.
  - destruct (frames_loop_step h cfg cap f0 rest st w)
      as [(Hov & E) | (iv & Hiv & [(Hlt & E) | [(Hge & Hp & E)
          | (Hge & a & w2 & revs & Hp & Hd & _ & _ & _ & E)]])];
      rewrite E in Hk; clear E.
    + destruct k; discriminate.
    + eapply IH; eassumption.
    + destruct k as [|[|k]]; simpl in Hk; try discriminate.
      inversion Hk; subst. now rewrite Hp.
    + unfold events_of at 1 in Hk. simpl snd in Hk.
      cbn [reports_by_frame] in Hk.
      rewrite fps_before_emitted, reports_emitted, loop_events_head, app_nil_r in Hk
        by assumption.
      destruct k as [|k]; simpl in Hk.
      * inversion Hk; subst. rewrite Hp. f_equal; lia.
      * apply IH in Hk. rewrite Hk. simpl frame_count.
        destruct (prediction f); [|reflexivity]. f_equal; lia.
Qed.

(** C5 as amended.  For the [k]-th frame inference is called on in a run
    (counting from 1): if the call returns and [k] is a multiple of five,
    exactly one throughput figure is written, and it is
    [1 / max(d, 0.000001)] for the measured duration [d], hence [1/d]
    whenever [d] is at least a microsecond; otherwise none is written. *)
Theorem C5_throughput_reports (cap : nat) (w : world) (k : nat) (f : frame) (qs : list Q) :
  nth_error (reports_by_frame (events_of (run h cfg cap w))) k = Some (f, qs) ->
  qs = match prediction f with
       | Some _ =>
           if (Z.of_nat (S k) mod 5 =? 0)%Z
           then [1 / Qmax (duration f) (1 # 1000000)]
           else []
       | None => []
       end
  /\ ((1 # 1000000) <= duration f -> Forall (fun q => q == 1 / duration f) qs).
Proof.
  intros Hk. rewrite run_unfold in Hk. unfold events_of at 1 in Hk. simpl snd in Hk.
  apply frames_loop_reports in Hk. simpl frame_count in Hk.
  rewrite Z.add_0_l in Hk. unfold fps_values in Hk.
  split; [exact Hk|].
  intros Hd. rewrite Hk.
  destruct (prediction f); [|constructor].
  destruct (Z.of_nat (S k) mod 5 =? 0)%Z; constructor; [|constructor].
  rewrite (Q.max_l (duration f) (1 # 1000000)) by assumption. reflexivity.
Qed.

End ReportFacts.

(** C5 at the fifth of five frames whose inference takes a twentieth of a
    second: one figure, 20. *)
Lemma C5_throughput_reports_witness :
  nth_error (reports_by_frame
               (events_of (run no_tool (demo_config 120) 0 (demo_world (1 # 20) 99 5)))) 4
  = Some (demo_frame (1 # 20) 99 4,
          [1 / Qmax (duration (demo_frame (1 # 20) 99 4)) (1 # 1000000)])
  /\ Forall (fun q => q == 20)
       [1 / Qmax (duration (demo_frame (1 # 20) 99 4)) (1 # 1000000)].
Proof.
  assert (Hk : nth_error (reports_by_frame
                 (events_of (run no_tool (demo_config 120) 0 (demo_world (1 # 20) 99 5)))) 4
               = Some (demo_frame (1 # 20) 99 4,
                       [1 / Qmax (duration (demo_frame (1 # 20) 99 4)) (1 # 1000000)]))
    by (vm_compute; reflexivity).
  split; [exact Hk|].
  destruct (C5_throughput_reports no_tool (demo_config 120) 0 (demo_world (1 # 20) 99 5)
              4 _ _ Hk) as [_ Hd].
  assert (Hmin : (1 # 1000000) <= duration (demo_frame (1 # 20) 99 4))
    by (vm_compute; discriminate).
  eapply Forall_impl; [|exact (Hd Hmin)].
  intros q Hq. rewrite Hq. vm_compute. reflexivity.
Defined.

(** The claim as stated fails under the clamp: when inference takes a
    ten-millionth of a second, the figure written for the fifth frame is
    1000000 and not 1/d = 10000000. *)
Lemma C5_counterexample :
  exists f q,
    nth_error (reports_by_frame
                 (events_of (run no_tool (demo_config 120) 0
                               (demo_world (1 # 10000000) 99 5)))) 4
    = Some (f, [q])
    /\ Qred q = 1000000 /\ Qred (1 / duration f) = 10000000
    /\ ~ q == 1 / duration f.
Proof.
  eexists _, _. split; [vm_compute; reflexivity|].
  split; [vm_compute; reflexivity|].
  split; [vm_compute; reflexivity|].
  vm_compute. discriminate.
Qed.

(** ** The reader threads when the tool is absent *)
Section AbsentFacts.

Variable h : host.
Hypothesis absent : tool_absent h.

Lemma forallb_firstn {A} (p : A -> bool) (l : list A) : forall n,
  forallb p l = true -> forallb p (firstn n l) = true.
Proof.
  induction l as [|x l IH]; intros [|n] H; simpl in *; auto.
  apply andb_true_iff in H as [Hx Hl]. now rewrite Hx, IH.
Qed.

Lemma forallb_skipn {A} (p : A -> bool) (l : list A) : forall n,
  forallb p l = true -> forallb p (skipn n l) = true.
Proof.
  induction l as [|x l IH]; intros [|n] H; simpl in *; auto.
  apply andb_true_iff in H as [Hx Hl]. now apply IH.
Qed.

Lemma step_thread_absent t m ths :
  forallb idle ths = true ->
  exists ths', step_thread h t m ths = (m, ths') /\ forallb idle ths' = true.
Proof.
  intros Hi. unfold step_thread.
  destruct (nth_error ths t) as [th|] eqn:E; [|eauto].
  assert (Hth : idle th = true).
  { apply nth_error_In in E. rewrite forallb_forall in Hi. now apply Hi. }
  rewrite (thread_step_absent h th m absent Hth).
  eexists. split; [reflexivity|].
  rewrite forallb_app. apply andb_true_iff. split; [now apply forallb_firstn|].
  cbn [forallb idle andb]. now apply forallb_skipn.
Qed.

Lemma schedule_absent ts : forall m ths,
  forallb idle ths = true ->
  exists ths', schedule h ts m ths = (m, ths') /\ forallb idle ths' = true.
Proof.
  induction ts as [|t ts IH]; intros m ths Hi; simpl; [eauto|].
  destruct (step_thread_absent t m ths Hi) as (ths1 & -> & Hi1).
  now apply IH.
Qed.

Lemma start_idle m ths :
  forallb idle ths = true -> forallb idle (snd (start m ths)) = true.
Proof.
  intros Hi. unfold start.
  destruct (match _thread m with
            | Some t => negb (is_alive ths t)
            | None => true
            end); simpl; [|assumption].
  rewrite forallb_app, Hi. reflexivity.
Qed.

Lemma start_blank m ths : blank (fst (start m ths)) = blank m.
Proof.
  unfold start.
  destruct (match _thread m with
            | Some t => negb (is_alive ths t)
            | None => true
            end); reflexivity.
Qed.

(** Whatever is done to the monitor, [latest] has nothing to return. *)
Lemma run_ops_absent ops : forall m ths,
  blank m = true -> forallb idle ths = true ->
  run_ops h ops m ths = repeat (None, EmptyString) (List.length (filter
    (fun o => match o with OpLatest => true | _ => false end) ops)).
Proof.
  induction ops as [|o ops IH]; intros m ths Hb Hi; simpl; [reflexivity|].
  destruct o as [t| |].
  - destruct (step_thread_absent t m ths Hi) as (ths1 & -> & Hi1). now apply IH.
  - destruct (start m ths) as [m1 ths1] eqn:E.
    apply IH.
    + rewrite <- (start_blank m ths), E in Hb. exact Hb.
    + pose proof (start_idle m ths Hi) as H1. now rewrite E in H1.
  - unfold latest. unfold blank in Hb. apply andb_true_iff in Hb as [Hq Hl].
    destruct (_queue m) as [|x q] eqn:Eq; [|discriminate]. simpl.
    apply String.eqb_eq in Hl. rewrite Hl. f_equal.
    apply IH; [|assumption]. unfold blank. simpl. now rewrite Hl.
Qed.

Variable cfg : config.

Lemma read_world_parts cap f w :
  caps (read_world h cap f w) = update_cap cap advanced (caps w)
  /\ session_state (read_world h cap f w) = session_state w.
Proof.
  unfold read_world, advance, background. rewrite bind_modify.
  unfold world_of, modify. simpl.
  destruct (monitor_cache w) as [m|]; [|auto].
  destruct (schedule h (sched f) m (threads w)); auto.
Qed.

Lemma read_world_silent cap f w :
  silent w = true -> silent (read_world h cap f w) = true.
Proof.
  intros Hs. apply silent_parts in Hs as [Hm Hi].
  unfold read_world, advance, background. rewrite bind_modify.
  unfold world_of, modify. simpl.
  destruct (monitor_cache w) as [m|] eqn:Em.
  - destruct (schedule_absent (sched f) m (threads w) Hi) as (ths' & -> & Hi').
    apply silent_parts. simpl. auto.
  - apply silent_parts. simpl. rewrite Em. auto.
Qed.

Lemma telemetry_app evs1 evs2 :
  telemetry (evs1 ++ evs2) = (telemetry evs1 ++ telemetry evs2)%list.
Proof. apply filter_app. Qed.

Lemma images_app evs1 evs2 : images (evs1 ++ evs2) = (images evs1 + images evs2)%nat.
Proof. unfold images. now rewrite filter_app, List.length_app. Qed.

Lemma images_display revs : forallb is_display revs = true -> images revs = 0%nat.
Proof.
  unfold images. induction revs as [|e revs IH]; simpl; [reflexivity|].
  intros H. apply andb_true_iff in H as [He Hr].
  destruct e; simpl in *; try discriminate; auto.
Qed.

(** With the tool absent and nothing read so far, the loop stays silent and
    shows the placeholder once per image. *)
Lemma frames_loop_silent cap frames : forall st w,
  silent w = true ->
  silent (world_of (frames_loop h cfg cap frames st w)) = true
  /\ telemetry (events_of (frames_loop h cfg cap frames st w))
     = repeat (StCaption waiting_text)
         (images (events_of (frames_loop h cfg cap frames st w))).
Proof.
  induction frames as [|f rest IH]; intros st w Hs.
  - simpl. auto.
  - pose proof (read_world_silent cap f w Hs) as Hs1.
    destruct (frames_loop_step h cfg cap f rest st w)
      as [(Hov & ->) | (iv & Hiv & [(Hlt & ->) | [(Hge & Hp & ->)
          | (Hge & a & w2 & revs & Hp & Hd & _ & _ & Hsil & ->)]])].
    + simpl. auto.
    + now apply IH.
    + simpl. auto.
    + destruct (Hsil Hs1) as [Hs2 Ht].
      destruct (IH (emitted_state f st) w2 Hs2) as [Hs3 Ht3].
      split; [exact Hs3|].
      unfold events_of at 1 3. cbn [snd].
      rewrite telemetry_app, images_app, Ht3.
      assert (E1 : telemetry (Predict f :: fps_events (frame_count st + 1) f ++ Image a :: revs)
                   = [StCaption waiting_text]).
      { unfold fps_events.
        destruct ((frame_count st + 1) mod 5 =? 0)%Z; simpl; exact Ht. }
      assert (E2 : images (Predict f :: fps_events (frame_count st + 1) f ++ Image a :: revs)
                   = 1%nat).
      { pose proof (images_display revs Hd) as Hi0. unfold fps_events.
        destruct ((frame_count st + 1) mod 5 =? 0)%Z; unfold images in *; simpl;
          now rewrite Hi0. }
      rewrite E1, E2. reflexivity.
Qed.

End AbsentFacts.

(** ** What a run leaves behind *)
Section RunFacts.

Variable h : host.
Variable cfg : config.

Lemma opened_at_update cap f l w i :
  (forall c, cap_opened (f c) = cap_opened c) ->
  caps w = update_cap cap f l ->
  opened_at w i = option_map cap_opened (nth_error l i).
Proof.
  intros Hf E. unfold opened_at. rewrite E, update_cap_nth.
  destruct (i =? cap)%nat; [|reflexivity].
  destruct (nth_error l i); simpl; [now rewrite Hf | reflexivity].
Qed.

Lemma read_world_opened cap f w i :
  opened_at (read_world h cap f w) i = opened_at w i.
Proof.
  apply (opened_at_update cap advanced); [reflexivity|].
  apply read_world_parts.
Qed.

Lemma buffered_opened cap w i : opened_at (buffered_world cap w) i = opened_at w i.
Proof.
  destruct (buffered_cases cap w) as [-> | (c & Hc & ->)]; [reflexivity|].
  now apply (opened_at_update cap (with_buffersize 1)).
Qed.

Lemma buffered_session cap w :
  session_state (buffered_world cap w) = session_state w.
Proof.
  destruct (buffered_cases cap w) as [-> | (c & Hc & ->)]; reflexivity.
Qed.

Lemma buffered_silent cap w : silent (buffered_world cap w) = silent w.
Proof.
  destruct (buffered_cases cap w) as [-> | (c & Hc & ->)]; reflexivity.
Qed.

Lemma opened_at_caps w w' i : caps w' = caps w -> opened_at w' i = opened_at w i.
Proof. unfold opened_at. now intros ->. Qed.

(** The loop opens and closes nothing and leaves the session alone. *)
Lemma frames_loop_keeps cap frames : forall st w,
  (forall i, opened_at (world_of (frames_loop h cfg cap frames st w)) i = opened_at w i)
  /\ session_state (world_of (frames_loop h cfg cap frames st w)) = session_state w.
Proof.
  induction frames as [|f rest IH]; intros st w.
  - simpl. auto.
  - destruct (read_world_parts h cap f w) as [_ Hsess].
    destruct (frames_loop_step h cfg cap f rest st w)
      as [(Hov & ->) | (iv & Hiv & [(Hlt & ->) | [(Hge & Hp & ->)
          | (Hge & a & w2 & revs & Hp & Hd & Hc & Hs & _ & ->)]])].
    + unfold world_of. simpl. split; [intros i; apply read_world_opened | assumption].
    + destruct (IH st (read_world h cap f w)) as [H1 H2]. split.
      * intros i. now rewrite H1, read_world_opened.
      * congruence.
    + unfold world_of. simpl. split; [intros i; apply read_world_opened | assumption].
    + destruct (IH (emitted_state f st) w2) as [H1 H2].
      unfold world_of at 1 3. cbn [fst snd]. split.
      * intros i. rewrite H1, (opened_at_caps _ _ i Hc). apply read_world_opened.
      * congruence.
Qed.

(** The loop ends normally when the divisor converts to a float and no
    inference call fails. *)
Lemma frames_loop_ok cap frames : forall st w,
  (Z.max (max_fps cfg) 1 < Float.int_bound)%Z ->
  Forall (fun f => prediction f <> None) frames ->
  exists st', result_of (frames_loop h cfg cap frames st w) = Ok st'.
Proof.
  induction frames as [|f rest IH]; intros st w Hfit Hall.
  - exists st. reflexivity.
  - inversion Hall as [|? ? Hf Hrest]; subst.
    destruct (frames_loop_step h cfg cap f rest st w)
      as [(Hov & ->) | (iv & Hiv & [(Hlt & ->) | [(Hge & Hp & ->)
          | (Hge & a & w2 & revs & Hp & _ & _ & _ & _ & ->)]])].
    + rewrite (throttle_interval_ok cfg Hfit) in Hov. discriminate.
    + now apply IH.
    + contradiction.
    + unfold result_of at 1. cbn [fst]. now apply IH.
Qed.

Lemma run_keeps cap w :
  (forall i, opened_at (world_of (run h cfg cap w)) i = opened_at w i)
  /\ session_state (world_of (run h cfg cap w)) = session_state w.
Proof.
  rewrite run_unfold. unfold world_of at 1 3. cbn [fst snd].
  destruct (frames_loop_keeps cap (pending cap w) initial_state (buffered_world cap w))
    as [H1 H2].
  split.
  - intros i. now rewrite H1, buffered_opened.
  - now rewrite H2, buffered_session.
Qed.

Lemma run_ok cap w :
  (Z.max (max_fps cfg) 1 < Float.int_bound)%Z ->
  Forall (fun f => prediction f <> None) (pending cap w) ->
  result_of (run h cfg cap w) = Ok tt.
Proof.
  intros Hfit Hall. rewrite run_unfold. unfold result_of at 1. cbn [fst].
  destruct (frames_loop_ok cap (pending cap w) initial_state (buffered_world cap w)
              Hfit Hall) as [st' ->]. reflexivity.
Qed.

Lemma run_result cap w : forall u, result_of (run h cfg cap w) = Ok u -> u = tt.
Proof. now intros []. Qed.

End RunFacts.

(** ** The tool is absent *)
Section AbsentClaims.
Local Open Scope string_scope.

(** C8.  With tegrastats absent, and nothing read from it so far: the
    reader returns at once, raising nothing and writing neither a sample
    nor a raw line; on the monitor as [get_metrics_monitor] builds it,
    every [latest], among any steps of the threads and further [start]
    calls, returns (None, ""); and a run of the loop shows the "Waiting for
    tegrastats..." caption once per image shown and nothing else for
    telemetry, stays in that state, and returns normally when no inference
    call fails (and the rate is one that converts to a float, as every
    rate of the slider is). *)
Theorem C8_tool_absent (h : host) (cfg : config) (cap : nat) (w : world)
  (m : monitor) (ops : list monitor_op) :
  tool_absent h ->
  silent w = true ->
  _reader h m = (m, Ok tt)
  /\ thread_step h Created m = (m, Finished)
  /\ silent (world_of (get_metrics_monitor empty_world)) = true
  /\ Forall (fun r => r = (None, ""))
       (run_ops h ops (fst (start init [])) (snd (start init [])))
  /\ telemetry (events_of (run h cfg cap w))
     = repeat (StCaption waiting_text) (images (events_of (run h cfg cap w)))
  /\ silent (world_of (run h cfg cap w)) = true
  /\ ((max_fps cfg < Float.int_bound)%Z ->
      Forall (fun f => prediction f <> None) (pending cap w) ->
      result_of (run h cfg cap w) = Ok tt).
Proof.
  intros Habs Hs.
  split; [now apply reader_absent|].
  split; [now apply thread_step_absent|].
  split; [reflexivity|].
  split.
  { rewrite (run_ops_absent h Habs ops) by reflexivity.
    apply Forall_forall. intros r Hr. now apply repeat_spec in Hr. }
  assert (Hb : silent (buffered_world cap w) = true) by now rewrite buffered_silent.
  destruct (frames_loop_silent h Habs cfg cap (pending cap w) initial_state
              (buffered_world cap w) Hb) as [H1 H2].
  split; [|split].
  - rewrite run_unfold. unfold events_of at 1 3. cbn [snd]. exact H2.
  - rewrite run_unfold. unfold world_of at 1. cbn [fst snd]. exact H1.
  - intros Hfit. apply run_ok.
    apply Z.max_lub_lt; [exact Hfit | reflexivity].
Qed.

End AbsentClaims.

(** C8 on the example machine without the tool: ten frames, five shown,
    each with the placeholder. *)
Lemma C8_tool_absent_witness :
  tool_absent no_tool
  /\ silent (demo_world (1 # 20) 99 10) = true
  /\ telemetry (events_of (run no_tool (demo_config 5) 0 (demo_world (1 # 20) 99 10)))
     = repeat (StCaption waiting_text) 5
  /\ result_of (run no_tool (demo_config 5) 0 (demo_world (1 # 20) 99 10)) = Ok tt.
Proof.
  assert (Ha : tool_absent no_tool) by reflexivity.
  assert (Hs : silent (demo_world (1 # 20) 99 10) = true) by reflexivity.
  pose proof (C8_tool_absent no_tool (demo_config 5) 0 (demo_world (1 # 20) 99 10)
                init [OpLatest; OpStep 0; OpStart; OpLatest] Ha Hs)
    as (_ & _ & _ & _ & Ht & _ & Hok).
  split; [exact Ha|]. split; [exact Hs|]. split.
  - rewrite Ht. vm_compute. reflexivity.
  - apply Hok; [vm_compute; reflexivity|].
    vm_compute. repeat constructor; discriminate.
Defined.

(** ** The throttle interval *)
Section ThrottleClaims.
Local Open Scope Q_scope.



End ThrottleClaims.

(** The claim as stated fails for a rate that does not convert to a float:
    at [max_fps = 2^1024] the expression raises [OverflowError], and the
    loop ends with that exception on the first frame it reads, before any
    inference call. *)
Lemma C9_counterexample :
  throttle_interval (demo_config (2 ^ 1024)) = Raise OverflowError
  /\ result_of (run no_tool (demo_config (2 ^ 1024)) 0 (demo_world (1 # 20) 99 3))
     = Raise OverflowError
  /\ events_of (run no_tool (demo_config (2 ^ 1024)) 0 (demo_world (1 # 20) 99 3)) = []
  /\ List.length (pending 0 (world_of (run no_tool (demo_config (2 ^ 1024)) 0
                                        (demo_world (1 # 20) 99 3)))) = 2%nat.
Proof.
  split; [vm_compute; reflexivity|].
  split; [vm_compute; reflexivity|].
  split; vm_compute; reflexivity.
Qed.

(** ** Releasing the capture *)
Section OutcomeLaws.

Lemma outcome_get {B} (k : world -> M B) (w : world) :
  outcome (bind get k w) = outcome (k w w).
Proof. unfold outcome, bind, get. now destruct (k w w) as [[r w2] ev2]. Qed.

Lemma outcome_emit {B} (e : event) (k : unit -> M B) (w : world) :
  outcome (bind (emit e) k w) = outcome (k tt w).
Proof. unfold outcome, bind, emit. now destruct (k tt w) as [[r w2] ev2]. Qed.

Lemma outcome_modify {B} (g : world -> world) (k : unit -> M B) (w : world) :
  outcome (bind (modify g) k w) = outcome (k tt (g w)).
Proof. now rewrite bind_modify. Qed.

Lemma outcome_ok {A B} (m : M A) (k : A -> M B) (w w1 : world) (a : A) :
  outcome (m w) = (Ok a, w1) -> outcome (bind m k w) = outcome (k a w1).
Proof.
  unfold outcome, bind. destruct (m w) as [[r w'] ev1]. simpl.
  intros E. inversion E; subst. now destruct (k a w1) as [[r2 w2] ev2].
Qed.

Lemma outcome_raise {A B} (m : M A) (k : A -> M B) (w w1 : world) (e : exc) :
  outcome (m w) = (Raise e, w1) -> outcome (bind m k w) = (Raise e, w1).
Proof.
  unfold outcome, bind. destruct (m w) as [[r w'] ev1]. simpl.
  intros E. now inversion E; subst.
Qed.

Lemma outcome_parts {A} (r : exn A * world * list event) :
  outcome r = (result_of r, world_of r).
Proof. now destruct r as [[x w] ev]. Qed.

End OutcomeLaws.

Section ReleaseFacts.

Variable h : host.
Variable cv : cv2.
Variable cfg : config.

(** The world after [cap.release()]. *)
Lemma release_opened cap w i :
  opened_at (set_caps (update_cap cap released (caps w)) w) i
  = if (i =? cap)%nat then option_map (fun _ => false) (opened_at w i)
    else opened_at w i.
Proof.
  unfold opened_at. simpl. rewrite update_cap_nth.
  destruct (i =? cap)%nat; [|reflexivity]. now destruct (nth_error (caps w) i).
Qed.

Lemma opened_world_at src w i :
  opened_at (opened_world cv src w) i
  = if (i <? List.length (caps w))%nat then opened_at w i
    else if (i =? List.length (caps w))%nat
         then Some (cap_opened (new_capture cv (attempts w) src))
         else None.
Proof.
  unfold opened_at. simpl.
  destruct (Nat.ltb_spec i (List.length (caps w))).
  - now rewrite nth_error_app1.
  - rewrite nth_error_app2 by assumption.
    destruct (Nat.eqb_spec i (List.length (caps w))) as [->|Hne].
    + now rewrite Nat.sub_diag.
    + destruct (i - List.length (caps w))%nat as [|[|k]] eqn:E; simpl; try reflexivity. lia.
Qed.

Lemma low_buffer_world_at src w i :
  opened_at (low_buffer_world cv src w) i = opened_at (opened_world cv src w) i.
Proof.
  unfold low_buffer_world.
  destruct (cap_set_ok (new_capture cv (attempts w) src)); [|reflexivity].
  unfold opened_at. simpl.
  destruct (Nat.ltb_spec i (List.length (caps w))).
  - now rewrite !nth_error_app1.
  - rewrite !nth_error_app2 by assumption.
    now destruct (i - List.length (caps w))%nat as [|[|k]].
Qed.

(** The three routes that open, run and release, once the capture is
    there. *)
Lemma run_and_release_outcome cap err w :
  outcome (run_and_release h cfg (Some cap) err w) =
    match result_of (run h cfg cap w) with
    | Ok _ => (Ok tt, set_caps (update_cap cap released (caps (world_of (run h cfg cap w))))
                        (world_of (run h cfg cap w)))
    | Raise e => (Raise e, world_of (run h cfg cap w))
    end.
Proof.
  unfold run_and_release.
  destruct (result_of (run h cfg cap w)) as [u|e] eqn:E.
  - rewrite (outcome_ok _ _ w (world_of (run h cfg cap w)) u)
      by (rewrite outcome_parts; now rewrite E).
    unfold release. rewrite outcome_modify. reflexivity.
  - apply outcome_raise. rewrite outcome_parts. now rewrite E.
Qed.

(** After [run] and [release] the capture is closed, and no other capture
    has been opened. *)
Lemma run_and_release_closed cap err w :
  result_of (run_and_release h cfg (Some cap) err w) = Ok tt ->
  forall i,
    opened_at (world_of (run_and_release h cfg (Some cap) err w)) i
    = if (i =? cap)%nat then option_map (fun _ => false) (opened_at w i)
      else opened_at w i.
Proof.
  intros Hok i.
  pose proof (run_and_release_outcome cap err w) as Ho.
  rewrite outcome_parts in Ho. rewrite Hok in Ho.
  destruct (result_of (run h cfg cap w)) as [u|e]; [|discriminate].
  injection Ho as Hw. unfold run_and_release. rewrite Hw, release_opened.
  destruct (run_keeps h cfg cap w) as [Hk _]. now rewrite !Hk.
Qed.

(** An exception in the loop leaves [run] and the route, and [release] is
    not reached. *)
Lemma run_and_release_raise cap err w e :
  result_of (run h cfg cap w) = Raise e ->
  result_of (run_and_release h cfg (Some cap) err w) = Raise e
  /\ forall i, opened_at (world_of (run_and_release h cfg (Some cap) err w)) i
               = opened_at w i.
Proof.
  intros Hr.
  pose proof (run_and_release_outcome cap err w) as Ho.
  rewrite outcome_parts, Hr in Ho. injection Ho as H1 H2.
  unfold run_and_release. split; [assumption|]. intros i. rewrite H2. apply run_keeps.
Qed.

Lemma open_source_outcome (src : source) (w : world) :
  accepted src = true ->
  outcome ((cap <- VideoCapture cv src ;;
            ok <- isOpened cap ;;
            ret (if ok then Some cap else None))%monad w)
  = (Ok (if cap_opened (new_capture cv (attempts w) src)
         then Some (List.length (caps w)) else None),
     opened_world cv src w).
Proof.
  intros Hacc.
  rewrite (outcome_ok _ _ w (opened_world cv src w) (List.length (caps w)))
    by now rewrite VideoCapture_spec.
  rewrite (outcome_ok _ _ _ (opened_world cv src w)
             (cap_opened (new_capture cv (attempts w) src)))
    by now rewrite isOpened_new.
  reflexivity.
Qed.

(** A route that opens [src], runs and releases: when it returns, no
    capture it created is open. *)
Lemma open_run_release_closed (src : source) (err : string) (w : world) :
  accepted src = true ->
  let r := ((cap <- (cap <- VideoCapture cv src ;;
                     ok <- isOpened cap ;;
                     ret (if ok then Some cap else None)) ;;
             run_and_release h cfg cap err)%monad w) in
  result_of r = Ok tt ->
  forall i, (List.length (caps w) <= i)%nat -> opened_at (world_of r) i <> Some true.
Proof.
  intros Hacc r Hok i Hi. subst r.
  pose proof (outcome_ok _ (fun cap => run_and_release h cfg cap err) w _ _
                (open_source_outcome src w Hacc)) as Ho.
  rewrite !outcome_parts in Ho. injection Ho as H1 H2.
  rewrite H1 in Hok. rewrite H2. clear H1 H2.
  destruct (cap_opened (new_capture cv (attempts w) src)) eqn:Hc.
  - rewrite (run_and_release_closed _ err _ Hok), opened_world_at.
    destruct (Nat.ltb_spec i (List.length (caps w))); [lia|].
    destruct (i =? List.length (caps w))%nat; simpl; discriminate.
  - unfold run_and_release, world_of, emit. simpl. fold (opened_at (opened_world cv src w) i).
    rewrite opened_world_at.
    destruct (Nat.ltb_spec i (List.length (caps w))); [lia|].
    rewrite Hc. destruct (i =? List.length (caps w))%nat; discriminate.
Qed.

End ReleaseFacts.

Section UdpFacts.
Local Open Scope string_scope.

Variable h : host.
Variable cv : cv2.
Variable cfg : config.

Lemma udp_stop_idle stop w :
  udp_running (session_state w) = false ->
  outcome (udp_stop stop w) = (Ok tt, w).
Proof.
  intros Hr. unfold udp_stop. rewrite outcome_get, Hr, andb_false_r. reflexivity.
Qed.

(** The Stop branch: the capture kept in the session is closed afterwards
    and the route is no longer marked as running. *)
Lemma udp_stop_outcome w cap :
  udp_running (session_state w) = true ->
  udp_cap (session_state w) = Some cap ->
  result_of (udp_stop true w) = Ok tt
  /\ opened_at (world_of (udp_stop true w)) cap <> Some true
  /\ udp_running (session_state (world_of (udp_stop true w))) = false
  /\ (forall i, i <> cap -> opened_at (world_of (udp_stop true w)) i = opened_at w i).
Proof.
  intros Hr Hc.
  assert (Ho : exists w',
             outcome (udp_stop true w) = (Ok tt, w')
             /\ opened_at w' cap <> Some true
             /\ udp_running (session_state w') = false
             /\ (forall i, i <> cap -> opened_at w' i = opened_at w i)).
  { unfold udp_stop. rewrite outcome_get, Hr, Hc. cbn [andb].
    destruct (nth_error (caps w) cap) as [c|] eqn:E.
    - destruct (cap_opened c) eqn:Eo.
      + eexists. split.
        * rewrite (outcome_ok _ _ w (set_caps (update_cap cap released (caps w)) w) tt).
          { unfold set_udp_running. rewrite outcome_modify. reflexivity. }
          rewrite (outcome_ok _ _ w w true)
            by (unfold isOpened, outcome, bind, get, ret; simpl; now rewrite E, Eo).
          reflexivity.
        * split; [|split].
          -- unfold opened_at. simpl. rewrite update_cap_nth, Nat.eqb_refl, E. discriminate.
          -- reflexivity.
          -- intros i Hi. unfold opened_at. simpl. rewrite update_cap_nth.
             destruct (Nat.eqb_spec i cap); [contradiction | reflexivity].
      + eexists. split.
        * rewrite (outcome_ok _ _ w w tt).
          { unfold set_udp_running. rewrite outcome_modify. reflexivity. }
          rewrite (outcome_ok _ _ w w false)
            by (unfold isOpened, outcome, bind, get, ret; simpl; now rewrite E, Eo).
          reflexivity.
        * split; [|split].
          -- unfold opened_at. simpl. rewrite E. simpl. rewrite Eo. discriminate.
          -- reflexivity.
          -- reflexivity.
    - eexists. split.
      + rewrite (outcome_ok _ _ w w tt).
        { unfold set_udp_running. rewrite outcome_modify. reflexivity. }
        rewrite (outcome_ok _ _ w w false)
          by (unfold isOpened, outcome, bind, get, ret; simpl; now rewrite E).
        reflexivity.
      + split; [|split].
        * unfold opened_at. simpl. rewrite E. discriminate.
        * reflexivity.
        * reflexivity. }
  destruct Ho as (w' & Ho & H1 & H2 & H3).
  rewrite outcome_parts in Ho. injection Ho as Hres Hw. rewrite Hw. auto.
Qed.

(** The Start branch once a capture is open. *)
Lemma udp_started_outcome cap info stop w :
  let w1 := set_session {| udp_running := true; udp_cap := Some cap |} w in
  outcome ((emit (StInfo info) ;;
            set_udp_cap (Some cap) ;;
            set_udp_running true ;;
            run h cfg cap ;;
            release cap ;;
            set_udp_running false ;;
            emit (StSuccess "UDP stream finished.") ;;
            udp_stop stop)%monad w)
  = match result_of (run h cfg cap w1) with
    | Ok _ =>
        (Ok tt,
         set_session {| udp_running := false; udp_cap := Some cap |}
           (set_caps (update_cap cap released (caps (world_of (run h cfg cap w1))))
              (world_of (run h cfg cap w1))))
    | Raise e => (Raise e, world_of (run h cfg cap w1))
    end.
Proof.
  intros w1. rewrite outcome_emit. unfold set_udp_cap, set_udp_running at 1.
  rewrite !outcome_modify. cbn [session_state set_session udp_running udp_cap].
  change (set_session {| udp_running := true; udp_cap := Some cap |}
            (set_session {| udp_running := udp_running (session_state w);
                            udp_cap := Some cap |} w)) with w1.
  destruct (run_keeps h cfg cap w1) as [_ Hsess].
  destruct (result_of (run h cfg cap w1)) as [u|e] eqn:E.
  - rewrite (outcome_ok _ _ w1 (world_of (run h cfg cap w1)) u)
      by (rewrite outcome_parts; now rewrite E).
    unfold release, set_udp_running. rewrite !outcome_modify, outcome_emit.
    cbn [session_state set_session set_caps udp_running udp_cap].
    rewrite Hsess. cbn [session_state set_session w1 udp_cap].
    now rewrite udp_stop_idle.
  - apply outcome_raise. rewrite outcome_parts. now rewrite E.
Qed.

Lemma open_udp_outcome port w :
  outcome (open_udp_ffmpeg cv port w)
  = fst (let url1 := FFMPEG_URL_BIND_ANY port in
         let url2 := FFMPEG_URL_BIND_ALL port in
         let w1 := opened_world cv (Url url1) w in
         if cap_opened (new_capture cv (attempts w) (Url url1))
         then (Ok (Some (List.length (caps w)), Some url1),
               low_buffer_world cv (Url url1) w, @nil event)
         else if cap_opened (new_capture cv (attempts w1) (Url url2))
         then (Ok (Some (List.length (caps w1)), Some url2),
               low_buffer_world cv (Url url2) w1, [])
         else (Ok (None, None), opened_world cv (Url url2) w1, [])).
Proof. now rewrite open_udp_ffmpeg_spec. Qed.

(** After [run] and [release] on a started capture nothing new is open. *)
Lemma udp_started_closed cap info stop w n :
  (n <= cap)%nat ->
  (forall i, (n <= i)%nat -> i <> cap -> opened_at w i <> Some true) ->
  let r := ((emit (StInfo info) ;;
             set_udp_cap (Some cap) ;;
             set_udp_running true ;;
             run h cfg cap ;;
             release cap ;;
             set_udp_running false ;;
             emit (StSuccess "UDP stream finished.") ;;
             udp_stop stop)%monad w) in
  result_of r = Ok tt ->
  (forall i, (n <= i)%nat -> opened_at (world_of r) i <> Some true)
  /\ udp_running (session_state (world_of r)) = false.
Proof.
  intros Hn Hothers r Hok. subst r.
  pose proof (udp_started_outcome cap info stop w) as Ho. cbv zeta in Ho.
  rewrite outcome_parts, Hok in Ho.
  set (w1 := set_session {| udp_running := true; udp_cap := Some cap |} w) in *.
  destruct (result_of (run h cfg cap w1)) as [u|e]; [|discriminate].
  injection Ho as Hw. rewrite Hw. split; [|reflexivity].
  intros i Hi.
  change (opened_at (set_caps (update_cap cap released (caps (world_of (run h cfg cap w1))))
                       (world_of (run h cfg cap w1))) i <> Some true).
  rewrite release_opened.
  destruct (run_keeps h cfg cap w1) as [Hk _]. rewrite Hk.
  change (opened_at w1 i) with (opened_at w i).
  destruct (Nat.eqb_spec i cap) as [->|Hne].
  - destruct (opened_at w cap); discriminate.
  - now apply Hothers.
Qed.

End UdpFacts.

Section ReleaseClaims.
Local Open Scope string_scope.

Variable h : host.
Variable cv : cv2.
Variable cfg : config.

Lemma outcome_eq {A} (r1 r2 : exn A * world * list event) :
  outcome r1 = outcome r2 -> result_of r1 = result_of r2 /\ world_of r1 = world_of r2.
Proof. rewrite !outcome_parts. intros E. now injection E. Qed.

Lemma route_udp_start_closed port stop w :
  udp_running (session_state w) = false ->
  result_of (route_udp h cv cfg port true stop w) = Ok tt ->
  (forall i, (List.length (caps w) <= i)%nat ->
             opened_at (world_of (route_udp h cv cfg port true stop w)) i <> Some true)
  /\ udp_running (session_state (world_of (route_udp h cv cfg port true stop w))) = false.
Proof.
  intros Hrun Hok.
  set (url1 := FFMPEG_URL_BIND_ANY port).
  set (url2 := FFMPEG_URL_BIND_ALL port).
  set (w1 := opened_world cv (Url url1) w).
  pose proof (open_udp_outcome cv port w) as Hopen. cbv zeta in Hopen.
  fold url1 url2 w1 in Hopen.
  assert (Hroute : forall r wo,
            outcome (open_udp_ffmpeg cv port w) = (Ok r, wo) ->
            outcome (route_udp h cv cfg port true stop w)
            = outcome (match r with
                       | (None, _) =>
                           emit (StError "Cannot open UDP stream. Verify sender IP/port, host networking or port mapping, and try a different port.")
                       | (Some cap, used_url) =>
                           (emit (StInfo ("UDP opened via FFmpeg URL: "
                                          ++ match used_url with Some u => u | None => "None" end)) ;;
                            set_udp_cap (Some cap) ;;
                            set_udp_running true ;;
                            run h cfg cap ;;
                            release cap ;;
                            set_udp_running false ;;
                            emit (StSuccess "UDP stream finished.") ;;
                            udp_stop stop)%monad
                       end wo)).
  { intros r wo Ho. unfold route_udp. rewrite outcome_get, Hrun. cbn [andb negb].
    rewrite (outcome_ok _ _ w wo r Ho). reflexivity. }
  destruct (cap_opened (new_capture cv (attempts w) (Url url1))) eqn:H1.
  - (* the first URL opened *)
    specialize (Hroute _ _ Hopen). apply outcome_eq in Hroute as [Hres Hw].
    rewrite Hres in Hok. rewrite Hw.
    apply (udp_started_closed h cfg (List.length (caps w)) _ stop _ (List.length (caps w)));
      [lia | | exact Hok].
    intros i Hi Hne. rewrite low_buffer_world_at, opened_world_at.
    destruct (Nat.ltb_spec i (List.length (caps w))); [lia|].
    destruct (Nat.eqb_spec i (List.length (caps w))); [contradiction | discriminate].
  - destruct (cap_opened (new_capture cv (attempts w1) (Url url2))) eqn:H2.
    + (* the second URL opened; the first capture is closed *)
      specialize (Hroute _ _ Hopen). apply outcome_eq in Hroute as [Hres Hw].
      rewrite Hres in Hok. rewrite Hw.
      assert (Hlen : List.length (caps w1) = S (List.length (caps w)))
        by (simpl; rewrite List.length_app; simpl; lia).
      apply (udp_started_closed h cfg (List.length (caps w1)) _ stop _ (List.length (caps w)));
        [lia | | exact Hok].
      intros i Hi Hne. rewrite low_buffer_world_at, opened_world_at.
      destruct (Nat.ltb_spec i (List.length (caps w1))).
      * assert (i = List.length (caps w)) by lia. subst i.
        unfold w1. rewrite opened_world_at, Nat.ltb_irrefl, Nat.eqb_refl, H1. discriminate.
      * destruct (Nat.eqb_spec i (List.length (caps w1))); [contradiction | discriminate].
    + (* neither opened *)
      specialize (Hroute _ _ Hopen). apply outcome_eq in Hroute as [Hres Hw].
      rewrite Hw. unfold world_of, emit. cbn [fst snd].
      split; [|exact Hrun].
      intros i Hi.
      assert (Hlen : List.length (caps w1) = S (List.length (caps w)))
        by (simpl; rewrite List.length_app; simpl; lia).
      rewrite opened_world_at.
      destruct (Nat.ltb_spec i (List.length (caps w1))).
      * assert (i = List.length (caps w)) by lia. subst i.
        unfold w1. rewrite opened_world_at, Nat.ltb_irrefl, Nat.eqb_refl, H1. discriminate.
      * rewrite H2. destruct (i =? List.length (caps w1))%nat; discriminate.
Qed.

Lemma route_udp_stop_closed port start w cap :
  udp_running (session_state w) = true ->
  udp_cap (session_state w) = Some cap ->
  result_of (route_udp h cv cfg port start true w) = Ok tt
  /\ opened_at (world_of (route_udp h cv cfg port start true w)) cap <> Some true
  /\ udp_running (session_state (world_of (route_udp h cv cfg port start true w))) = false.
Proof.
  intros Hr Hc.
  assert (Ho : outcome (route_udp h cv cfg port start true w) = outcome (udp_stop true w)).
  { unfold route_udp. rewrite outcome_get, Hr. cbn [negb]. rewrite andb_false_r. reflexivity. }
  apply outcome_eq in Ho as [-> ->].
  destruct (udp_stop_outcome w cap Hr Hc) as (H1 & H2 & H3 & _). auto.
Qed.

(** C6 as amended.  In every route of [main] the capture is released when
    [run] returns: if the file, webcam or UDP route returns, no capture it
    created is open afterwards (and the UDP route is no longer marked as
    running).  The Stop branch of a later script run releases the capture
    kept in the session state while the route is marked as running.  When
    the loop raises, the exception leaves [run] and the route with every
    capture as it was: [release] is not reached. *)
Theorem C6_release_on_return :
  (forall choice w,
      result_of (route_file h cv cfg choice w) = Ok tt ->
      forall i, (List.length (caps w) <= i)%nat ->
                opened_at (world_of (route_file h cv cfg choice w)) i <> Some true)
  /\ (forall w,
         result_of (route_webcam h cv cfg w) = Ok tt ->
         forall i, (List.length (caps w) <= i)%nat ->
                   opened_at (world_of (route_webcam h cv cfg w)) i <> Some true)
  /\ (forall port stop w,
         udp_running (session_state w) = false ->
         result_of (route_udp h cv cfg port true stop w) = Ok tt ->
         (forall i, (List.length (caps w) <= i)%nat ->
                    opened_at (world_of (route_udp h cv cfg port true stop w)) i <> Some true)
         /\ udp_running (session_state (world_of (route_udp h cv cfg port true stop w)))
            = false)
  /\ (forall port start w cap,
         udp_running (session_state w) = true ->
         udp_cap (session_state w) = Some cap ->
         result_of (route_udp h cv cfg port start true w) = Ok tt
         /\ opened_at (world_of (route_udp h cv cfg port start true w)) cap <> Some true
         /\ udp_running (session_state (world_of (route_udp h cv cfg port start true w)))
            = false)
  /\ (forall cap err w e,
         result_of (run h cfg cap w) = Raise e ->
         result_of (run_and_release h cfg (Some cap) err w) = Raise e
         /\ forall i, opened_at (world_of (run_and_release h cfg (Some cap) err w)) i
                      = opened_at w i).
Proof.
  split; [|split; [|split; [|split]]].
  - intros choice w. apply (open_run_release_closed h cv cfg (File choice) _ w eq_refl).
  - intros w. apply (open_run_release_closed h cv cfg (Device 0) _ w eq_refl).
  - apply route_udp_start_closed.
  - apply route_udp_stop_closed.
  - apply run_and_release_raise.
Qed.

End ReleaseClaims.

(** The claim as stated fails when inference raises: on a file whose third
    frame makes [predict_annotated] raise, the route ends with that
    exception and the capture it opened is still open. *)
Lemma C6_counterexample :
  result_of (route_file no_tool (demo_cv (1 # 20) 2 3) (demo_config 5)
               "/videos/demo.mp4" empty_world)
  = Raise (Exception "predict")
  /\ opened_at (world_of (route_file no_tool (demo_cv (1 # 20) 2 3) (demo_config 5)
                            "/videos/demo.mp4" empty_world)) 0
     = Some true.
Proof. split; vm_compute; reflexivity. Qed.

(** The same on the UDP route: the capture stays open, kept in the session
    state with the route still marked as running. *)
Example udp_failure_keeps_capture :
  let r := route_udp no_tool (demo_cv (1 # 20) 2 3) (demo_config 5) 5000 true false
             empty_world in
  result_of r = Raise (Exception "predict")
  /\ opened_at (world_of r) 0 = Some true
  /\ session_state (world_of r) = {| udp_running := true; udp_cap := Some 0%nat |}.
Proof. repeat split; vm_compute; reflexivity. Qed.

(** C6 on the example file with no failing frame: the route returns and the
    capture it opened is closed. *)
Lemma C6_release_on_return_witness :
  result_of (route_file no_tool (demo_cv (1 # 20) 99 3) (demo_config 5)
               "/videos/demo.mp4" empty_world) = Ok tt
  /\ opened_at (world_of (route_file no_tool (demo_cv (1 # 20) 99 3) (demo_config 5)
                            "/videos/demo.mp4" empty_world)) 0
     <> Some true.
Proof.
  assert (Hok : result_of (route_file no_tool (demo_cv (1 # 20) 99 3) (demo_config 5)
                             "/videos/demo.mp4" empty_world) = Ok tt)
    by (vm_compute; reflexivity).
  split; [exact Hok|].
  apply (proj1 (C6_release_on_return no_tool (demo_cv (1 # 20) 99 3) (demo_config 5))
           "/videos/demo.mp4"%string empty_world Hok 0%nat).
  simpl. lia.
Defined.

(** * Further properties of the code *)

(** ** What the reader leaves in the monitor *)
Section ReaderFacts.
Local Open Scope string_scope.

Lemma last_sample_acc lines : forall acc,
  last_sample lines acc
  = match last_sample lines None with
    | Some d => Some d
    | None => acc
    end.
Proof.
  induction lines as [|line rest IH]; intros acc; simpl; [reflexivity|].
  destruct (parse_line line) as [d|].
  - rewrite (IH (Some d)). now destruct (last_sample rest None).
  - apply IH.
Qed.

Lemma last_raw_after_cons line rest before :
  last_raw_after (line :: rest) before = last_raw_after rest (strip line).
Proof.
  unfold last_raw_after. simpl.
  destruct (rev rest) as [|x l] eqn:E; simpl; reflexivity.
Qed.

(** Feeding lines to a monitor whose queue is within its bound. *)
Lemma reader_lines_spec lines : forall m,
  (List.length (_queue m) <= maxsize)%nat ->
  exists m',
    reader_lines m lines = (m', Ok tt)
    /\ _queue m' = match last_sample lines None with
                   | Some d => [d]
                   | None => _queue m
                   end
    /\ _last_raw m' = last_raw_after lines (_last_raw m)
    /\ _thread m' = _thread m /\ _proc m' = _proc m.
Proof.
  induction lines as [|line rest IH]; intros m Hb.
  - exists m. simpl. auto.
  - simpl reader_lines. rewrite last_raw_after_cons. simpl last_sample.
    destruct (parse_line line) as [d|] eqn:Hp.
    + rewrite (reader_line_match m line d Hb Hp).
      destruct (IH (set_queue [d] (set_last_raw (strip line) m)))
        as (m' & Hr & Hq & Hl & Ht & Hpr); [simpl; unfold maxsize; lia|].
      exists m'. rewrite Hr, Hq, Hl, Ht, Hpr, (last_sample_acc rest (Some d)).
      simpl. now destruct (last_sample rest None).
    + unfold reader_line. rewrite Hp.
      destruct (IH (set_last_raw (strip line) m)) as (m' & Hr & Hq & Hl & Ht & Hpr);
        [exact Hb|].
      exists m'. rewrite Hr, Hq, Hl, Ht, Hpr. simpl. auto.
Qed.

(** X1.  With the tool present and started, and the queue within its bound
    of one, [_reader] reads every line the tool prints and never stops on
    an exception of its own: afterwards the queue holds exactly the sample
    of the last line that parsed (or is as before when none did), the raw
    line is the last line read, stripped, whether it parsed or not, and
    the thread field is untouched. *)
Theorem X1_reader_keeps_freshest (h : host) (m : monitor) (lines : list string) :
  path_exists h (ts_path h) = true ->
  popen h (ts_path h) = Ok lines ->
  (List.length (_queue m) <= maxsize)%nat ->
  exists m',
    _reader h m = (m', Ok tt)
    /\ _queue m' = match last_sample lines None with
                   | Some d => [d]
                   | None => _queue m
                   end
    /\ (List.length (_queue m') <= maxsize)%nat
    /\ _last_raw m' = last_raw_after lines (_last_raw m)
    /\ _proc m' = Some (ts_path h)
    /\ _thread m' = _thread m.
Proof.
  intros He Hp Hb. unfold _reader, reader_enter. rewrite He, Hp. simpl negb. cbv iota.
  destruct (reader_lines_spec lines (set_proc (Some (ts_path h)) m) Hb)
    as (m' & Hr & Hq & Hl & Ht & Hpr).
  exists m'. rewrite Hr. repeat (split; [assumption || reflexivity|]).
  split; [|auto].
  rewrite Hq. destruct (last_sample lines None); simpl in *; [unfold maxsize; lia | exact Hb].
Qed.

End ReaderFacts.

(** X1 on a tool that prints a line that parses and then one that does
    not: the sample of the first stays queued, the raw line is the second. *)
Lemma X1_reader_keeps_freshest_witness :
  exists m',
    _reader (tool_prints [stats_space; " no stats here "%string]) init = (m', Ok tt)
    /\ _queue m' = [sample_space]
    /\ _last_raw m' = "no stats here"%string.
Proof.
  destruct (X1_reader_keeps_freshest
              (tool_prints [stats_space; " no stats here "%string]) init
              [stats_space; " no stats here "%string])
    as (m' & Hr & Hq & _ & Hl & _).
  - reflexivity.
  - reflexivity.
  - simpl. unfold maxsize. lia.
  - exists m'. split; [exact Hr|]. split.
    + rewrite Hq. vm_compute. reflexivity.
    + rewrite Hl. vm_compute. reflexivity.
Defined.

(** ** What the fields of a sample hold *)
Section CaptureFacts.
Local Open Scope list_scope.

Variable A : Type.

(** Like [bt_sound], keeping for every group the language of its text. *)
Lemma bt_captures r : forall s g (cont : list ascii -> groupdict -> option A) res,
  bt r s g cont = Some res ->
  exists w s' caps,
    s = w ++ s' /\ lang r w /\ cont s' (g ++ caps) = Some res
    /\ Forall2 captures caps (groups_of r).
Proof.
  induction r as [|k|k min lazy|name r IH|r1 IH1 r2 IH2]; intros s g cont res H.
  - exists [], s, []. rewrite app_nil_r. simpl in *.
    split; [reflexivity|]. split; [reflexivity|]. split; [assumption | constructor].
  - simpl in H. destruct s as [|c s]; [discriminate|].
    destruct (cmatch k c) eqn:Hk; [|discriminate].
    exists [c], s, []. rewrite app_nil_r. simpl.
    split; [reflexivity|]. split; [eauto|]. split; [assumption | constructor].
  - apply bt_sound in H as (w & s' & caps & Hs & Hw & Hc & Hn & _).
    simpl in Hn. destruct caps; [|discriminate].
    exists w, s', []. rewrite app_nil_r in *.
    split; [assumption|]. split; [exact Hw|]. split; [assumption | constructor].
  - simpl in H. apply IH in H as (w & s' & caps & -> & Hw & Hc & Hcap).
    rewrite firstn_consumed in Hc.
    exists w, s', (caps ++ [(name, text w)]).
    split; [reflexivity|]. split; [exact Hw|].
    split; [now rewrite app_assoc|].
    simpl. apply Forall2_app; [assumption|].
    constructor; [|constructor].
    split; [reflexivity|]. simpl. now rewrite chars_text.
  - simpl in H. apply IH1 in H as (w1 & s1 & caps1 & -> & Hw1 & Hc1 & Hcap1).
    apply IH2 in Hc1 as (w2 & s2 & caps2 & -> & Hw2 & Hc2 & Hcap2).
    exists (w1 ++ w2), s2, (caps1 ++ caps2).
    rewrite <- app_assoc in Hc2.
    split; [now rewrite app_assoc|].
    split; [simpl; eauto|].
    split; [exact Hc2|].
    simpl. now apply Forall2_app.
Qed.

End CaptureFacts.

Section FieldFacts.
Local Open Scope string_scope.

Lemma search_chars_captures r s : forall d,
  search_chars r s = Some d -> Forall2 captures d (groups_of r).
Proof.
  induction s as [|c s IH]; intros d H; simpl in H.
  - destruct (match_at r []) eqn:Hm; [|discriminate]. inversion H; subst.
    unfold match_at in Hm. apply bt_captures in Hm as (w & s' & caps & _ & _ & Hc & Hcap).
    simpl in Hc. now inversion Hc; subst.
  - destruct (match_at r (c :: s)) eqn:Hm.
    + inversion H; subst.
      unfold match_at in Hm. apply bt_captures in Hm as (w & s' & caps & _ & _ & Hc & Hcap).
      simpl in Hc. now inversion Hc; subst.
    + now apply IH.
Qed.

(** X2.  A sample has exactly the eight fields, in pattern order, and
    their texts are what the groups of the pattern allow: RAM used and
    total, EMC and GR3D percent and frequency are non-empty runs of decimal
    digits, the GPU temperature a non-empty run of digits and dots, and the
    CPU text is non-empty and has no line break. *)
Theorem X2_sample_fields (line : string) (d : groupdict) :
  parse_line line = Some d ->
  exists ram_used ram_total cpu emc_pct emc_mhz gr3d_pct gr3d_mhz gpu_temp,
    d = [("ram_used", ram_used); ("ram_total", ram_total); ("cpu", cpu);
         ("emc_pct", emc_pct); ("emc_mhz", emc_mhz);
         ("gr3d_pct", gr3d_pct); ("gr3d_mhz", gr3d_mhz); ("gpu_temp", gpu_temp)]
    /\ digits ram_used /\ digits ram_total
    /\ some not_newline (chars cpu)
    /\ digits emc_pct /\ digits emc_mhz
    /\ digits gr3d_pct /\ digits gr3d_mhz
    /\ digits_or_dots gpu_temp.
Proof.
  intros H. apply search_chars_captures in H.
  change (groups_of TEGRAPATTERN)
    with [("ram_used", digits1); ("ram_total", digits1); ("cpu", RRep CAny 1 true);
          ("emc_pct", digits1); ("emc_mhz", digits1);
          ("gr3d_pct", digits1); ("gr3d_mhz", digits1);
          ("gpu_temp", RRep digit_or_dot 1 false)] in H.
  repeat match goal with
         | H : Forall2 captures _ (_ :: _) |- _ =>
             inversion H as [|[? ?] ? ? ? [? ?] ?]; subst; clear H
         | H : Forall2 captures _ [] |- _ => inversion H; subst; clear H
         end.
  cbn [fst snd] in *. subst.
  do 8 eexists. split; [reflexivity|].
  unfold digits, digits_or_dots.
  repeat (split; [assumption|]).
  now apply (lang_some digit_or_dot temp_char false _ cmatch_temp).
Qed.

End FieldFacts.

(** X2 on the sample line with spaces in the FREQ labels. *)
Lemma X2_sample_fields_witness :
  exists ram_used ram_total cpu emc_pct emc_mhz gr3d_pct gr3d_mhz gpu_temp,
    sample_space
    = [("ram_used", ram_used); ("ram_total", ram_total); ("cpu", cpu);
       ("emc_pct", emc_pct); ("emc_mhz", emc_mhz);
       ("gr3d_pct", gr3d_pct); ("gr3d_mhz", gr3d_mhz); ("gpu_temp", gpu_temp)]%string
    /\ digits ram_used /\ digits ram_total
    /\ some not_newline (chars cpu)
    /\ digits emc_pct /\ digits emc_mhz
    /\ digits gr3d_pct /\ digits gr3d_mhz
    /\ digits_or_dots gpu_temp.
Proof.
  apply (X2_sample_fields stats_space sample_space). vm_compute. reflexivity.
Defined.

(** The temperature group takes dots alone as well. *)
Example parse_dot_temperature :
  option_map (dict_get "gpu_temp")
    (parse_line "RAM 1/2MB CPU [x] EMC_FREQ 3%@4 GR3D_FREQ 5%@6 GPU@..C")
  = Some ".."%string.
Proof. vm_compute. reflexivity. Qed.

(** ** What a render shows *)
Section RenderFacts.
Local Open Scope string_scope.

Variable cfg : config.

Lemma cuda_part (w : world) :
  (if show_cuda_mem cfg
   then match cuda_memory_summary (device cfg) with
        | Some summary =>
            if negb (String.eqb summary "") then emit (CudaInfo summary) else ret tt
        | None => ret tt
        end
   else ret tt) w = (Ok tt, w, cuda_shown cfg).
Proof.
  unfold cuda_shown, cuda_memory_summary.
  destruct (show_cuda_mem cfg), (is_gpu (device cfg)), (torch (device cfg));
    simpl; try reflexivity.
  destruct (memory_line (device cfg) =? ""); reflexivity.
Qed.

Lemma latest_part (w : world) :
  (if metrics cfg then metrics_latest else ret (None, "")) w
  = (Ok match monitor_read cfg w with
        | Some m => (fst (read (_queue m)), _last_raw m)
        | None => (None, "")
        end, rendered_world cfg w, []).
Proof.
  unfold monitor_read, rendered_world, monitor_read.
  destruct (metrics cfg); [|reflexivity].
  unfold metrics_latest, bind, get, modify, ret, latest.
  destruct (monitor_cache w) as [m|]; [|reflexivity].
  destruct (_queue m) as [|d q]; reflexivity.
Qed.

(** [_render_metrics], in full. *)
Lemma render_spec (w : world) :
  _render_metrics cfg w
  = (Ok tt, rendered_world cfg w, (telemetry_shown cfg w ++ cuda_shown cfg)%list).
Proof.
  unfold _render_metrics. unfold bind at 1. rewrite latest_part.
  unfold telemetry_shown, fallback_events.
  destruct (monitor_read cfg w) as [m|].
  - destruct (_queue m) as [|[|kv d] q]; cbn [read get_nowait fst].
    + unfold bind. destruct (_last_raw m =? ""); unfold emit; cbn [negb];
        rewrite cuda_part; reflexivity.
    + unfold bind. destruct (_last_raw m =? ""); unfold emit; cbn [negb];
        rewrite cuda_part; reflexivity.
    + unfold bind, emit. rewrite cuda_part. reflexivity.
  - unfold bind, emit. cbn. rewrite cuda_part. reflexivity.
Qed.

(** X3.  [_render_metrics] shows, in this order of preference, the five
    metric cells of the oldest queued sample, else the raw line if one was
    read, else the "Waiting for tegrastats..." caption; with monitoring
    off it shows the caption and leaves the monitor alone.  Showing a
    sample takes it out of the queue: with a queue within its bound, a
    second render with nothing written in between shows the raw line or
    the caption, never the metrics again. *)
Theorem X3_render_priority (w : world) :
  telemetry (events_of (_render_metrics cfg w)) = telemetry_shown cfg w
  /\ world_of (_render_metrics cfg w) = rendered_world cfg w
  /\ (metrics cfg = false -> world_of (_render_metrics cfg w) = w)
  /\ (forall m, monitor_read cfg w = Some m ->
        (List.length (_queue m) <= maxsize)%nat ->
        telemetry (events_of (_render_metrics cfg (world_of (_render_metrics cfg w))))
        = fallback_events (_last_raw m)).
Proof.
  assert (Ht : forall w', telemetry (events_of (_render_metrics cfg w'))
                          = telemetry_shown cfg w').
  { intros w'. rewrite render_spec. unfold events_of. cbn [snd].
    rewrite telemetry_app.
    assert (E1 : telemetry (cuda_shown cfg) = []).
    { unfold cuda_shown.
      destruct (show_cuda_mem cfg && is_gpu (device cfg) && torch (device cfg)
                && negb (memory_line (device cfg) =? "")); reflexivity. }
    rewrite E1, app_nil_r. unfold telemetry_shown.
    destruct (monitor_read cfg w') as [m|]; [|reflexivity].
    unfold fallback_events.
    destruct (_queue m) as [|[|kv d] q]; try reflexivity;
      destruct (_last_raw m =? ""); reflexivity. }
  split; [apply Ht|].
  split; [now rewrite render_spec|].
  split.
  - intros Hoff. rewrite render_spec. unfold world_of, rendered_world, monitor_read.
    cbn [fst snd]. now rewrite Hoff.
  - intros m Hm Hb. rewrite Ht, render_spec. unfold world_of. cbn [fst snd].
    unfold telemetry_shown, rendered_world. rewrite Hm.
    unfold monitor_read in *. destruct (metrics cfg); [|discriminate].
    cbn [monitor_cache set_monitor _queue set_queue _last_raw].
    unfold maxsize in Hb. destruct (_queue m) as [|d [|d' q]]; simpl in *; try reflexivity.
    lia.
Qed.

(** X4.  The CUDA memory line is shown by a render exactly when the
    checkbox is set, the device is a GPU with torch present and the line
    is not empty; on a CPU device or with the box cleared it never is. *)
Theorem X4_cuda_info (w : world) :
  filter is_cuda (events_of (_render_metrics cfg w))
  = (if show_cuda_mem cfg && is_gpu (device cfg) && torch (device cfg)
        && negb (memory_line (device cfg) =? "")
     then [CudaInfo (memory_line (device cfg))]
     else [])
  /\ (is_gpu (device cfg) = false \/ show_cuda_mem cfg = false ->
      filter is_cuda (events_of (_render_metrics cfg w)) = []).
Proof.
  assert (E : filter is_cuda (events_of (_render_metrics cfg w)) = cuda_shown cfg).
  { rewrite render_spec. unfold events_of. cbn [snd]. rewrite filter_app.
    assert (E1 : filter is_cuda (telemetry_shown cfg w) = []).
    { unfold telemetry_shown, fallback_events.
      destruct (monitor_read cfg w) as [m|]; [|reflexivity].
      destruct (_queue m) as [|[|kv d] q]; try reflexivity;
        destruct (_last_raw m =? ""); reflexivity. }
    rewrite E1. unfold cuda_shown.
    destruct (show_cuda_mem cfg && is_gpu (device cfg) && torch (device cfg)
              && negb (memory_line (device cfg) =? "")); reflexivity. }
  split; [exact E|].
  intros [Hg | Hs]; rewrite E; unfold cuda_shown.
  - rewrite Hg, andb_false_r. reflexivity.
  - rewrite Hs. reflexivity.
Qed.

End RenderFacts.

(** ** Opening files and devices *)
Section OpenFacts.
Local Open Scope string_scope.

Variable cv : cv2.





Lemma pending_update cap f w i :
  (forall c, cap_opened (f c) = cap_opened c /\ cap_frames (f c) = cap_frames c) ->
  pending i (set_caps (update_cap cap f (caps w)) w) = pending i w.
Proof.
  intros Hf. unfold pending. simpl. rewrite update_cap_nth.
  destruct (i =? cap)%nat; [|reflexivity].
  destruct (nth_error (caps w) i) as [c|]; [|reflexivity].
  simpl. destruct (Hf c) as [-> ->]. reflexivity.
Qed.

(** X6.  [_set_low_buffer] is best effort: whether the capture accepts the
    setting, raises on it, or the handle denotes nothing, it returns
    normally and shows nothing, and no capture is opened, closed or loses
    a frame by it; when the capture accepts the setting, its buffer size
    is 1 afterwards. *)
Theorem X6_set_low_buffer (cap : nat) (w : world) :
  result_of (_set_low_buffer cap w) = Ok tt
  /\ events_of (_set_low_buffer cap w) = []
  /\ attempts (world_of (_set_low_buffer cap w)) = attempts w
  /\ session_state (world_of (_set_low_buffer cap w)) = session_state w
  /\ (forall i, opened_at (world_of (_set_low_buffer cap w)) i = opened_at w i
                /\ pending i (world_of (_set_low_buffer cap w)) = pending i w)
  /\ (forall c, nth_error (caps w) cap = Some c -> cap_set_ok c = true ->
        option_map cap_buffersize (nth_error (caps (world_of (_set_low_buffer cap w))) cap)
        = Some (Some 1%Z)).
Proof.
  unfold _set_low_buffer, try_pass, set_buffersize, bind, get, modify, raise,
    result_of, events_of, world_of.
  cbn [fst snd].
  destruct (nth_error (caps w) cap) as [c|] eqn:Hc.
  - destruct (cap_set_ok c) eqn:Hok; cbn [fst snd].
    + split; [reflexivity|]. split; [reflexivity|]. split; [reflexivity|].
      split; [reflexivity|]. split.
      * intros i. split.
        -- now apply (opened_at_update cap (with_buffersize 1) (caps w)).
        -- now apply pending_update.
      * intros c' Hc' _. injection Hc' as <-. simpl.
        now rewrite (update_cap_same _ _ _ _ Hc).
    + split; [reflexivity|]. split; [reflexivity|]. split; [reflexivity|].
      split; [reflexivity|]. split; [auto|].
      intros c' Hc' Hok'. injection Hc' as <-. congruence.
  - cbn [fst snd]. split; [reflexivity|]. split; [reflexivity|]. split; [reflexivity|].
    split; [reflexivity|]. split; [auto|]. intros c' Hc'. discriminate.
Qed.

End OpenFacts.


(** ** No candidate opens *)
Section UdpFailFacts.
Local Open Scope string_scope.

Variable h : host.
Variable cv : cv2.
Variable cfg : config.

(** X7.  When neither URL opens, [open_udp_ffmpeg] returns (None, None)
    after exactly the two attempts, in order, leaving only closed captures
    behind; the UDP route then shows its error and returns: the loop is not
    entered (no inference call, no image) and the session state is as it
    was, so the route is not marked as running. *)
Theorem X7_udp_all_fail (port : Z) (stop : bool) (w : world) :
  cv_open cv (attempts w) (Url (FFMPEG_URL_BIND_ANY port)) = None ->
  cv_open cv (attempts w ++ [Url (FFMPEG_URL_BIND_ANY port)])
    (Url (FFMPEG_URL_BIND_ALL port)) = None ->
  udp_running (session_state w) = false ->
  result_of (open_udp_ffmpeg cv port w) = Ok (None, None)
  /\ attempts (world_of (open_udp_ffmpeg cv port w)) = (attempts w ++ candidates port)%list
  /\ result_of (route_udp h cv cfg port true stop w) = Ok tt
  /\ (exists msg, events_of (route_udp h cv cfg port true stop w) = [StError msg])
  /\ session_state (world_of (route_udp h cv cfg port true stop w)) = session_state w
  /\ (forall i, opened_at (world_of (route_udp h cv cfg port true stop w)) i = Some true ->
                opened_at w i = Some true).
Proof.
  intros H1 H2 Hrun.
  pose proof (open_udp_ffmpeg_spec cv port w) as Hspec. cbv zeta in Hspec.
  rewrite (new_capture_closed cv _ _ H1) in Hspec.
  assert (H2' : cap_opened (new_capture cv
                   (attempts (opened_world cv (Url (FFMPEG_URL_BIND_ANY port)) w))
                   (Url (FFMPEG_URL_BIND_ALL port))) = false)
    by (apply new_capture_closed; exact H2).
  rewrite H2' in Hspec.
  split; [now rewrite Hspec|].
  split; [rewrite Hspec; unfold world_of; simpl; now rewrite <- app_assoc|].
  assert (Hroute : route_udp h cv cfg port true stop w
            = (Ok tt,
               opened_world cv (Url (FFMPEG_URL_BIND_ALL port))
                 (opened_world cv (Url (FFMPEG_URL_BIND_ANY port)) w),
               [StError "Cannot open UDP stream. Verify sender IP/port, host networking or port mapping, and try a different port."])).
  { unfold route_udp. unfold bind at 1, get at 1. rewrite Hrun. cbn [andb negb].
    unfold bind at 1. rewrite Hspec. reflexivity. }
  rewrite Hroute. unfold result_of, events_of, world_of. cbn [fst snd].
  split; [reflexivity|]. split; [eauto|]. split; [reflexivity|].
  intros i. rewrite !opened_world_at.
  set (w1 := opened_world cv (Url (FFMPEG_URL_BIND_ANY port)) w) in *.
  assert (Hlen : List.length (caps w1) = S (List.length (caps w)))
    by (simpl; rewrite List.length_app; simpl; lia).
  destruct (Nat.ltb_spec i (List.length (caps w1))).
  - destruct (Nat.ltb_spec i (List.length (caps w))); [auto|].
    assert (i = List.length (caps w)) by lia. subst i.
    rewrite Nat.eqb_refl, (new_capture_closed cv _ _ H1). discriminate.
  - rewrite H2'. destruct (i =? List.length (caps w1))%nat; discriminate.
Qed.

End UdpFailFacts.

(** X7 on a machine where nothing opens. *)
Lemma X7_udp_all_fail_witness :
  result_of (open_udp_ffmpeg never_opens 5000 empty_world) = Ok (None, None)
  /\ attempts (world_of (open_udp_ffmpeg never_opens 5000 empty_world)) = candidates 5000
  /\ result_of (route_udp no_tool never_opens (demo_config 5) 5000 true false empty_world)
     = Ok tt.
Proof.
  destruct (X7_udp_all_fail no_tool never_opens (demo_config 5) 5000 false empty_world)
    as (H1 & H2 & H3 & _); try reflexivity.
  split; [exact H1|]. split; [exact H2 | exact H3].
Defined.

(** ** Frames read, frames shown *)
Section ConsumeFacts.
Local Open Scope Q_scope.

Variable h : host.
Variable cfg : config.





Lemma buffered_pending_any cap w i : pending i (buffered_world cap w) = pending i w.
Proof.
  destruct (buffered_cases cap w) as [-> | (c & Hc & ->)]; [reflexivity|].
  now apply pending_update.
Qed.

Lemma run_result_of cap w :
  result_of (run h cfg cap w)
  = match result_of (frames_loop h cfg cap (pending cap w) initial_state
                       (buffered_world cap w)) with
    | Ok _ => Ok tt
    | Raise e => Raise e
    end.
Proof. now rewrite run_unfold. Qed.

Lemma run_world_of cap w :
  world_of (run h cfg cap w)
  = world_of (frames_loop h cfg cap (pending cap w) initial_state (buffered_world cap w)).
Proof. now rewrite run_unfold. Qed.

Lemma run_events_of cap w :
  events_of (run h cfg cap w)
  = events_of (frames_loop h cfg cap (pending cap w) initial_state (buffered_world cap w)).
Proof. now rewrite run_unfold. Qed.


Lemma shown_app evs1 evs2 : shown (evs1 ++ evs2) = (shown evs1 ++ shown evs2)%list.
Proof.
  induction evs1 as [|e evs1 IH]; simpl; [reflexivity|].
  destruct e; simpl; now rewrite ?IH.
Qed.

Lemma shown_display revs : forallb is_display revs = true -> shown revs = [].
Proof.
  induction revs as [|e revs IH]; simpl; [reflexivity|].
  intros H. apply andb_true_iff in H as [He Hr].
  destruct e; simpl in *; try discriminate; auto.
Qed.

Lemma shown_emitted f n a revs evs :
  forallb is_display revs = true ->
  shown (Predict f :: (fps_events n f ++ Image a :: revs) ++ evs) = a :: shown evs.
Proof.
  intros Hd. simpl. rewrite <- app_assoc, shown_app.
  assert (E : shown (fps_events n f) = [])
    by (unfold fps_events; destruct (n mod 5 =? 0)%Z; reflexivity).
  rewrite E. simpl. now rewrite shown_app, (shown_display revs Hd).
Qed.

Lemma frames_loop_shown cap frames : forall st w,
  shown (events_of (frames_loop h cfg cap frames st w))
  = returned (predicted (events_of (frames_loop h cfg cap frames st w))).
Proof.
  induction frames as [|f rest IH]; intros st w.
  - reflexivity.
  - destruct (frames_loop_step h cfg cap f rest st w)
      as [(Hov & ->) | (iv & Hiv & [(Hlt & ->) | [(Hge & Hp & ->)
          | (Hge & a & w2 & revs & Hp & Hd & _ & _ & _ & ->)]])].
    + reflexivity.
    + apply IH.
    + unfold events_of, returned. simpl. now rewrite Hp.
    + unfold events_of at 1 3. simpl snd.
      rewrite (shown_emitted f _ a revs _ Hd), (predicted_emitted f _ a revs _ Hd).
      unfold returned. simpl. rewrite Hp. simpl. f_equal. apply IH.
Qed.

Lemma frames_loop_predicted_ok cap frames : forall st w,
  (exists st', result_of (frames_loop h cfg cap frames st w) = Ok st') ->
  Forall (fun f => prediction f <> None)
    (predicted (events_of (frames_loop h cfg cap frames st w))).
Proof.
  induction frames as [|f rest IH]; intros st w Hok.
  - constructor.
  - destruct (frames_loop_step h cfg cap f rest st w)
      as [(Hov & E) | (iv & Hiv & [(Hlt & E) | [(Hge & Hp & E)
          | (Hge & a & w2 & revs & Hp & Hd & _ & _ & _ & E)]])];
      rewrite E in *; clear E.
    + destruct Hok as [st' Hst]. discriminate.
    + now apply IH.
    + destruct Hok as [st' Hst]. discriminate.
    + unfold result_of at 1 in Hok. cbn [fst] in Hok.
      unfold events_of at 1. simpl snd.
      rewrite (predicted_emitted f _ a revs _ Hd).
      constructor; [congruence | now apply IH].
Qed.

Lemma returned_all_ok fs :
  Forall (fun f => prediction f <> None) fs ->
  map Some (returned fs) = map prediction fs.
Proof.
  induction 1 as [|f fs Hf _ IH]; [reflexivity|].
  unfold returned in *. simpl.
  destruct (prediction f) as [a|]; [|contradiction]. simpl. now rewrite IH.
Qed.

Lemma images_shown evs : images evs = List.length (shown evs).
Proof.
  unfold images. induction evs as [|e evs IH]; [reflexivity|].
  destruct e; simpl; auto.
Qed.

(** X9.  The images a run shows are exactly what inference returned for
    the frames it was called on, one each and in the same order: no frame
    is shown without an inference call or shown twice, and a frame whose
    call raised is not shown.  When the run returns, every frame inference
    was called on is shown. *)
Theorem X9_images_are_predictions (cap : nat) (w : world) :
  shown (events_of (run h cfg cap w)) = returned (predicted (events_of (run h cfg cap w)))
  /\ (result_of (run h cfg cap w) = Ok tt ->
      map Some (shown (events_of (run h cfg cap w)))
      = map prediction (predicted (events_of (run h cfg cap w))))
  /\ (List.length (shown (events_of (run h cfg cap w)))
      <= List.length (predicted (events_of (run h cfg cap w))))%nat.
Proof.
  assert (Hs : shown (events_of (run h cfg cap w))
               = returned (predicted (events_of (run h cfg cap w))))
    by (rewrite run_events_of; apply frames_loop_shown).
  split; [exact Hs|]. split.
  - intros Hok. rewrite Hs. apply returned_all_ok.
    rewrite run_events_of. apply frames_loop_predicted_ok.
    rewrite run_result_of in Hok.
    destruct (result_of (frames_loop h cfg cap (pending cap w) initial_state
                           (buffered_world cap w))) as [st'|e]; [eauto | discriminate].
  - rewrite Hs. generalize (predicted (events_of (run h cfg cap w))).
    intros l. unfold returned. induction l as [|f l IH]; simpl; [lia|].
    rewrite List.length_app. destruct (prediction f); simpl; lia.
Qed.




(** X12.  On a capture that is not open (released, never opened, or a
    handle that denotes nothing) [run] returns at once: no frame is read,
    inference is not called and nothing is shown. *)
Theorem X12_run_on_closed (cap : nat) (w : world) :
  opened_at w cap <> Some true ->
  result_of (run h cfg cap w) = Ok tt
  /\ events_of (run h cfg cap w) = []
  /\ (forall i, opened_at (world_of (run h cfg cap w)) i = opened_at w i
                /\ pending i (world_of (run h cfg cap w)) = pending i w).
Proof.
  intros Hc.
  assert (Hp : pending cap w = []).
  { unfold pending, opened_at in *. destruct (nth_error (caps w) cap) as [c|]; [|reflexivity].
    simpl in Hc. destruct (cap_opened c); [congruence | reflexivity]. }
  rewrite run_result_of, run_events_of, run_world_of, Hp.
  split; [reflexivity|]. split; [reflexivity|].
  intros i. unfold world_of. simpl.
  split; [apply buffered_opened | apply buffered_pending_any].
Qed.

End ConsumeFacts.



(** X12 on a handle that denotes nothing. *)
Lemma X12_run_on_closed_witness :
  result_of (run no_tool (demo_config 5) 0 empty_world) = Ok tt
  /\ events_of (run no_tool (demo_config 5) 0 empty_world) = [].
Proof.
  destruct (X12_run_on_closed no_tool (demo_config 5) 0 empty_world) as (H1 & H2 & _).
  - vm_compute. discriminate.
  - split; assumption.
Defined.

(** ** The monitor over time *)
Section MonitorInvariants.

Variable h : host.

Lemma nth_error_replace {A} (l : list A) (x : A) : forall t i,
  (t < List.length l)%nat ->
  nth_error (firstn t l ++ x :: skipn (S t) l) i
  = if (i =? t)%nat then Some x else nth_error l i.
Proof.
  induction l as [|y l IH]; intros t i Ht; simpl in Ht; [lia|].
  destruct t as [|t]; destruct i as [|i]; simpl; try reflexivity.
  apply IH. lia.
Qed.

Lemma reader_line_fields m line :
  _thread (fst (reader_line m line)) = _thread m
  /\ _proc (fst (reader_line m line)) = _proc m.
Proof.
  unfold reader_line. destruct (parse_line line) as [d|]; [|auto].
  destruct (put_nowait d (evict (_queue (set_last_raw (strip line) m)))); auto.
Qed.

Lemma thread_step_thread t m : _thread (fst (thread_step h t m)) = _thread m.
Proof.
  destruct t as [|[|line rest]|]; simpl; try reflexivity.
  - unfold reader_enter.
    destruct (negb (path_exists h (ts_path h))); [reflexivity|].
    destruct (popen h (ts_path h)); reflexivity.
  - pose proof (reader_line_fields m line) as [Ht _].
    destruct (reader_line m line) as [m' [[]|e]]; exact Ht.
Qed.

Lemma thread_step_finished m : snd (thread_step h Finished m) = Finished.
Proof. reflexivity. Qed.

Lemma step_thread_held t m ths :
  alive_is_held m ths ->
  alive_is_held (fst (step_thread h t m ths)) (snd (step_thread h t m ths)).
Proof.
  intros Hinv. unfold step_thread.
  destruct (nth_error ths t) as [th|] eqn:E; [|exact Hinv].
  pose proof (thread_step_thread th m) as Hth.
  destruct (thread_step h th m) as [m' th'] eqn:Es. cbn [fst snd] in *.
  intros i Hi. rewrite Hth. apply Hinv.
  unfold is_alive in *.
  rewrite nth_error_replace in Hi by (apply nth_error_Some; congruence).
  destruct (i =? t)%nat eqn:Eit; [|exact Hi].
  apply Nat.eqb_eq in Eit. subst i.
  rewrite E. destruct th; try reflexivity.
  simpl in Es. injection Es as _ <-. discriminate.
Qed.

Lemma start_held m ths :
  alive_is_held m ths ->
  alive_is_held (fst (start m ths)) (snd (start m ths)).
Proof.
  intros Hinv. unfold start.
  destruct (match _thread m with
            | Some t => negb (is_alive ths t)
            | None => true
            end) eqn:Hc; [|exact Hinv].
  simpl. intros i Hi. unfold is_alive in Hi.
  destruct (Nat.lt_trichotomy i (List.length ths)) as [Hlt | [-> | Hgt]].
  - rewrite nth_error_app1 in Hi by assumption.
    specialize (Hinv i Hi). rewrite Hinv in Hc.
    unfold is_alive in Hc at 1. apply negb_true_iff in Hc. congruence.
  - reflexivity.
  - rewrite nth_error_app2 in Hi by lia.
    destruct (i - List.length ths)%nat as [|[|k]] eqn:Ek; simpl in Hi; try discriminate. lia.
Qed.

Lemma exec_ops_held ops : forall m ths,
  alive_is_held m ths ->
  alive_is_held (fst (exec_ops h ops m ths)) (snd (exec_ops h ops m ths)).
Proof.
  induction ops as [|o ops IH]; intros m ths Hinv; [exact Hinv|].
  destruct o as [t| |]; simpl.
  - pose proof (step_thread_held t m ths Hinv) as H1.
    destruct (step_thread h t m ths) as [m1 ths1]. now apply IH.
  - pose proof (start_held m ths Hinv) as H1.
    destruct (start m ths) as [m1 ths1]. now apply IH.
  - apply IH. unfold latest. destruct (read (_queue m)). exact Hinv.
Qed.

(** X13.  However [start], [latest] and the steps of the threads follow one
    another from the freshly built monitor on, at most one reader thread
    is alive at any time, and it is the one the monitor holds: [start]
    never runs a second reader beside a live one. *)
Theorem X13_single_reader (ops : list monitor_op) :
  (forall t, is_alive (snd (exec_ops h ops init [])) t = true ->
             _thread (fst (exec_ops h ops init [])) = Some t)
  /\ (forall t1 t2,
         is_alive (snd (exec_ops h ops init [])) t1 = true ->
         is_alive (snd (exec_ops h ops init [])) t2 = true -> t1 = t2).
Proof.
  assert (Hinv : alive_is_held (fst (exec_ops h ops init [])) (snd (exec_ops h ops init []))).
  { apply exec_ops_held. intros t Ht. unfold is_alive in Ht. now destruct t. }
  split; [exact Hinv|].
  intros t1 t2 H1 H2. apply Hinv in H1. apply Hinv in H2. congruence.
Qed.

Lemma reader_line_bounded m line :
  (List.length (_queue m) <= maxsize)%nat ->
  snd (reader_line m line) = Ok tt
  /\ (List.length (_queue (fst (reader_line m line))) <= maxsize)%nat.
Proof.
  intros Hb. unfold reader_line.
  destruct (parse_line line) as [d|]; [|simpl; auto].
  simpl _queue. rewrite (evict_bounded _ Hb). simpl. unfold maxsize. auto.
Qed.

Lemma thread_step_bounded t m :
  (List.length (_queue m) <= maxsize)%nat ->
  (List.length (_queue (fst (thread_step h t m))) <= maxsize)%nat
  /\ (forall line rest, t = Reading (line :: rest) ->
        snd (thread_step h t m) = Reading rest).
Proof.
  intros Hb. destruct t as [|[|line rest]|]; simpl.
  - split; [|discriminate]. unfold reader_enter.
    destruct (negb (path_exists h (ts_path h))); [exact Hb|].
    destruct (popen h (ts_path h)); exact Hb.
  - split; [exact Hb | discriminate].
  - destruct (reader_line_bounded m line Hb) as [Hok Hb'].
    destruct (reader_line m line) as [m' r]. simpl in *. subst r.
    split; [exact Hb'|]. intros l r E. now injection E as <- <-.
  - split; [exact Hb | discriminate].
Qed.

Lemma exec_ops_bounded ops : forall m ths,
  (List.length (_queue m) <= maxsize)%nat ->
  (List.length (_queue (fst (exec_ops h ops m ths))) <= maxsize)%nat.
Proof.
  induction ops as [|o ops IH]; intros m ths Hb; [exact Hb|].
  destruct o as [t| |]; simpl.
  - unfold step_thread. destruct (nth_error ths t) as [th|]; [|now apply IH].
    destruct (thread_step_bounded th m Hb) as [Hb' _].
    destruct (thread_step h th m) as [m' th']. now apply IH.
  - unfold start.
    destruct (match _thread m with
              | Some t => negb (is_alive ths t)
              | None => true
              end); now apply IH.
  - apply IH. unfold latest.
    destruct (read (_queue m)) as [d q] eqn:E. simpl.
    pose proof (read_bounded _ Hb) as Hr. rewrite E in Hr. simpl in Hr. subst q.
    simpl. lia.
Qed.

(** X14.  From the freshly built monitor on, whatever the tool prints and
    however reads, starts and reader steps interleave, the queue never
    holds more than one sample; so the reader's [put_nowait] never raises
    [queue.Full], and a reader with a line to handle is never ended by
    its own write: it goes on to the next line. *)
Theorem X14_queue_bound (ops : list monitor_op) :
  (List.length (_queue (fst (exec_ops h ops init []))) <= 1)%nat
  /\ (forall line,
         snd (reader_line (fst (exec_ops h ops init [])) line) = Ok tt)
  /\ (forall line rest,
         snd (thread_step h (Reading (line :: rest)) (fst (exec_ops h ops init [])))
         = Reading rest).
Proof.
  assert (Hb : (List.length (_queue (fst (exec_ops h ops init []))) <= maxsize)%nat)
    by (apply exec_ops_bounded; simpl; unfold maxsize; lia).
  split; [exact Hb|]. split.
  - intros line. now apply reader_line_bounded.
  - intros line rest.
    destruct (thread_step_bounded (Reading (line :: rest)) _ Hb) as [_ H].
    exact (H line rest eq_refl).
Qed.

End MonitorInvariants.

(** ** The monitor singleton *)
Section SingletonFacts.

Lemma get_metrics_monitor_cached w m :
  monitor_cache w = Some m -> get_metrics_monitor w = (Ok tt, w, []).
Proof. intros Hm. unfold get_metrics_monitor, bind, get, ret. now rewrite Hm. Qed.

Lemma get_metrics_monitor_first w :
  monitor_cache w = None ->
  get_metrics_monitor w
  = (Ok tt,
     set_monitor (Some (set_thread (Some (List.length (threads w))) init))
       (threads w ++ [Created]) w, []).
Proof.
  intros Hm. unfold get_metrics_monitor, bind, get, modify. now rewrite Hm.
Qed.

(** X15.  [get_metrics_monitor] builds and starts the monitor on the first
    call only: then a blank monitor is cached that holds one new, live
    thread; every later call hands back the cache and changes nothing, so
    calling it again (as each script rerun does) starts no further thread
    and does not restart a reader that has ended. *)
Theorem X15_monitor_singleton (w : world) :
  result_of (get_metrics_monitor w) = Ok tt
  /\ events_of (get_metrics_monitor w) = []
  /\ (monitor_cache w = None ->
      exists m,
        monitor_cache (world_of (get_metrics_monitor w)) = Some m
        /\ blank m = true
        /\ _thread m = Some (List.length (threads w))
        /\ threads (world_of (get_metrics_monitor w)) = (threads w ++ [Created])%list
        /\ is_alive (threads (world_of (get_metrics_monitor w))) (List.length (threads w))
           = true)
  /\ (monitor_cache w <> None -> world_of (get_metrics_monitor w) = w)
  /\ get_metrics_monitor (world_of (get_metrics_monitor w))
     = (Ok tt, world_of (get_metrics_monitor w), [])
  /\ caps (world_of (get_metrics_monitor w)) = caps w
  /\ session_state (world_of (get_metrics_monitor w)) = session_state w.
Proof.
  destruct (monitor_cache w) as [m|] eqn:Hm.
  - rewrite (get_metrics_monitor_cached w m Hm).
    unfold result_of, events_of, world_of. cbn [fst snd].
    split; [reflexivity|]. split; [reflexivity|]. split; [discriminate|].
    split; [reflexivity|]. split; [now apply (get_metrics_monitor_cached w m)|]. auto.
  - rewrite (get_metrics_monitor_first w Hm).
    unfold result_of, events_of, world_of. cbn [fst snd].
    split; [reflexivity|]. split; [reflexivity|]. split.
    + intros _. eexists. split; [reflexivity|]. split; [reflexivity|].
      split; [reflexivity|]. split; [reflexivity|]. apply is_alive_new.
    + split; [congruence|]. split; [|auto].
      eapply get_metrics_monitor_cached. reflexivity.
Qed.

End SingletonFacts.

(** ** The UDP route after a failure *)
Section UdpStuckFacts.
Local Open Scope string_scope.

Variable h : host.
Variable cv : cv2.
Variable cfg : config.

Lemma route_udp_running w port stop :
  udp_running (session_state w) = true ->
  route_udp h cv cfg port true stop w = udp_stop stop w.
Proof.
  intros Hr. unfold route_udp, bind, get. rewrite Hr. cbn [andb negb].
  now destruct (udp_stop stop w) as [[r w'] evs].
Qed.

Lemma udp_stop_unclicked w : udp_stop false w = (Ok tt, w, []).
Proof. reflexivity. Qed.

Lemma udp_started_raise cap info stop w e :
  let r := ((emit (StInfo info) ;;
             set_udp_cap (Some cap) ;;
             set_udp_running true ;;
             run h cfg cap ;;
             release cap ;;
             set_udp_running false ;;
             emit (StSuccess "UDP stream finished.") ;;
             udp_stop stop)%monad w) in
  result_of r = Raise e ->
  session_state (world_of r) = {| udp_running := true; udp_cap := Some cap |}
  /\ forall i, opened_at (world_of r) i = opened_at w i.
Proof.
  intros r Hr. subst r.
  pose proof (udp_started_outcome h cfg cap info stop w) as Ho. cbv zeta in Ho.
  rewrite outcome_parts, Hr in Ho.
  set (w1 := set_session {| udp_running := true; udp_cap := Some cap |} w) in *.
  destruct (run_keeps h cfg cap w1) as [Hk Hs].
  destruct (result_of (run h cfg cap w1)) as [u|e']; [discriminate|].
  injection Ho as _ Hw. rewrite Hw. split; [exact Hs|].
  intros i. now rewrite Hk.
Qed.

(** X16.  When the loop raises in the UDP route, the route is left marked
    as running with the capture kept in the session state and still open.
    A further Start click is then ignored: nothing is opened and nothing
    shown.  Only a Stop click releases the capture and clears the mark. *)
Theorem X16_udp_stuck_after_failure (port : Z) (stop : bool) (w : world) (e : exc) :
  udp_running (session_state w) = false ->
  result_of (route_udp h cv cfg port true stop w) = Raise e ->
  exists cap,
    session_state (world_of (route_udp h cv cfg port true stop w))
    = {| udp_running := true; udp_cap := Some cap |}
    /\ opened_at (world_of (route_udp h cv cfg port true stop w)) cap = Some true
    /\ route_udp h cv cfg port true false (world_of (route_udp h cv cfg port true stop w))
       = (Ok tt, world_of (route_udp h cv cfg port true stop w), [])
    /\ result_of (route_udp h cv cfg port false true
                    (world_of (route_udp h cv cfg port true stop w))) = Ok tt
    /\ opened_at (world_of (route_udp h cv cfg port false true
                              (world_of (route_udp h cv cfg port true stop w)))) cap
       <> Some true
    /\ udp_running (session_state (world_of (route_udp h cv cfg port false true
                     (world_of (route_udp h cv cfg port true stop w))))) = false.
Proof.
  intros Hrun Hraise.
  set (url1 := FFMPEG_URL_BIND_ANY port).
  set (url2 := FFMPEG_URL_BIND_ALL port).
  set (w1 := opened_world cv (Url url1) w).
  pose proof (open_udp_outcome cv port w) as Hopen. cbv zeta in Hopen.
  fold url1 url2 w1 in Hopen.
  assert (Hroute : forall r wo,
            outcome (open_udp_ffmpeg cv port w) = (Ok r, wo) ->
            outcome (route_udp h cv cfg port true stop w)
            = outcome (match r with
                       | (None, _) =>
                           emit (StError "Cannot open UDP stream. Verify sender IP/port, host networking or port mapping, and try a different port.")
                       | (Some cap, used_url) =>
                           (emit (StInfo ("UDP opened via FFmpeg URL: "
                                          ++ match used_url with Some u => u | None => "None" end)) ;;
                            set_udp_cap (Some cap) ;;
                            set_udp_running true ;;
                            run h cfg cap ;;
                            release cap ;;
                            set_udp_running false ;;
                            emit (StSuccess "UDP stream finished.") ;;
                            udp_stop stop)%monad
                       end wo)).
  { intros r wo Ho. unfold route_udp. rewrite outcome_get, Hrun. cbn [andb negb].
    rewrite (outcome_ok _ _ w wo r Ho). reflexivity. }
  assert (Hcap : exists cap,
             session_state (world_of (route_udp h cv cfg port true stop w))
             = {| udp_running := true; udp_cap := Some cap |}
             /\ opened_at (world_of (route_udp h cv cfg port true stop w)) cap = Some true).
  { destruct (cap_opened (new_capture cv (attempts w) (Url url1))) eqn:H1.
    - specialize (Hroute _ _ Hopen). apply outcome_eq in Hroute as [Hres Hw].
      rewrite Hres in Hraise. rewrite Hw.
      destruct (udp_started_raise _ _ _ _ _ Hraise) as [Hs Ho].
      exists (List.length (caps w)). split; [exact Hs|].
      rewrite Ho, low_buffer_world_at, opened_world_at, Nat.ltb_irrefl, Nat.eqb_refl.
      now rewrite H1.
    - destruct (cap_opened (new_capture cv (attempts w1) (Url url2))) eqn:H2.
      + specialize (Hroute _ _ Hopen). apply outcome_eq in Hroute as [Hres Hw].
        rewrite Hres in Hraise. rewrite Hw.
        destruct (udp_started_raise _ _ _ _ _ Hraise) as [Hs Ho].
        exists (List.length (caps w1)). split; [exact Hs|].
        rewrite Ho, low_buffer_world_at, opened_world_at, Nat.ltb_irrefl, Nat.eqb_refl.
        now rewrite H2.
      + specialize (Hroute _ _ Hopen). apply outcome_eq in Hroute as [Hres Hw].
        rewrite Hres in Hraise. discriminate. }
  destruct Hcap as (cap & Hs & Ho). exists cap.
  set (w' := world_of (route_udp h cv cfg port true stop w)) in *.
  assert (Hr' : udp_running (session_state w') = true) by now rewrite Hs.
  assert (Hc' : udp_cap (session_state w') = Some cap) by now rewrite Hs.
  split; [exact Hs|]. split; [exact Ho|]. split.
  - rewrite (route_udp_running w' port false Hr'). apply udp_stop_unclicked.
  - destruct (route_udp_stop_closed h cv cfg port false w' cap Hr' Hc') as (R1 & R2 & R3).
    auto.
Qed.

End UdpStuckFacts.

(** X16 on the example source whose third frame makes inference raise. *)
Lemma X16_udp_stuck_after_failure_witness :
  exists cap,
    session_state (world_of (route_udp no_tool (demo_cv (1 # 20) 2 3) (demo_config 5)
                               5000 true false empty_world))
    = {| udp_running := true; udp_cap := Some cap |}
    /\ opened_at (world_of (route_udp no_tool (demo_cv (1 # 20) 2 3) (demo_config 5)
                              5000 true false empty_world)) cap = Some true.
Proof.
  destruct (X16_udp_stuck_after_failure no_tool (demo_cv (1 # 20) 2 3) (demo_config 5)
              5000 false empty_world (Exception "predict"))
    as (cap & H1 & H2 & _).
  - reflexivity.
  - vm_compute. reflexivity.
  - exists cap. split; assumption.
Defined.

(** ** list_videos_under *)

Lemma char_compare_lt_trans (a b c : ascii) :
  Ascii.compare a b = Lt -> Ascii.compare b c = Lt -> Ascii.compare a c = Lt.
Proof.
  unfold Ascii.compare. rewrite !N.compare_lt_iff. apply N.lt_trans.
Qed.

Lemma leb_trans (a b c : string) :
  String.leb a b = true -> String.leb b c = true -> String.leb a c = true.
Proof.
  unfold String.leb. revert b c.
  induction a as [|x a IH]; intros [|y b] [|z c]; cbn; try congruence.
  destruct (Ascii.compare x y) eqn:Exy; try congruence.
  - apply Ascii.compare_eq_iff in Exy. subst y.
    destruct (Ascii.compare x z); try congruence. apply IH.
  - destruct (Ascii.compare y z) eqn:Eyz; try congruence.
    + apply Ascii.compare_eq_iff in Eyz. subst z. now rewrite Exy.
    + now rewrite (char_compare_lt_trans _ _ _ Exy Eyz).
Qed.

Lemma insert_perm (x : string) (l : list string) : Permutation (insert x l) (x :: l).
Proof.
  induction l as [|y l IH]; cbn; [reflexivity|].
  destruct (String.leb x y); [reflexivity|].
  rewrite IH. apply perm_swap.
Qed.

Lemma sorted_perm (l : list string) : Permutation (sorted l) l.
Proof.
  induction l as [|x l IH]; cbn; [reflexivity|].
  rewrite insert_perm. now constructor.
Qed.

Lemma insert_hd (a x : string) (l : list string) :
  ascending a x -> HdRel ascending a l -> HdRel ascending a (insert x l).
Proof.
  intros Hax Hl. destruct l as [|y l]; cbn.
  - now constructor.
  - destruct (String.leb x y); constructor; [exact Hax|].
    now apply HdRel_inv in Hl.
Qed.

Lemma insert_sorted (x : string) (l : list string) :
  Sorted ascending l -> Sorted ascending (insert x l).
Proof.
  induction 1 as [|y l Hs IH Hhd]; cbn.
  - repeat constructor.
  - destruct (String.leb x y) eqn:E.
    + constructor; [now constructor|]. now constructor.
    + constructor; [exact IH|]. apply insert_hd; [|exact Hhd].
      destruct (String.leb_total x y) as [H|H]; [congruence|exact H].
Qed.

Lemma sorted_sorted (l : list string) : Sorted ascending (sorted l).
Proof.
  induction l as [|x l IH]; cbn; [constructor|]. now apply insert_sorted.
Qed.

Lemma ascending_unique (l l' : list string) :
  Sorted ascending l -> Sorted ascending l' -> Permutation l l' -> l = l'.
Proof.
  intros Hl Hl'.
  apply Sorted_StronglySorted in Hl; [|intros a b c; apply leb_trans].
  apply Sorted_StronglySorted in Hl'; [|intros a b c; apply leb_trans].
  revert l' Hl'. induction Hl as [|a l Hs IH Ha]; intros l' Hl' Hp.
  - apply Permutation_nil in Hp. now subst.
  - destruct Hl' as [|b l' Hs' Hb].
    + apply Permutation_sym, Permutation_nil in Hp. discriminate.
    + assert (Hab : a = b).
      { assert (Ia : In a (b :: l')) by (apply (Permutation_in _ Hp); now left).
        assert (Ib : In b (a :: l))
          by (apply (Permutation_in _ (Permutation_sym Hp)); now left).
        destruct Ia as [E|Ia]; [now symmetry|].
        destruct Ib as [E|Ib]; [exact E|].
        rewrite Forall_forall in Ha, Hb.
        apply String.leb_antisym; [now apply Ha | now apply Hb]. }
      subst b. f_equal. apply IH; [exact Hs'|].
      now apply Permutation_cons_inv in Hp.
Qed.

Lemma filter_perm (A : Type) (f : A -> bool) (l l' : list A) :
  Permutation l l' -> Permutation (filter f l) (filter f l').
Proof.
  induction 1 as [|x l l' _ IH|x y l|l1 l2 l3 _ IH1 _ IH2]; cbn.
  - reflexivity.
  - destruct (f x); [now constructor|exact IH].
  - destruct (f x), (f y); try reflexivity. apply perm_swap.
  - now transitivity (filter f l2).
Qed.

(** X17 ([list_videos_under], lines 314-318): the returned list is in
    ascending order of Python's string comparison and is a rearrangement
    of the entries of the directory listing whose lower-cased name ends in
    one of the four extensions: every such entry is returned, as often as
    the listing has it, nothing else is, and so the result is never longer
    than the listing. *)
Theorem X17_list_videos_under (listing : list string) :
  Sorted (fun a b => String.leb a b = true) (list_videos_under listing)
  /\ Permutation (list_videos_under listing) (filter is_video listing)
  /\ (forall p, In p (list_videos_under listing)
                <-> In p listing /\ is_video p = true)
  /\ (List.length (list_videos_under listing) <= List.length listing)%nat.
Proof.
  unfold list_videos_under.
  pose proof (sorted_perm (filter is_video listing)) as Hp.
  split; [apply sorted_sorted|]. split; [exact Hp|]. split.
  - intro p. rewrite <- filter_In. split; intro H.
    + now apply (Permutation_in _ Hp).
    + now apply (Permutation_in _ (Permutation_sym Hp)).
  - rewrite (Permutation_length Hp). apply filter_length_le.
Qed.

(** X18 ([list_videos_under], lines 314-318): the result does not depend
    on the order in which [glob.glob] lists the directory: two listings
    with the same entries in any order give the same list. *)
Theorem X18_listing_order_irrelevant (listing listing' : list string) :
  Permutation listing listing' ->
  list_videos_under listing = list_videos_under listing'.
Proof.
  intro Hp. unfold list_videos_under.
  apply ascending_unique; try apply sorted_sorted.
  rewrite !sorted_perm. now apply filter_perm.
Qed.

(** X18 on a directory of three entries listed in two orders. *)
Lemma X18_listing_order_irrelevant_witness :
  list_videos_under ["/videos/b.mp4"; "/videos/notes.txt"; "/videos/A.MOV"]%string
  = list_videos_under ["/videos/A.MOV"; "/videos/b.mp4"; "/videos/notes.txt"]%string.
Proof.
  apply X18_listing_order_irrelevant.
  apply Permutation_sym.
  apply (Permutation_cons_app ["/videos/b.mp4"; "/videos/notes.txt"]%string []).
  reflexivity.
Defined.

Lemma starts_with_iff (pre l : list ascii) :
  starts_with pre l = true <-> exists rest, l = (pre ++ rest)%list.
Proof.
  revert l. induction pre as [|a pre IH]; intro l; cbn.
  - split; [intros _; now exists l | reflexivity].
  - destruct l as [|b l].
    + split; [discriminate | intros [rest H]; discriminate].
    + rewrite andb_true_iff, Ascii.eqb_eq, IH. split.
      * intros [-> [rest ->]]. now exists rest.
      * intros [rest H]. injection H as -> ->. split; [reflexivity|now exists rest].
Qed.

Lemma endswith_iff (s suffix : string) :
  endswith s suffix = true <-> exists pre, chars s = (pre ++ chars suffix)%list.
Proof.
  unfold endswith. rewrite starts_with_iff. split.
  - intros [rest H]. exists (rev rest).
    rewrite <- (rev_involutive (chars s)), H, rev_app_distr.
    now rewrite rev_involutive.
  - intros [pre H]. exists (rev pre). now rewrite H, rev_app_distr.
Qed.

Lemma text_app (a b : list ascii) : text (a ++ b) = (text a ++ text b)%string.
Proof.
  unfold text. induction a as [|x a IH]; cbn; [reflexivity|]. now rewrite IH.
Qed.

Lemma chars_app (a b : string) : chars (a ++ b) = (chars a ++ chars b)%list.
Proof.
  unfold chars. induction a as [|x a IH]; cbn; [reflexivity|]. now rewrite IH.
Qed.

Lemma chars_str_lower (s : string) : chars (str_lower s) = map py_lower (chars s).
Proof. unfold str_lower, chars, text. apply list_ascii_of_string_of_list_ascii. Qed.

(** X19 ([list_videos_under], lines 316-317): a path passes the filter
    exactly when it ends in a piece whose lower-cased form is one of
    [.mp4], [.mov], [.avi], [.mkv]; the case of the extension is
    irrelevant and nothing is asked of the part before it (which may be
    empty). *)
Theorem X19_is_video_suffix (p : string) :
  is_video p = true
  <-> exists stem e, p = (stem ++ e)%string
                     /\ In (str_lower e) [".mp4"; ".mov"; ".avi"; ".mkv"]%string.
Proof.
  unfold is_video. rewrite existsb_exists. split.
  - intros (x & Hx & He). apply endswith_iff in He as [pre He].
    rewrite chars_str_lower in He.
    apply map_eq_app in He as (l1 & l2 & Hp & _ & H2).
    exists (text l1), (text l2). split.
    + rewrite <- text_app, <- Hp. unfold text, chars.
      now rewrite string_of_list_ascii_of_string.
    + replace (str_lower (text l2)) with x; [exact Hx|].
      unfold str_lower. unfold chars at 1, text at 2.
      rewrite list_ascii_of_string_of_list_ascii, H2.
      unfold text, chars. now rewrite string_of_list_ascii_of_string.
  - intros (stem & e & -> & He). exists (str_lower e). split; [exact He|].
    apply endswith_iff. exists (map py_lower (chars stem)).
    now rewrite !chars_str_lower, chars_app, map_app.
Qed.

Lemma filter_nil_iff (A : Type) (f : A -> bool) (l : list A) :
  filter f l = [] <-> Forall (fun x => f x = false) l.
Proof.
  induction l as [|x l IH]; cbn.
  - split; [constructor | reflexivity].
  - destruct (f x) eqn:E.
    + split; [discriminate|]. intro H. inversion H; congruence.
    + rewrite IH. split; [now constructor | intro H; now inversion H].
Qed.

(** X20 ([list_videos_under], lines 314-318, as [main] uses it at lines
    398-403): the list is empty, which is when the mounted-video route
    warns and returns, exactly when no entry of the listing has a video
    extension; otherwise its first element, the one the select box
    preselects with [index=0], is a video entry of the listing that is
    less than or equal to every other one. *)
Theorem X20_videos_empty_or_least (listing : list string) :
  (list_videos_under listing = [] <-> Forall (fun p => is_video p = false) listing)
  /\ (forall first rest, list_videos_under listing = first :: rest ->
        In first listing /\ is_video first = true
        /\ forall p, In p listing -> is_video p = true -> String.leb first p = true).
Proof.
  pose proof (sorted_perm (filter is_video listing)) as Hp.
  pose proof (sorted_sorted (filter is_video listing)) as Hs.
  fold (list_videos_under listing) in Hp, Hs. split.
  - rewrite <- filter_nil_iff. split; intro H.
    + rewrite H in Hp. now apply Permutation_nil in Hp.
    + unfold list_videos_under. now rewrite H.
  - intros first rest E. rewrite E in Hp, Hs.
    assert (Hin : forall p, In p (first :: rest) <-> In p listing /\ is_video p = true).
    { intro p. rewrite <- filter_In. split; intro H.
      - now apply (Permutation_in _ Hp).
      - now apply (Permutation_in _ (Permutation_sym Hp)). }
    destruct (proj1 (Hin first) (or_introl eq_refl)) as [H1 H2].
    split; [exact H1|]. split; [exact H2|]. intros p Hp1 Hp2.
    apply Sorted_StronglySorted in Hs; [|intros a b c; apply leb_trans].
    apply StronglySorted_inv in Hs as [_ Hall]. rewrite Forall_forall in Hall.
    destruct (proj2 (Hin p) (conj Hp1 Hp2)) as [<-|Hr].
    + now destruct (String.leb_total first first).
    + now apply Hall.
Qed.
